(** * A shallow embedding of the retrieval core of rag-proj

    The development follows the three services of the repository:
    - [app/services/text_processor.py]  (module [TextProcessor]),
    - [app/services/vector_store.py]    (modules [Numpy] and [VectorStore]),
    - [app/services/rag_engine.py]      (module [RAGEngine]).

    Python [str] values are lists of Unicode code points, Python [int]s are
    [Z], NumPy [float64] scalars are the kernel's binary64 floats, and a
    method that can raise returns a value of the error type [res]. *)

From Stdlib Require Import ZArith List Bool Lia String Ascii Floats Permutation Sorted.
Import ListNotations.

Local Open Scope Z_scope.

(** ** Exceptions *)

Inductive exn : Type :=
| IndexError
| ValueError
| AxisError
| TypeError
| OSError
| VectorStoreError (message : string).

Inductive res (A : Type) : Type :=
| Ok (a : A)
| Raise (e : exn).

Arguments Ok {A} a.
Arguments Raise {A} e.

Definition bind {A B : Type} (r : res A) (k : A -> res B) : res B :=
  match r with
  | Ok a => k a
  | Raise e => Raise e
  end.

(** ** Python strings *)

Module PyStr.

(** A character is a code point; a string is the list of its code points. *)
Definition char : Type := N.
Definition str : Type := list char.

Definition of_string (s : string) : str :=
  map N_of_ascii (list_ascii_of_string s).

Definition SPACE : char := 32%N.
Definition NEWLINE : char := 10%N.

(** [len(s)] *)
Definition len {A : Type} (s : list A) : Z := Z.of_nat (List.length s).

(** [str.isspace] on one character, which is also what [\s] matches in a
    [str] pattern: the ASCII controls 9-13 and 28-31, the space, and the
    Unicode separators. *)
Definition isspace (c : char) : bool :=
  ((9 <=? c) && (c <=? 13) || (28 <=? c) && (c <=? 32)
   || (c =? 133) || (c =? 160) || (c =? 5760)
   || (8192 <=? c) && (c <=? 8202)
   || (c =? 8232) || (c =? 8233) || (c =? 8239) || (c =? 8287)
   || (c =? 12288))%N.

(** Truthiness of a string: [if s] holds for the non-empty ones. *)
Definition truthy {A : Type} (s : list A) : bool :=
  match s with
  | [] => false
  | _ :: _ => true
  end.

Fixpoint lstrip (s : str) : str :=
  match s with
  | [] => []
  | c :: s' => if isspace c then lstrip s' else s
  end.

Definition rstrip (s : str) : str := rev (lstrip (rev s)).

(** [s.strip()] *)
Definition strip (s : str) : str := rstrip (lstrip s).

(** [s.startswith(p)] *)
Fixpoint startswith (p s : str) : bool :=
  match p, s with
  | [], _ => true
  | _ :: _, [] => false
  | a :: p', b :: s' => (a =? b)%N && startswith p' s'
  end.

(** [s.split(sep)] for a non-empty [sep]: the text is scanned from the
    left; [skip] counts the characters of a matched separator that are
    still to be passed over, [cur] is the piece being read, reversed. *)
Fixpoint split_from (sep s : str) (skip : nat) (cur : str) : list str :=
  match s with
  | [] => [rev cur]
  | c :: s' =>
      match skip with
      | S k => split_from sep s' k cur
      | O =>
          if startswith sep s
          then rev cur :: split_from sep s' (List.length sep - 1)%nat []
          else split_from sep s' 0 (c :: cur)
      end
  end.

Definition split (sep s : str) : list str := split_from sep s 0 [].

(** [s.find(c)] for a one-character needle: the first index, or [-1]. *)
Fixpoint find_from (c : char) (s : str) (i : Z) : Z :=
  match s with
  | [] => -1
  | d :: s' => if (d =? c)%N then i else find_from c s' (i + 1)
  end.

Definition find (c : char) (s : str) : Z := find_from c s 0.

(** [s[start:]]: a negative [start] counts from the end. *)
Definition slice_from {A : Type} (start : Z) (s : list A) : list A :=
  if start <? 0
  then skipn (Z.to_nat (Z.max 0 (len s + start))) s
  else skipn (Z.to_nat start) s.

(** [s[:stop]]: a negative [stop] counts from the end. *)
Definition slice_to {A : Type} (stop : Z) (s : list A) : list A :=
  if stop <? 0
  then firstn (Z.to_nat (Z.max 0 (len s + stop))) s
  else firstn (Z.to_nat stop) s.

(** [sep.join(parts)] *)
Fixpoint join (sep : str) (parts : list str) : str :=
  match parts with
  | [] => []
  | [p] => p
  | p :: ps => p ++ sep ++ join sep ps
  end.

(** [re.sub(r"\s+", " ", s)]: every maximal run of whitespace becomes one
    space. [in_run] tells that the previous character was whitespace. *)
Fixpoint sub_whitespace (in_run : bool) (s : str) : str :=
  match s with
  | [] => []
  | c :: s' =>
      if isspace c
      then if in_run then sub_whitespace true s'
           else SPACE :: sub_whitespace true s'
      else c :: sub_whitespace false s'
  end.

(** [re.sub(r"\n{3,}", "\n\n", s)]: a maximal run of newlines of length
    three or more becomes two newlines. [run] counts the newlines read and
    not yet written. *)
Definition flush_newlines (run : nat) : str :=
  repeat NEWLINE (if (3 <=? run)%nat then 2 else run).

Fixpoint sub_newlines (run : nat) (s : str) : str :=
  match s with
  | [] => flush_newlines run
  | c :: s' =>
      if (c =? NEWLINE)%N
      then sub_newlines (S run) s'
      else flush_newlines run ++ c :: sub_newlines 0 s'
  end.

(** Decimal rendering of a non-negative integer, as [f"{i}"] gives it. *)
Fixpoint chars_of_uint (d : Decimal.uint) : str :=
  match d with
  | Decimal.Nil => []
  | Decimal.D0 d => 48%N :: chars_of_uint d
  | Decimal.D1 d => 49%N :: chars_of_uint d
  | Decimal.D2 d => 50%N :: chars_of_uint d
  | Decimal.D3 d => 51%N :: chars_of_uint d
  | Decimal.D4 d => 52%N :: chars_of_uint d
  | Decimal.D5 d => 53%N :: chars_of_uint d
  | Decimal.D6 d => 54%N :: chars_of_uint d
  | Decimal.D7 d => 55%N :: chars_of_uint d
  | Decimal.D8 d => 56%N :: chars_of_uint d
  | Decimal.D9 d => 57%N :: chars_of_uint d
  end.

Definition str_of_nat (n : nat) : str := chars_of_uint (Nat.to_uint n).

End PyStr.

Import PyStr.

(** ** Settings ([app/core/config.py]) *)

Record Settings : Type := {
  settings_chunk_size : Z;
  settings_chunk_overlap : Z;
  retrieval_top_k : Z;
  max_context_length : Z
}.

Definition default_settings : Settings := {|
  settings_chunk_size := 500;
  settings_chunk_overlap := 50;
  retrieval_top_k := 3;
  max_context_length := 2000
|}.

(** [x or d] for an optional integer: [None] and [0] are falsy. *)
Definition int_or (x : option Z) (d : Z) : Z :=
  match x with
  | Some v => if v =? 0 then d else v
  | None => d
  end.

(** ** The chunker ([app/services/text_processor.py]) *)

Module TextProcessor.

Record t : Type := {
  chunk_size : Z;
  chunk_overlap : Z;
  separators : list str
}.

(** [TextProcessor.__init__] *)
Definition init (settings : Settings) (chunk_size chunk_overlap : option Z) : t := {|
  chunk_size := int_or chunk_size (settings_chunk_size settings);
  chunk_overlap := int_or chunk_overlap (settings_chunk_overlap settings);
  separators := [ [NEWLINE; NEWLINE]; [NEWLINE]; [46%N; SPACE]; [SPACE]; [] ]
|}.

Definition clean_text (text : str) : str :=
  let text := sub_whitespace false text in
  let text := sub_newlines 0 text in
  strip text.

Fixpoint _recursive_split (self : t) (text : str) (separators : list str)
  {struct separators} : list str :=
  match separators with
  | [] => [text]
  | separator :: remaining_separators =>
      match separator with
      | [] => map (fun c => [c]) text
      | _ :: _ =>
          flat_map
            (fun split =>
               if len split <=? chunk_size self
               then [split]
               else _recursive_split self split remaining_separators)
            (split separator text)
      end
  end.

(** The text carried over from [prev_chunk] by [_add_overlap]. *)
Definition overlap_text (self : t) (prev_chunk : str) : str :=
  let overlap_text := slice_from (- chunk_overlap self) prev_chunk in
  if negb (startswith [SPACE] overlap_text)
  then
    let space_idx := find SPACE overlap_text in
    if negb (space_idx =? -1)
    then slice_from (space_idx + 1) overlap_text
    else overlap_text
  else overlap_text.

Definition overlapped (self : t) (prev_chunk current_chunk : str) : str :=
  strip (overlap_text self prev_chunk ++ [SPACE] ++ current_chunk).

(** The loop of [_add_overlap]: [prev_chunk] is [chunks[i - 1]] and the
    head of [rest] is [chunks[i]]. *)
Fixpoint overlap_loop (self : t) (prev_chunk : str) (rest : list str) : list str :=
  match rest with
  | [] => []
  | current_chunk :: rest' =>
      overlapped self prev_chunk current_chunk
        :: overlap_loop self current_chunk rest'
  end.

(** [chunks[0]] raises [IndexError] on the empty list. *)
Definition _add_overlap (self : t) (chunks : list str) : res (list str) :=
  match chunks with
  | [] => Raise IndexError
  | c0 :: rest => Ok (c0 :: overlap_loop self c0 rest)
  end.

(** One iteration of the loop of [_merge_chunks] on the state
    [(merged, current_chunk)]. *)
Definition merge_step (self : t) (st : list str * str) (chunk : str)
  : list str * str :=
  let '(merged, current_chunk) := st in
  let chunk := strip chunk in
  if negb (truthy chunk) then st
  else if len current_chunk + len chunk + 1 <=? chunk_size self
  then (merged, strip (current_chunk ++ [SPACE] ++ chunk))
  else ((if truthy current_chunk then merged ++ [current_chunk] else merged),
        chunk).

(** [_merge_chunks] up to, and without, the overlap step. *)
Definition merge_only (self : t) (chunks : list str) : list str :=
  let '(merged, current_chunk) := fold_left (merge_step self) chunks ([], []) in
  if truthy current_chunk then merged ++ [current_chunk] else merged.

Definition _merge_chunks (self : t) (chunks : list str) : res (list str) :=
  if negb (truthy chunks) then Ok []
  else
    let merged := merge_only self chunks in
    if (chunk_overlap self >? 0) && (len merged >? 1)
    then _add_overlap self merged
    else Ok merged.

Definition split_text (self : t) (text : str) : res (list str) :=
  let text := clean_text text in
  if len text <=? chunk_size self
  then Ok (if truthy text then [text] else [])
  else
    let chunks := _recursive_split self text (separators self) in
    _merge_chunks self chunks.

(** The chunks of [split_text] as they are before [_add_overlap] runs. *)
Definition pre_overlap (self : t) (text : str) : list str :=
  let text := clean_text text in
  if len text <=? chunk_size self
  then if truthy text then [text] else []
  else merge_only self (_recursive_split self text (separators self)).

End TextProcessor.

(** ** The part of NumPy the vector store uses *)

Module Numpy.

Local Open Scope float_scope.

(** A [float64] array of one or two dimensions. [Arr2 rows] has shape
    [(len rows, len (hd rows))]; the arrays built below have at least one
    row and rows of one length. [ArrNone] is the 0-d object array holding
    [None] that [np.savez] writes for a [None] argument. It only arises
    from persisting a store with documents and no embeddings, which no
    method produces ([inv_embeddings]); NumPy operations on it
    are given as raising. *)
Inductive ndarray : Type :=
| ArrNone
| Arr1 (v : list float)
| Arr2 (rows : list (list float)).

Definition ncols (rows : list (list float)) : nat :=
  match rows with
  | [] => O
  | r :: _ => List.length r
  end.

Definition rectangular (rows : list (list float)) : bool :=
  forallb (fun r => Nat.eqb (List.length r) (ncols rows)) rows.

(** [np.array(embeddings)] for a list of lists of floats. The empty list
    gives the 1-d array of shape [(0,)], rows of one length give a 2-d
    array, rows of different lengths raise [ValueError] (NumPy 1.24 and
    later). *)
Definition array (embeddings : list (list float)) : res ndarray :=
  match embeddings with
  | [] => Ok (Arr1 [])
  | _ :: _ =>
      if rectangular embeddings then Ok (Arr2 embeddings)
      else Raise ValueError
  end.

(** [np.atleast_2d] *)
Definition atleast_2d (a : ndarray) : res (list (list float)) :=
  match a with
  | ArrNone => Raise TypeError
  | Arr1 v => Ok [v]
  | Arr2 rows => Ok rows
  end.

(** [np.vstack([a, b])]: the column counts must agree. *)
Definition vstack (a b : ndarray) : res ndarray :=
  bind (atleast_2d a) (fun ra =>
  bind (atleast_2d b) (fun rb =>
    if Nat.eqb (ncols ra) (ncols rb) then Ok (Arr2 (ra ++ rb))
    else Raise ValueError)).

(** Sums are taken from the left, starting at [0.0]. NumPy leaves the
    order of a reduction to the implementation; the theorems below do not
    depend on it, and the computed examples use vectors on which every
    order gives the same value. *)
Definition dot1 (x y : list float) : float :=
  fold_left (fun acc p => acc + fst p * snd p) (combine x y) 0.

(** [np.linalg.norm(v)] of a 1-d array, and of one row under [axis=1]. *)
Definition norm (v : list float) : float := sqrt (dot1 v v).

(** [v / c] *)
Definition div_scalar (v : list float) (c : float) : list float :=
  map (fun x => x / c) v.

(** [np.dot(m, q)] for a 2-d [m] and a 1-d [q]. *)
Definition dot (m : list (list float)) (q : list float) : res (list float) :=
  if Nat.eqb (ncols m) (List.length q)
  then Ok (map (fun r => dot1 r q) m)
  else Raise ValueError.

(** The order NumPy sorts floats by: a NaN is larger than every number. *)
Definition npy_lt (a b : float) : bool :=
  (a <? b) || (negb (b =? b) && (a =? a)).

(** [np.argsort(v)] returns the indices of [v] in ascending order of
    their keys, NaN last. For the default [kind='quicksort'] NumPy leaves
    the order of equal keys open, and the builds differ in it (the scalar
    code runs an insertion sort on short arrays, the SIMD code a sorting
    network). [VectorStore.search] therefore takes the function as an
    argument [argsort], and the statements about it assume no more of it
    than [is_argsort] below says.

    [stable_argsort] is one such function, the one that keeps equal keys in
    index order ([kind='stable']), written as an insertion sort. One step:
    the index [vi] moves left past the indices whose key is strictly
    greater. [prefix_rev] is the sorted prefix read from its right end; the
    result is read the same way. *)
Fixpoint insert_index (v : list float) (vi : nat) (prefix_rev : list nat)
  : list nat :=
  match prefix_rev with
  | [] => [vi]
  | k :: rest =>
      if npy_lt (nth vi v 0) (nth k v 0)
      then k :: insert_index v vi rest
      else vi :: prefix_rev
  end.

(** The sorted indices read from the right end. *)
Definition stable_argsort_rev (v : list float) : list nat :=
  fold_left (fun acc vi => insert_index v vi acc) (seq 0 (List.length v)) [].

Definition stable_argsort (v : list float) : list nat :=
  rev (stable_argsort_rev v).

End Numpy.

Import Numpy.

(** ** The vector store ([app/services/vector_store.py]) *)

Module VectorStore.

(** Metadata values, as JSON holds them. *)
Inductive value : Type :=
| VInt (n : Z)
| VStr (s : str).

Definition dict : Type := list (str * value).

(** What a path of the persistence medium holds. *)
Inductive file : Type :=
| NpzFile (embeddings : ndarray) (documents : list str) (ids : list str)
| JsonFile (metadatas : list dict)
| Unreadable.

(** What the medium does with a write to a path: it takes it, it refuses
    it and leaves the path as it is (the file cannot be opened for
    writing), or it fails midway and leaves a file that cannot be read. *)
Inductive write_mode : Type :=
| Accepts
| Refuses
| Corrupts.

(** The persistence medium: what every path holds, and how it answers a
    write to a path. A medium [d] is applied to a path as [d path]. *)
Record Disk : Type := {
  contents :> str -> option file;
  on_write : str -> write_mode
}.

Definition str_eqb (a b : str) : bool :=
  if list_eq_dec N.eq_dec a b then true else false.

Definition put (d : Disk) (path : str) (c : option file) : Disk := {|
  contents := fun p => if str_eqb p path then c else d p;
  on_write := on_write d
|}.

(** Writing a whole file; a failure raises [OSError]. *)
Definition write (d : Disk) (path : str) (f : file) : res unit * Disk :=
  match on_write d path with
  | Accepts => (Ok tt, put d path (Some f))
  | Refuses => (Raise OSError, d)
  | Corrupts => (Raise OSError, put d path (Some Unreadable))
  end.

(** [os.remove(path)] *)
Definition remove (d : Disk) (path : str) : Disk := put d path None.

(** [os.path.join(a, b)] *)
Definition path_join (a b : str) : str :=
  if startswith [47%N] b then b
  else if negb (truthy a) || startswith [47%N] (rev a) then a ++ b
  else a ++ [47%N] ++ b.

Record t : Type := {
  collection_name : str;
  persist_directory : str;
  _documents : list str;
  _embeddings : option ndarray;
  _metadatas : list dict;
  _ids : list str
}.

Definition set_state (self : t) (documents : list str)
  (embeddings : option ndarray) (metadatas : list dict) (ids : list str) : t := {|
  collection_name := collection_name self;
  persist_directory := persist_directory self;
  _documents := documents;
  _embeddings := embeddings;
  _metadatas := metadatas;
  _ids := ids
|}.

Definition _get_storage_path (self : t) : str :=
  path_join (persist_directory self) (collection_name self ++ of_string ".npz").

Definition _get_metadata_path (self : t) : str :=
  path_join (persist_directory self)
    (collection_name self ++ of_string "_meta.json").

Definition _load (self : t) (disk : Disk) : t :=
  match disk (_get_storage_path self), disk (_get_metadata_path self) with
  | Some data, Some meta =>
      match data, meta with
      | NpzFile embeddings documents ids, JsonFile metadatas =>
          set_state self documents (Some embeddings) metadatas ids
      | _, _ => set_state self [] None [] []
      end
  | _, _ => self
  end.

(** [VectorStore.__init__], with the two names already resolved against
    the settings. *)
Definition init (collection_name persist_directory : str) (disk : Disk) : t :=
  _load {| collection_name := collection_name;
           persist_directory := persist_directory;
           _documents := [];
           _embeddings := None;
           _metadatas := [];
           _ids := [] |} disk.

(** [persist]. The [try] block writes the array file and then the
    metadata file; an exception of either write becomes a
    [VectorStoreError], and what was written before it stays written. The
    message of the error, which ends with the text of its cause, is cut
    down to its fixed part; a directory that cannot be created counts as
    a refused write of the array file. *)
Definition persist (self : t) (disk : Disk) : res unit * Disk :=
  if negb (truthy (_documents self)) then (Ok tt, disk)
  else
    match write disk (_get_storage_path self)
            (NpzFile (match _embeddings self with Some a => a | None => ArrNone end)
                     (_documents self) (_ids self)) with
    | (Raise _, disk) => (Raise (VectorStoreError "Failed to persist"), disk)
    | (Ok _, disk) =>
        match write disk (_get_metadata_path self) (JsonFile (_metadatas self)) with
        | (Raise _, disk) => (Raise (VectorStoreError "Failed to persist"), disk)
        | (Ok _, disk) => (Ok tt, disk)
        end
    end.

(** [ids = [str(uuid4()) for _ in documents]] when [ids] is [None];
    [uuid4 i] is the [i]-th identifier the call draws. *)
Definition ids_or (uuid4 : nat -> str) (documents : list str)
  (ids : option (list str)) : list str :=
  match ids with
  | Some ids => ids
  | None => map uuid4 (seq 0 (List.length documents))
  end.

(** [metadatas = [{} for _ in documents]] when [metadatas] is [None]. *)
Definition metadatas_or (documents : list str) (metadatas : option (list dict))
  : list dict :=
  match metadatas with
  | Some metadatas => metadatas
  | None => map (fun _ => []) documents
  end.

(** [add_documents]. An exception leaves the store as it was. *)
Definition add_documents (uuid4 : nat -> str) (self : t)
  (documents : list str) (embeddings : list (list float))
  (metadatas : option (list dict)) (ids : option (list str))
  : res (list str) * t :=
  if negb (truthy documents) then (Ok [], self)
  else
    let ids := ids_or uuid4 documents ids in
    let metadatas := metadatas_or documents metadatas in
    match array embeddings with
    | Raise e => (Raise e, self)
    | Ok new_embeddings =>
        let stacked :=
          match _embeddings self with
          | None => Ok new_embeddings
          | Some old => vstack old new_embeddings
          end in
        match stacked with
        | Raise e => (Raise e, self)
        | Ok all =>
            (Ok ids,
             set_state self (_documents self ++ documents) (Some all)
               (_metadatas self ++ metadatas) (_ids self ++ ids))
        end
    end.

Record hit : Type := {
  hit_id : str;
  hit_content : str;
  hit_metadata : dict;
  hit_score : float
}.

(** [self._embeddings / np.linalg.norm(self._embeddings, axis=1, keepdims=True)] *)
Definition doc_norms (embeddings : ndarray) : res (list (list float)) :=
  match embeddings with
  | ArrNone => Raise TypeError
  | Arr1 _ => Raise AxisError
  | Arr2 rows => Ok (map (fun r => div_scalar r (norm r)) rows)
  end.

(** The body of the result loop for one index. *)
Definition hit_at (self : t) (similarities : list float) (idx : nat) : res hit :=
  match nth_error (_ids self) idx, nth_error (_documents self) idx,
        nth_error (_metadatas self) idx with
  | Some i, Some d, Some m =>
      Ok {| hit_id := i; hit_content := d; hit_metadata := m;
            hit_score := nth idx similarities 0%float |}
  | _, _, _ => Raise IndexError
  end.

Fixpoint hits (self : t) (similarities : list float) (top_indices : list nat)
  : res (list hit) :=
  match top_indices with
  | [] => Ok []
  | idx :: rest =>
      bind (hit_at self similarities idx) (fun h =>
      bind (hits self similarities rest) (fun hs => Ok (h :: hs)))
  end.

Definition similarities (embeddings : ndarray) (query_embedding : list float)
  : res (list float) :=
  let query_norm := div_scalar query_embedding (norm query_embedding) in
  bind (doc_norms embeddings) (fun doc_norms => dot doc_norms query_norm).

(** [np.argsort(similarities)[::-1][:top_k]] *)
Definition top_indices (argsort : list float -> list nat)
  (similarities : list float) (top_k : Z) : list nat :=
  slice_to top_k (rev (argsort similarities)).

(** [search]; [argsort] is [np.argsort]. *)
Definition search (argsort : list float -> list nat) (self : t)
  (query_embedding : list float) (top_k : Z) : res (list hit) :=
  match _embeddings self with
  | None => Ok []
  | Some embeddings =>
      if len (_documents self) =? 0 then Ok []
      else
        bind (similarities embeddings query_embedding) (fun sims =>
        hits self sims (top_indices argsort sims top_k))
  end.

Definition delete_collection (self : t) (disk : Disk) : t * Disk :=
  let self' := set_state self [] None [] [] in
  (self', remove (remove disk (_get_storage_path self)) (_get_metadata_path self)).

Record stats : Type := {
  name : str;
  document_count : Z;
  stats_persist_directory : str
}.

Definition get_stats (self : t) : stats := {|
  name := collection_name self;
  document_count := len (_documents self);
  stats_persist_directory := persist_directory self
|}.

End VectorStore.

(** ** Chunk records ([TextProcessor.process_documents]) *)

Module Chunks.

Import VectorStore.

(** [d.get(k)] on a dictionary kept as the list of its items in insertion
    order. *)
Fixpoint dict_get (d : dict) (k : str) : option value :=
  match d with
  | [] => None
  | (k', v) :: d' => if str_eqb k' k then Some v else dict_get d' k
  end.

(** [d[k] = v]: a key that is present keeps its place and takes the new
    value, a new key goes to the end. *)
Fixpoint dict_set (d : dict) (k : str) (v : value) : dict :=
  match d with
  | [] => [(k, v)]
  | (k', v') :: d' =>
      if str_eqb k' k then (k', v) :: d' else (k', v') :: dict_set d' k v
  end.

(** A document as [process_documents] reads it: [doc.get("content", "")]
    and [doc.get("metadata", {})] allow for either key to be missing. *)
Record document : Type := {
  doc_content : option str;
  doc_metadata : option dict
}.

Record chunk : Type := {
  chunk_content : str;
  chunk_metadata : dict
}.

Definition DOC_INDEX : str := of_string "doc_index".
Definition CHUNK_INDEX : str := of_string "chunk_index".
Definition TOTAL_CHUNKS : str := of_string "total_chunks".

(** [{**metadata, "doc_index": ..., "chunk_index": ..., "total_chunks": ...}] *)
Definition chunk_metadata_of (metadata : dict) (doc_idx chunk_idx : nat)
  (total : Z) : dict :=
  dict_set
    (dict_set (dict_set metadata DOC_INDEX (VInt (Z.of_nat doc_idx)))
       CHUNK_INDEX (VInt (Z.of_nat chunk_idx)))
    TOTAL_CHUNKS (VInt total).

(** The inner loop over [enumerate(chunks)]; [chunk_idx] is the index of
    the head of [rest] and [total] is [len(chunks)]. *)
Fixpoint yield_chunks (metadata : dict) (doc_idx chunk_idx : nat) (total : Z)
  (rest : list str) : list chunk :=
  match rest with
  | [] => []
  | c :: rest' =>
      {| chunk_content := c;
         chunk_metadata := chunk_metadata_of metadata doc_idx chunk_idx total |}
        :: yield_chunks metadata doc_idx (S chunk_idx) total rest'
  end.

(** The outer loop over [enumerate(documents)], from index [doc_idx] on. *)
Fixpoint process_from (self : TextProcessor.t) (doc_idx : nat)
  (documents : list document) : res (list chunk) :=
  match documents with
  | [] => Ok []
  | doc :: rest =>
      let content := match doc_content doc with Some c => c | None => [] end in
      let metadata := match doc_metadata doc with Some m => m | None => [] end in
      bind (TextProcessor.split_text self content) (fun chunks =>
      bind (process_from self (S doc_idx) rest) (fun more =>
        Ok (yield_chunks metadata doc_idx 0 (len chunks) chunks ++ more)))
  end.

(** [list(process_documents(documents))] *)
Definition process_documents (self : TextProcessor.t) (documents : list document)
  : res (list chunk) :=
  process_from self 0 documents.

End Chunks.

(** ** Application errors and the embedding service
    ([app/core/exceptions.py], [app/services/embedding_service.py]) *)

(** What a method of the engine fails with: an exception of Python or
    NumPy that nothing caught, or one of the exceptions of the
    application. [RetrievalError] keeps the failure it wraps, where the
    code keeps its text. *)
Inductive failure : Type :=
| Uncaught (e : exn)
| AppException (message : string)
| LLMServiceError (message : string)
| RetrievalError (cause : failure).

Inductive outcome (A : Type) : Type :=
| Done (a : A)
| Failed (f : failure).

Arguments Done {A} a.
Arguments Failed {A} f.

Module EmbeddingService.

(** [self.model.encode(texts, ...)]: the rows of the array it returns, or
    [None] when loading the model or encoding raises. An array stands for
    the list [tolist()] makes of it. *)
Definition encoder : Type := list str -> option (list (list float)).

Definition embed_texts (encode : encoder) (texts : list str)
  : outcome (list (list float)) :=
  if negb (truthy texts) then Done []
  else
    match encode texts with
    | Some embeddings => Done embeddings
    | None => Failed (AppException "Failed to generate embeddings")
    end.

(** [self.embed_texts([text])[0]] *)
Definition embed_text (encode : encoder) (text : str) : outcome (list float) :=
  match embed_texts encode [text] with
  | Done [] => Failed (Uncaught IndexError)
  | Done (embedding :: _) => Done embedding
  | Failed f => Failed f
  end.

End EmbeddingService.

(** ** Context assembly ([app/services/rag_engine.py]) *)

Module RAGEngine.

Import VectorStore.

Definition no_context : str := of_string "No relevant context found.".

(** [f"[{i}] {doc['content']}"] *)
Definition context_part (i : nat) (doc : hit) : str :=
  of_string "[" ++ str_of_nat i ++ of_string "] " ++ hit_content doc.

(** The loop over [enumerate(documents, 1)]: the state is the next index
    and the parts appended so far. *)
Definition context_step (st : nat * list str) (doc : hit) : nat * list str :=
  (S (fst st), snd st ++ [context_part (fst st) doc]).

Definition _build_context (settings : Settings) (documents : list hit) : str :=
  if negb (truthy documents) then no_context
  else
    let context_parts := snd (fold_left context_step documents (1%nat, [])) in
    let context := join [NEWLINE; NEWLINE] context_parts in
    if len context >? max_context_length settings
    then slice_to (max_context_length settings) context ++ of_string "..."
    else context.

(** The enumerated list the specification describes: item [i], counted
    from 1, is ["[i] text"], and the items are separated by a blank line. *)
Definition enumerated (texts : list str) : str :=
  join [NEWLINE; NEWLINE]
    (map (fun p => of_string "[" ++ str_of_nat (fst p) ++ of_string "] " ++ snd p)
       (combine (seq 1 (List.length texts)) texts)).

(** The collaborators of an engine; the vector store and the medium it
    persists to are passed to each method and returned by it. [generate] is
    [LLMService.generate] with its prompt and optional system prompt. *)
Record t : Type := {
  settings : Settings;
  encode : EmbeddingService.encoder;
  generate : str -> option str -> outcome str;
  text_processor : TextProcessor.t
}.

Record ingest_result : Type := {
  ingested_count : Z;
  chunk_count : Z;
  ingest_time_ms : float
}.

(** [ingest_documents]. [start_time] and [end_time] are the two readings
    of [time.time()]. *)
Definition ingest_documents (uuid4 : nat -> str) (self : t)
  (vector_store : VectorStore.t) (disk : Disk)
  (documents : list Chunks.document) (start_time end_time : float)
  : outcome ingest_result * VectorStore.t * Disk :=
  match Chunks.process_documents (text_processor self) documents with
  | Raise e => (Failed (Uncaught e), vector_store, disk)
  | Ok chunks =>
      if negb (truthy chunks)
      then (Done {| ingested_count := 0; chunk_count := 0;
                    ingest_time_ms := 0%float |},
            vector_store, disk)
      else
        let texts := map Chunks.chunk_content chunks in
        let metadatas := map Chunks.chunk_metadata chunks in
        match EmbeddingService.embed_texts (encode self) texts with
        | Failed f => (Failed f, vector_store, disk)
        | Done embeddings =>
            match add_documents uuid4 vector_store texts embeddings
                    (Some metadatas) None with
            | (Raise e, vector_store) => (Failed (Uncaught e), vector_store, disk)
            | (Ok _, vector_store) =>
                match persist vector_store disk with
                | (Raise e, disk) => (Failed (Uncaught e), vector_store, disk)
                | (Ok _, disk) =>
                    (Done {| ingested_count := len documents;
                             chunk_count := len chunks;
                             ingest_time_ms :=
                               ((end_time - start_time) * 1000)%float |},
                     vector_store, disk)
                end
            end
        end
  end.

(** [retrieve]: every exception of the [try] block becomes a
    [RetrievalError]. *)
Definition retrieve (argsort : list float -> list nat) (self : t)
  (vector_store : VectorStore.t) (query : str) (top_k : option Z)
  : outcome (list hit) :=
  let top_k := int_or top_k (retrieval_top_k (settings self)) in
  match EmbeddingService.embed_text (encode self) query with
  | Failed f => Failed (RetrievalError f)
  | Done query_embedding =>
      match search argsort vector_store query_embedding top_k with
      | Ok results => Done results
      | Raise e => Failed (RetrievalError (Uncaught e))
      end
  end.

(** [RAG_SYSTEM_PROMPT.format(context=context)] *)
Definition RAG_SYSTEM_PROMPT (context : str) : str :=
  of_string "You are a helpful AI assistant. Answer the user's question based on the provided context.

Instructions:
- Use ONLY the information from the context to answer
- If the context doesn't contain relevant information, say so
- Be concise and direct in your response
- Do not make up information

Context:
" ++ context ++ [NEWLINE].

Record query_result : Type := {
  answer : str;
  sources : list hit;
  query_time_ms : float
}.

Definition query (argsort : list float -> list nat) (self : t)
  (vector_store : VectorStore.t) (question : str) (top_k : option Z)
  (start_time end_time : float) : outcome query_result :=
  match retrieve argsort self vector_store question top_k with
  | Failed f => Failed f
  | Done retrieved_docs =>
      let context := _build_context (settings self) retrieved_docs in
      let system_prompt := RAG_SYSTEM_PROMPT context in
      match generate self question (Some system_prompt) with
      | Failed f => Failed f
      | Done response =>
          Done {| answer := response;
                  sources := retrieved_docs;
                  query_time_ms := ((end_time - start_time) * 1000)%float |}
      end
  end.

Definition query_without_rag (self : t) (question : str)
  (start_time end_time : float) : outcome query_result :=
  match generate self question None with
  | Failed f => Failed f
  | Done response =>
      Done {| answer := response;
              sources := [];
              query_time_ms := ((end_time - start_time) * 1000)%float |}
  end.

End RAGEngine.

(** ** The per-user collection ([app/api/v1/routes.py]) *)

Module Routes.

(** [f"documents_user_{user.id}"], the collection name
    [get_rag_engine_for_user] gives the engine of a user. *)
Definition user_collection_name (user_id : str) : str :=
  of_string "documents_user_" ++ user_id.

End Routes.

(** ** Inputs used in the examples *)

Module Examples.

(** [TextProcessor()] and [TextProcessor(chunk_size=10, chunk_overlap=5)] *)
Definition default_processor : TextProcessor.t :=
  TextProcessor.init default_settings None None.

Definition small_processor : TextProcessor.t :=
  TextProcessor.init default_settings (Some 10) (Some 5).

Definition two_words : str := of_string "aaaaaaaaaa bbbbbbbbbb".

(** Six words; the first three fill a chunk of ten characters. *)
Definition six_words : str := of_string "aa bb cc dd ee ff".

(** ["Python is great. " * 50] *)
Definition python_is_great : str :=
  List.concat (repeat (of_string "Python is great. ") 50).

(** A hit with the given text, and settings with a small context limit. *)
Definition hit_of (content : str) : VectorStore.hit := {|
  VectorStore.hit_id := of_string "id";
  VectorStore.hit_content := content;
  VectorStore.hit_metadata := [];
  VectorStore.hit_score := 1%float
|}.

(** A medium that holds nothing, the store opened on it, and that store
    after [add_documents(["a", "b"], [[1, 0], [0, 1]])], respectively after
    [add_documents(["a", "b"], [[1, 0], [1, 0]])]. *)
(** A medium that holds nothing and takes every write. *)
Definition no_disk : VectorStore.Disk := {|
  VectorStore.contents := fun _ => None;
  VectorStore.on_write := fun _ => VectorStore.Accepts
|}.

(** A medium that holds nothing and takes every write but those to a
    metadata file, which it refuses. *)
Definition no_json_disk : VectorStore.Disk := {|
  VectorStore.contents := fun _ => None;
  VectorStore.on_write := fun p =>
    if startswith (rev (of_string ".json")) (rev p)
    then VectorStore.Refuses else VectorStore.Accepts
|}.

Definition uuid4 (i : nat) : str := of_string "id-" ++ str_of_nat i.

Definition fresh_store : VectorStore.t :=
  VectorStore.init (of_string "documents") (of_string "./data/vectorstore") no_disk.

Definition ab_store : VectorStore.t :=
  snd (VectorStore.add_documents uuid4 fresh_store
         [of_string "a"; of_string "b"] [[1; 0]; [0; 1]]%float None None).

Definition twin_store : VectorStore.t :=
  snd (VectorStore.add_documents uuid4 fresh_store
         [of_string "a"; of_string "b"] [[1; 0]; [1; 0]]%float None None).

(** The store after [add_documents(["z", "a"], [[0, 0], [1, 0]])]: its
    first vector has magnitude zero. *)
Definition zero_store : VectorStore.t :=
  snd (VectorStore.add_documents uuid4 fresh_store
         [of_string "z"; of_string "a"] [[0; 0]; [1; 0]]%float None None).

(** The store after [add_documents(["a"], [[1, 0], [0, 1]])]: two vectors
    for one document. *)
Definition uneven_store : VectorStore.t :=
  snd (VectorStore.add_documents uuid4 fresh_store
         [of_string "a"] [[1; 0]; [0; 1]]%float None None).

(** The store of user ["u1"] after one document was added. *)
Definition user_store : VectorStore.t :=
  snd (VectorStore.add_documents uuid4
         (VectorStore.init (Routes.user_collection_name (of_string "u1"))
            (of_string "./data/vectorstore") no_disk)
         [of_string "a"] [[1; 0]]%float None None).

(** Two documents, the second of whitespace only. *)
Definition two_documents : list Chunks.document :=
  [ {| Chunks.doc_content := Some (of_string "hello  world");
       Chunks.doc_metadata := Some [(of_string "source", VectorStore.VStr (of_string "a.txt"))] |};
    {| Chunks.doc_content := Some [SPACE; NEWLINE];
       Chunks.doc_metadata := None |} ].

(** An encoder that gives every text the vector [[1, 0]], a generator
    that answers with its prompt, and the engine made of them. *)
Definition unit_encoder : EmbeddingService.encoder :=
  fun texts => Some (map (fun _ => [1; 0]%float) texts).

Definition echo_engine : RAGEngine.t := {|
  RAGEngine.settings := default_settings;
  RAGEngine.encode := unit_encoder;
  RAGEngine.generate := fun prompt _ => Done prompt;
  RAGEngine.text_processor := default_processor
|}.

Definition small_context : Settings := {|
  settings_chunk_size := 500;
  settings_chunk_overlap := 50;
  retrieval_top_k := 3;
  max_context_length := 12
|}.

End Examples.

(** ** Predicates used in the statements *)

Section ChunkerPredicates.

Import TextProcessor.

(** The state of the loop of [_merge_chunks] holds no text longer than
    [chunk_size]. *)
Definition merge_inv (self : t) (st : list str * str) : Prop :=
  Forall (fun p => len p <= chunk_size self) (fst st)
  /\ len (snd st) <= chunk_size self.

(** [s] is not empty and its first, respectively last, character is not
    whitespace; [trimmed] strings are those [strip] leaves alone. *)
Definition begins_nonspace (s : str) : Prop :=
  exists c r, s = c :: r /\ isspace c = false.

Definition ends_nonspace (s : str) : Prop :=
  exists r c, s = r ++ [c] /\ isspace c = false.

Definition trimmed (s : str) : Prop := begins_nonspace s /\ ends_nonspace s.

(** The state of the loop of [_merge_chunks] holds trimmed texts, but for a
    current chunk that is still empty. *)
Definition merge_trim_inv (st : list str * str) : Prop :=
  Forall trimmed (fst st) /\ (snd st = [] \/ trimmed (snd st)).

(** The only whitespace in [s] is the space character. *)
Definition plain (s : str) : Prop :=
  Forall (fun c => isspace c = true -> c = SPACE) s.

(** [o] is a suffix of [prev] that begins at a word boundary: at the start
    of [prev] or right after a space. *)
Definition word_aligned_suffix (o prev : str) : Prop :=
  exists pre, prev = pre ++ o /\ (pre = [] \/ exists pre', pre = pre' ++ [SPACE]).

(** [s] holds no whitespace but single spaces between other characters;
    [prev_space] tells that the character before [s] is a space. *)
Fixpoint collapsed (prev_space : bool) (s : str) : bool :=
  match s with
  | [] => true
  | c :: s' =>
      if isspace c
      then (c =? SPACE)%N && negb prev_space && collapsed true s'
      else collapsed false s'
  end.

(** The chunks a state [(merged, current_chunk)] of the loop of
    [_merge_chunks] stands for. *)
Definition closed (st : list str * str) : list str :=
  fst st ++ (if truthy (snd st) then [snd st] else []).

End ChunkerPredicates.

Section FloatPredicates.

Local Open Scope float_scope.

(** [npy_lt] on the specification of the binary64 floats. *)
Definition sf_lt (x y : spec_float) : bool :=
  SFltb x y || (negb (SFeqb y y) && SFeqb x x).

(** A key whose lexicographic order is that of [sf_lt]: the class of the
    float (from minus infinity up to NaN), then exponent and mantissa, both
    negated for the negative numbers. *)
Definition sf_key (x : spec_float) : Z * Z * Z :=
  match x with
  | S754_nan => (4, 0, 0)
  | S754_infinity true => (-3, 0, 0)
  | S754_infinity false => (3, 0, 0)
  | S754_zero _ => (0, 0, 0)
  | S754_finite true m e => (-2, - e, Z.neg m)
  | S754_finite false m e => (2, e, Z.pos m)
  end%Z.

(** The lexicographic order of the keys. *)
Definition lex_lt (a b : Z * Z * Z) : Prop :=
  let '(a1, a2, a3) := a in
  let '(b1, b2, b3) := b in
  (a1 < b1 \/ a1 = b1 /\ (a2 < b2 \/ a2 = b2 /\ a3 < b3))%Z.

(** [desc v i j]: index [i] may stand before index [j] in the reverse of
    [stable_argsort v]: the key of [i] is not smaller, and when neither key
    is smaller [i] is the larger index. *)
Definition desc (v : list float) (i j : nat) : Prop :=
  npy_lt (nth i v 0) (nth j v 0) = false
  /\ (npy_lt (nth j v 0) (nth i v 0) = false -> (j < i)%nat).

(** What NumPy says of [np.argsort(v)]: it holds every index of [v] once,
    and no key is smaller than an earlier one in the order of [npy_lt],
    which puts NaN last. Nothing is said of the order of equal keys. *)
Definition is_argsort (argsort : list float -> list nat) : Prop :=
  forall v,
    Permutation (argsort v) (seq 0 (List.length v))
    /\ StronglySorted (fun i j => npy_lt (nth j v 0) (nth i v 0) = false)
         (argsort v).

(** An [argsort] that leaves equal keys in index order, as [kind='stable']
    does. *)
Definition keeps_index_order (argsort : list float -> list nat) : Prop :=
  forall v,
    StronglySorted
      (fun i j => npy_lt (nth i v 0) (nth j v 0) = false -> (i < j)%nat)
      (argsort v).

(** [x] is not NaN. *)
Definition is_number (x : float) : Prop := (x =? x) = true.

End FloatPredicates.

Section StorePredicates.

Import VectorStore.

Local Open Scope nat_scope.

(** Documents never come without embeddings: the invariant holds when a
    store is opened, and [add_documents] and [delete_collection] keep it. *)
Definition inv_embeddings (self : t) : Prop :=
  _documents self <> [] -> _embeddings self <> None.

(** The stored record at position [idx] with its score. *)
Definition hit_of_index (self : t) (scores : list float) (idx : nat) : hit := {|
  hit_id := nth idx (_ids self) [];
  hit_content := nth idx (_documents self) [];
  hit_metadata := nth idx (_metadatas self) [];
  hit_score := nth idx scores 0%float
|}.

(** A non-empty collection: the four parallel fields hold one entry per
    record and the vectors have one length. *)
Definition consistent (self : t) (rows : list (list float)) : Prop :=
  _embeddings self = Some (Arr2 rows)
  /\ rows <> []
  /\ rectangular rows = true
  /\ List.length (_documents self) = List.length rows
  /\ List.length (_metadatas self) = List.length rows
  /\ List.length (_ids self) = List.length rows.

(** The cosine similarity of [q] with every row. *)
Definition scores (rows : list (list float)) (q : list float) : list float :=
  map (fun r => dot1 (div_scalar r (norm r)) (div_scalar q (norm q))) rows.

(** The order of the returned scores: no score is smaller than a later
    one, and of two equal scores the record added later comes first. *)
Definition ranked (s : list float) (i j : nat) : Prop :=
  (nth i s 0 <? nth j s 0)%float = false
  /\ ((nth i s 0 =? nth j s 0)%float = true -> j < i).


End StorePredicates.

Section ChunkPredicates.

Import VectorStore Chunks.

(** The content and the metadata [process_documents] reads off a document,
    and the chunks [split_text] gives for it. *)
Definition content_of (doc : document) : str :=
  match doc_content doc with Some c => c | None => [] end.

Definition metadata_of (doc : document) : dict :=
  match doc_metadata doc with Some m => m | None => [] end.

Definition chunks_of (self : TextProcessor.t) (doc : document) : list str :=
  match TextProcessor.split_text self (content_of doc) with
  | Ok chunks => chunks
  | Raise _ => []
  end.

(** [ch] is chunk [j] of document [i] of [documents], tagged as such. *)
Definition tagged (self : TextProcessor.t) (documents : list document)
  (ch : chunk) : Prop :=
  exists i j doc,
    nth_error documents i = Some doc
    /\ nth_error (chunks_of self doc) j = Some (chunk_content ch)
    /\ chunk_metadata ch
       = chunk_metadata_of (metadata_of doc) i j (len (chunks_of self doc)).

End ChunkPredicates.

(** * Properties *)

(** ** Strings *)

Section StringFacts.

Lemma len_nonneg {A : Type} (s : list A) : 0 <= len s.
Proof. unfold len. lia. Qed.

Lemma len_app {A : Type} (a b : list A) : len (a ++ b) = len a + len b.
Proof. unfold len. rewrite length_app. lia. Qed.

Lemma len_nil_iff {A : Type} (s : list A) : len s = 0 <-> s = [].
Proof.
  unfold len. destruct s; simpl; split; intros H; try reflexivity; try discriminate; lia.
Qed.

Lemma truthy_false {A : Type} (s : list A) : truthy s = false <-> s = [].
Proof. destruct s; simpl; split; congruence. Qed.

Lemma isspace_SPACE : isspace SPACE = true.
Proof. reflexivity. Qed.

Lemma isspace_NEWLINE : isspace NEWLINE = true.
Proof. reflexivity. Qed.

(** [lstrip] removes a prefix of whitespace and nothing else. *)
Lemma lstrip_split (s : str) :
  exists p, s = p ++ lstrip s /\ forallb isspace p = true.
Proof.
  induction s as [|c s IH]; simpl.
  - exists []. auto.
  - destruct (isspace c) eqn:Ec.
    + destruct IH as [p [Hs Hp]]. exists (c :: p). simpl.
      rewrite Ec, Hp. split; [congruence | reflexivity].
    + exists []. auto.
Qed.

Lemma lstrip_length (s : str) : (List.length (lstrip s) <= List.length s)%nat.
Proof.
  destruct (lstrip_split s) as [p [Hs _]].
  rewrite Hs at 2. rewrite length_app. lia.
Qed.

Lemma rstrip_split (s : str) :
  exists p, s = rstrip s ++ p /\ forallb isspace p = true.
Proof.
  unfold rstrip. destruct (lstrip_split (rev s)) as [p [Hs Hp]].
  exists (rev p). split.
  - rewrite <- rev_app_distr, <- Hs, rev_involutive. reflexivity.
  - rewrite forallb_forall in *. intros x Hx. apply Hp, in_rev, Hx.
Qed.

Lemma rstrip_length (s : str) : (List.length (rstrip s) <= List.length s)%nat.
Proof.
  destruct (rstrip_split s) as [p [Hs _]].
  rewrite Hs at 2. rewrite length_app. lia.
Qed.

Lemma strip_len_le (s : str) : len (strip s) <= len s.
Proof.
  unfold strip, len.
  pose proof (rstrip_length (lstrip s)). pose proof (lstrip_length s). lia.
Qed.

Lemma lstrip_all_space (s : str) : forallb isspace s = true -> lstrip s = [].
Proof.
  induction s as [|c s IH]; simpl; [reflexivity|].
  intros H. apply andb_true_iff in H. destruct H as [Hc Hs].
  rewrite Hc. auto.
Qed.

Lemma strip_all_space (s : str) : forallb isspace s = true -> strip s = [].
Proof.
  intros H. unfold strip. rewrite (lstrip_all_space s H). reflexivity.
Qed.

(** A string that begins with a character that is not whitespace is left
    alone by [lstrip]. *)
Lemma lstrip_id (c : char) (s : str) : isspace c = false -> lstrip (c :: s) = c :: s.
Proof. intros H. simpl. rewrite H. reflexivity. Qed.

Lemma sub_whitespace_all_space (b : bool) (s : str) :
  forallb isspace s = true -> forallb isspace (sub_whitespace b s) = true.
Proof.
  revert b. induction s as [|c s IH]; intros b H; simpl; [reflexivity|].
  simpl in H. apply andb_true_iff in H. destruct H as [Hc Hs].
  rewrite Hc. destruct b; simpl; auto.
Qed.

(** After the whitespace runs are collapsed no newline is left. *)
Lemma sub_whitespace_no_newline (b : bool) (s : str) :
  Forall (fun c => c <> NEWLINE) (sub_whitespace b s).
Proof.
  revert b. induction s as [|c s IH]; intros b; simpl; [constructor|].
  destruct (isspace c) eqn:Ec.
  - destruct b; [apply IH|]. constructor; [discriminate | apply IH].
  - constructor; [|apply IH]. intros ->. rewrite isspace_NEWLINE in Ec. discriminate.
Qed.

Lemma sub_newlines_id (s : str) :
  Forall (fun c => c <> NEWLINE) s -> sub_newlines 0 s = s.
Proof.
  induction 1 as [|c s Hc _ IH]; simpl; [reflexivity|].
  apply N.eqb_neq in Hc. rewrite Hc. simpl. rewrite IH. reflexivity.
Qed.

End StringFacts.

(** ** The chunker *)

Section Chunker.

Import TextProcessor.

(** The newline rule of [clean_text] never fires: it runs on text whose
    newlines are already spaces. *)
Lemma clean_text_eq (text : str) :
  clean_text text = strip (sub_whitespace false text).
Proof.
  unfold clean_text. rewrite sub_newlines_id; [reflexivity|].
  apply sub_whitespace_no_newline.
Qed.

Lemma clean_text_all_space (text : str) :
  forallb isspace text = true -> clean_text text = [].
Proof.
  intros H. rewrite clean_text_eq. apply strip_all_space.
  apply sub_whitespace_all_space, H.
Qed.

(** *** Short and empty inputs *)

Lemma split_nil (sep : str) : split sep [] = [[]].
Proof. reflexivity. Qed.

Lemma recursive_split_nil (self : t) (seps : list str) :
  Forall (fun p => p = []) (_recursive_split self [] seps).
Proof.
  induction seps as [|sep seps IH]; simpl.
  - repeat constructor.
  - destruct sep as [|c sep]; simpl; [constructor|].
    destruct (len (@nil char) <=? chunk_size self).
    + repeat constructor.
    + rewrite app_nil_r. exact IH.
Qed.

Lemma merge_loop_all_empty (self : t) (chunks : list str) (st : list str * str) :
  Forall (fun p => p = []) chunks ->
  fold_left (merge_step self) chunks st = st.
Proof.
  intros H. revert st. induction H as [|c chunks Hc _ IH]; intros st; simpl.
  - reflexivity.
  - subst c. destruct st as [merged current]. simpl. apply IH.
Qed.

Lemma merge_chunks_all_empty (self : t) (chunks : list str) :
  Forall (fun p => p = []) chunks -> _merge_chunks self chunks = Ok [].
Proof.
  intros H. unfold _merge_chunks, merge_only.
  rewrite (merge_loop_all_empty self chunks _ H). simpl.
  destruct (truthy chunks); simpl; [|reflexivity].
  rewrite andb_false_r. reflexivity.
Qed.

(** *** Sizes *)

Lemma recursive_split_bound (self : t) (seps : list str) :
  1 <= chunk_size self -> In [] seps ->
  forall text,
    Forall (fun p => len p <= chunk_size self) (_recursive_split self text seps).
Proof.
  intros Hcs. induction seps as [|sep seps IH]; intros Hin text; [destruct Hin|].
  simpl. destruct sep as [|c sep].
  - apply Forall_forall. intros p Hp. apply in_map_iff in Hp.
    destruct Hp as [x [<- _]]. unfold len. simpl. lia.
  - destruct Hin as [Hin|Hin]; [discriminate|].
    apply Forall_forall. intros p Hp. apply in_flat_map in Hp.
    destruct Hp as [piece [_ Hp]].
    destruct (len piece <=? chunk_size self) eqn:E.
    + destruct Hp as [<-|[]]. apply Z.leb_le, E.
    + pose proof (IH Hin piece) as HF. rewrite Forall_forall in HF. auto.
Qed.

Lemma merge_step_inv (self : t) (st : list str * str) (chunk : str) :
  len chunk <= chunk_size self ->
  merge_inv self st -> merge_inv self (merge_step self st chunk).
Proof.
  intros Hc [Hm Hcur]. destruct st as [merged current]. simpl in *.
  unfold merge_step.
  destruct (truthy (strip chunk)); simpl; [|split; assumption].
  destruct (len current + len (strip chunk) + 1 <=? chunk_size self) eqn:E.
  - split; [assumption|]. simpl. apply Z.leb_le in E.
    pose proof (strip_len_le (current ++ SPACE :: strip chunk)) as Hs.
    rewrite len_app in Hs. unfold len in *. simpl in *. lia.
  - split; simpl.
    + destruct (truthy current); [|assumption].
      apply Forall_app. split; [assumption|]. repeat constructor. assumption.
    + pose proof (strip_len_le chunk). lia.
Qed.

Lemma merge_loop_inv (self : t) (chunks : list str) (st : list str * str) :
  Forall (fun p => len p <= chunk_size self) chunks ->
  merge_inv self st -> merge_inv self (fold_left (merge_step self) chunks st).
Proof.
  intros H. revert st. induction H as [|c chunks Hc _ IH]; intros st Hst; simpl.
  - assumption.
  - apply IH, merge_step_inv; assumption.
Qed.

Lemma merge_only_bound (self : t) (chunks : list str) :
  0 <= chunk_size self ->
  Forall (fun p => len p <= chunk_size self) chunks ->
  Forall (fun p => len p <= chunk_size self) (merge_only self chunks).
Proof.
  intros Hcs H. unfold merge_only.
  assert (Hinv : merge_inv self (fold_left (merge_step self) chunks ([], []))).
  { apply merge_loop_inv; [assumption|]. split; simpl; [constructor | assumption]. }
  destruct (fold_left (merge_step self) chunks ([], [])) as [merged current].
  destruct Hinv as [Hm Hcur]. simpl in *.
  destruct (truthy current); [|assumption].
  apply Forall_app. split; [assumption|]. repeat constructor. assumption.
Qed.

Lemma slice_from_len_le {A : Type} (start : Z) (s : list A) :
  len (slice_from start s) <= len s.
Proof.
  unfold slice_from, len. destruct (start <? 0); rewrite length_skipn; lia.
Qed.

Lemma slice_from_tail_len {A : Type} (k : Z) (s : list A) :
  0 < k -> len (slice_from (- k) s) <= k.
Proof.
  intros Hk. unfold slice_from, len.
  destruct (- k <? 0) eqn:E; [|apply Z.ltb_ge in E; lia].
  rewrite length_skipn. lia.
Qed.

Lemma overlap_text_len (self : t) (prev : str) :
  0 < chunk_overlap self -> len (overlap_text self prev) <= chunk_overlap self.
Proof.
  intros Hk. unfold overlap_text.
  pose proof (slice_from_tail_len (chunk_overlap self) prev Hk) as Ht.
  set (tail := slice_from (- chunk_overlap self) prev) in *.
  destruct (negb (startswith [SPACE] tail)); [|assumption].
  destruct (negb (find SPACE tail =? -1)); [|assumption].
  pose proof (slice_from_len_le (find SPACE tail + 1) tail). lia.
Qed.

Lemma overlapped_len (self : t) (prev cur : str) :
  0 < chunk_overlap self ->
  len (overlapped self prev cur) <= chunk_overlap self + 1 + len cur.
Proof.
  intros Hk. unfold overlapped.
  pose proof (strip_len_le (overlap_text self prev ++ [SPACE] ++ cur)) as Hs.
  rewrite !len_app in Hs. pose proof (overlap_text_len self prev Hk).
  change (len [SPACE]) with 1 in Hs. lia.
Qed.

Lemma overlap_loop_bound (self : t) (b : Z) (rest : list str) (prev : str) :
  0 < chunk_overlap self ->
  Forall (fun p => len p <= b) rest ->
  Forall (fun p => len p <= b + chunk_overlap self + 1) (overlap_loop self prev rest).
Proof.
  intros Hk H. revert prev. induction H as [|c rest Hc _ IH]; intros prev; simpl.
  - constructor.
  - constructor; [|apply IH].
    pose proof (overlapped_len self prev c Hk). lia.
Qed.

(** *** The overlap text *)

Lemma find_from_spec (c : char) (s : str) (i : Z) :
  (find_from c s i = -1 /\ ~ In c s)
  \/ (exists w r, s = w ++ c :: r /\ ~ In c w /\ find_from c s i = i + len w).
Proof.
  revert i. induction s as [|d s IH]; intros i; simpl.
  - left. auto.
  - destruct (d =? c)%N eqn:E.
    + apply N.eqb_eq in E. subst d. right. exists [], s.
      repeat split; auto. unfold len. simpl. lia.
    + apply N.eqb_neq in E. destruct (IH (i + 1)) as [[H1 H2]|[w [r [H1 [H2 H3]]]]].
      * left. split; auto. intros [H|H]; auto.
      * right. exists (d :: w), r. subst s. repeat split; auto.
        -- intros [H|H]; auto.
        -- rewrite H3. unfold len. simpl List.length. lia.
Qed.

Lemma find_from_lower (c : char) (s : str) (i : Z) :
  find_from c s i = -1 \/ i <= find_from c s i.
Proof.
  destruct (find_from_spec c s i) as [[H _]|[w [r [_ [_ H]]]]].
  - left. exact H.
  - right. rewrite H. pose proof (len_nonneg w). lia.
Qed.

Lemma slice_from_app {A : Type} (w r : list A) :
  slice_from (len w) (w ++ r) = r.
Proof.
  unfold slice_from. pose proof (len_nonneg w) as Hw.
  destruct (len w <? 0) eqn:E; [apply Z.ltb_lt in E; lia|].
  unfold len. rewrite Nat2Z.id. rewrite skipn_app, skipn_all, Nat.sub_diag.
  reflexivity.
Qed.

Lemma startswith_space (s : str) :
  startswith [SPACE] s = true <-> exists r, s = SPACE :: r.
Proof.
  destruct s as [|c s]; cbn [startswith].
  - split; [discriminate | intros [r H]; discriminate].
  - rewrite andb_true_r. split.
    + intros H. apply N.eqb_eq in H. subst c. exists s. reflexivity.
    + intros [r H]. inversion H. reflexivity.
Qed.

(** The tail [prev_chunk[-chunk_overlap:]] for a positive [chunk_overlap]:
    the last [chunk_overlap] characters, or all of a shorter chunk. *)
Lemma tail_spec {A : Type} (k : Z) (prev : list A) :
  0 < k ->
  exists pre, prev = pre ++ slice_from (- k) prev
              /\ len (slice_from (- k) prev) = Z.min k (len prev).
Proof.
  intros Hk. unfold slice_from.
  destruct (- k <? 0) eqn:E; [|apply Z.ltb_ge in E; lia].
  exists (firstn (Z.to_nat (Z.max 0 (len prev + - k))) prev). split.
  - symmetry. apply firstn_skipn.
  - unfold len. rewrite length_skipn. lia.
Qed.

(** What [_add_overlap] carries over from the previous chunk: the tail as
    it is when it begins with a space or holds none, and otherwise the
    tail without its first word and the space after it. *)
Lemma overlap_text_spec (self : t) (prev : str) :
  let tail := slice_from (- chunk_overlap self) prev in
  (overlap_text self prev = tail
   /\ ((exists r, tail = SPACE :: r) \/ ~ In SPACE tail))
  \/ (exists w, tail = w ++ SPACE :: overlap_text self prev
                /\ w <> [] /\ ~ In SPACE w).
Proof.
  intros tail. unfold overlap_text. fold tail.
  destruct (startswith [SPACE] tail) eqn:Es; simpl.
  - left. split; [reflexivity|]. left. apply startswith_space, Es.
  - unfold find.
    destruct (find_from_spec SPACE tail 0) as [[H1 H2]|[w [r [H1 [H2 H3]]]]].
    + rewrite H1. simpl. left. split; [reflexivity|]. right. exact H2.
    + rewrite H3. pose proof (len_nonneg w) as Hw.
      destruct (0 + len w =? -1) eqn:E; [apply Z.eqb_eq in E; lia|].
      cbn [negb]. right. exists w.
      assert (Hr : slice_from (0 + len w + 1) tail = r).
      { rewrite H1.
        replace (0 + len w + 1) with (len (w ++ [SPACE]))
          by (rewrite len_app; unfold len; simpl; lia).
        replace (w ++ SPACE :: r) with ((w ++ [SPACE]) ++ r)
          by (rewrite <- app_assoc; reflexivity).
        apply slice_from_app. }
      rewrite Hr. repeat split; auto.
      intros ->. simpl in H1.
      assert (Hs : startswith [SPACE] tail = true)
        by (apply startswith_space; eauto).
      congruence.
Qed.

(** *** Chunks begin and end with a character that is not whitespace *)

Lemma lstrip_begins (s : str) : lstrip s = [] \/ begins_nonspace (lstrip s).
Proof.
  induction s as [|c s IH]; simpl; [left; reflexivity|].
  destruct (isspace c) eqn:E; [exact IH|].
  right. exists c, s. auto.
Qed.

Lemma begins_rev (s : str) : begins_nonspace (rev s) <-> ends_nonspace s.
Proof.
  split.
  - intros [c [r [H Hc]]]. exists (rev r), c. split; [|exact Hc].
    rewrite <- (rev_involutive s), H. reflexivity.
  - intros [r [c [H Hc]]]. exists c, (rev r). split; [|exact Hc].
    rewrite H, rev_app_distr. reflexivity.
Qed.

Lemma rstrip_ends (s : str) : rstrip s = [] \/ ends_nonspace (rstrip s).
Proof.
  unfold rstrip. destruct (lstrip_begins (rev s)) as [H|H].
  - left. rewrite H. reflexivity.
  - right. apply begins_rev. rewrite rev_involutive. exact H.
Qed.

Lemma all_space_not_begins (s : str) :
  forallb isspace s = true -> begins_nonspace s -> False.
Proof.
  intros H [c [r [-> Hc]]]. simpl in H. rewrite Hc in H. discriminate.
Qed.

Lemma all_space_not_ends (s : str) :
  forallb isspace s = true -> ends_nonspace s -> False.
Proof.
  intros H [r [c [-> Hc]]]. rewrite forallb_app in H. simpl in H.
  rewrite Hc in H. rewrite andb_false_r in H. discriminate.
Qed.

Lemma rstrip_keeps_begin (s : str) :
  begins_nonspace s -> begins_nonspace (rstrip s).
Proof.
  intros Hb. destruct (rstrip_split s) as [p [Hs Hp]].
  destruct (rstrip s) as [|c r] eqn:E.
  - simpl in Hs. subst p. exfalso. eapply all_space_not_begins; eauto.
  - destruct Hb as [c' [r' [Hs' Hc']]]. rewrite Hs' in Hs. simpl in Hs.
    inversion Hs. subst c'. exists c, r. auto.
Qed.

Lemma strip_trimmed (s : str) : strip s = [] \/ trimmed (strip s).
Proof.
  unfold strip. destruct (lstrip_begins s) as [H|H].
  - left. rewrite H. reflexivity.
  - right. split; [apply rstrip_keeps_begin, H|].
    destruct (rstrip_ends (lstrip s)) as [E|E]; [|exact E].
    pose proof (rstrip_keeps_begin _ H) as [c [r [Hc _]]]. congruence.
Qed.

Lemma strip_nil_all_space (s : str) : strip s = [] -> forallb isspace s = true.
Proof.
  unfold strip. intros H.
  destruct (lstrip_split s) as [p [Hs Hp]].
  destruct (rstrip_split (lstrip s)) as [q [Hl Hq]].
  rewrite H in Hl. simpl in Hl. rewrite Hs, Hl, forallb_app, Hp, Hq. reflexivity.
Qed.

Lemma lstrip_app (o z : str) : lstrip o <> [] -> lstrip (o ++ z) = lstrip o ++ z.
Proof.
  induction o as [|c o IH]; simpl; [congruence|].
  destruct (isspace c); [exact IH | reflexivity].
Qed.

Lemma rstrip_ends_id (s : str) : ends_nonspace s -> rstrip s = s.
Proof.
  intros H. apply begins_rev in H. destruct H as [c [r [H Hc]]].
  unfold rstrip. rewrite H, (lstrip_id c r Hc), <- H. apply rev_involutive.
Qed.

Lemma ends_nonspace_app (a b : str) : ends_nonspace b -> ends_nonspace (a ++ b).
Proof.
  intros [r [c [-> Hc]]]. exists (a ++ r), c. rewrite app_assoc. auto.
Qed.

Lemma ends_nonspace_suffix (a b : str) :
  ends_nonspace (a ++ b) -> b <> [] -> ends_nonspace b.
Proof.
  intros [r [c [H Hc]]] Hb.
  destruct (exists_last Hb) as [b' [c' Hb']]. subst b.
  rewrite app_assoc in H. apply app_inj_tail in H. destruct H as [_ ->].
  exists b', c. auto.
Qed.

Lemma ends_nonspace_lstrip (o : str) : ends_nonspace o -> lstrip o <> [].
Proof.
  intros He Hn. destruct (lstrip_split o) as [p [Hs Hp]].
  rewrite Hn, app_nil_r in Hs. subst p. eapply all_space_not_ends; eauto.
Qed.

(** Joining a carried-over text and a trimmed chunk: [strip] only drops
    the leading whitespace of the carried-over text. *)
Lemma strip_join (o cur : str) :
  ends_nonspace o -> ends_nonspace cur ->
  strip (o ++ [SPACE] ++ cur) = lstrip o ++ SPACE :: cur.
Proof.
  intros Ho Hc. unfold strip.
  rewrite lstrip_app by (apply ends_nonspace_lstrip, Ho).
  apply rstrip_ends_id. apply ends_nonspace_app with (a := lstrip o ++ [SPACE]) in Hc.
  rewrite <- app_assoc in Hc. exact Hc.
Qed.

Lemma merge_step_trim (self : t) (st : list str * str) (chunk : str) :
  merge_trim_inv st -> merge_trim_inv (merge_step self st chunk).
Proof.
  intros [Hm Hcur]. destruct st as [merged current]. simpl in *.
  unfold merge_step.
  destruct (truthy (strip chunk)) eqn:Et; simpl; [|split; assumption].
  assert (Hchunk : trimmed (strip chunk)).
  { destruct (strip_trimmed chunk) as [E|E]; [|exact E].
    rewrite E in Et. discriminate. }
  destruct (len current + len (strip chunk) + 1 <=? chunk_size self).
  - split; [assumption|]. simpl.
    destruct (strip_trimmed (current ++ SPACE :: strip chunk)) as [E|E]; [|auto].
    exfalso. apply strip_nil_all_space in E. rewrite forallb_app in E.
    apply andb_true_iff in E. destruct E as [_ E]. simpl in E.
    eapply all_space_not_begins; [exact E | apply Hchunk].
  - split; simpl; [|right; exact Hchunk].
    destruct current as [|c current]; simpl; [assumption|].
    apply Forall_app. split; [assumption|].
    destruct Hcur as [Hcur|Hcur]; [discriminate|].
    constructor; [exact Hcur | constructor].
Qed.

Lemma merge_only_trimmed (self : t) (chunks : list str) :
  Forall trimmed (merge_only self chunks).
Proof.
  unfold merge_only.
  assert (Hinv : merge_trim_inv (fold_left (merge_step self) chunks ([], []))).
  { assert (H0 : merge_trim_inv (@nil str, @nil char))
      by (split; simpl; [constructor | left; reflexivity]).
    revert H0. generalize (@nil str, @nil char).
    induction chunks as [|c chunks IH]; intros st Hst; simpl; [exact Hst|].
    apply IH, merge_step_trim, Hst. }
  destruct (fold_left (merge_step self) chunks ([], [])) as [merged current].
  destruct Hinv as [Hm Hcur]. simpl in *.
  destruct current as [|c current]; simpl; [assumption|].
  apply Forall_app. split; [assumption|].
  destruct Hcur as [Hcur|Hcur]; [discriminate|].
    constructor; [exact Hcur | constructor].
Qed.

(** *** The shape of the result *)

Lemma overlap_loop_length (self : t) (rest : list str) (prev : str) :
  List.length (overlap_loop self prev rest) = List.length rest.
Proof.
  revert prev. induction rest as [|c rest IH]; intros prev; simpl; auto.
Qed.

Lemma overlap_loop_nth (self : t) (rest : list str) :
  forall c0 i prev cur,
    nth_error (c0 :: rest) i = Some prev ->
    nth_error (c0 :: rest) (S i) = Some cur ->
    nth_error (c0 :: overlap_loop self c0 rest) (S i)
    = Some (overlapped self prev cur).
Proof.
  induction rest as [|c1 rest IH]; intros c0 i prev cur Hp Hc.
  - simpl in Hc. destruct i; discriminate.
  - destruct i as [|i]; simpl in Hp, Hc.
    + inversion Hp. inversion Hc. reflexivity.
    + specialize (IH c1 i prev cur Hp Hc). simpl in IH. simpl. exact IH.
Qed.

(** [split_text] is [pre_overlap] followed, when there is something to
    overlap, by [_add_overlap]. *)
Lemma split_text_cases (self : t) (text : str) :
  split_text self text
  = if (chunk_overlap self >? 0) && (len (pre_overlap self text) >? 1)
    then _add_overlap self (pre_overlap self text)
    else Ok (pre_overlap self text).
Proof.
  unfold split_text, pre_overlap.
  destruct (len (clean_text text) <=? chunk_size self).
  - destruct (truthy (clean_text text)); simpl; rewrite andb_false_r; reflexivity.
  - unfold _merge_chunks.
    destruct (_recursive_split self (clean_text text) (separators self)) eqn:E;
      simpl; [rewrite andb_false_r|]; reflexivity.
Qed.

Lemma pre_overlap_bound (self : t) (text : str) :
  1 <= chunk_size self -> In [] (separators self) ->
  Forall (fun p => len p <= chunk_size self) (pre_overlap self text).
Proof.
  intros Hcs Hin. unfold pre_overlap.
  destruct (len (clean_text text) <=? chunk_size self) eqn:E.
  - apply Z.leb_le in E. destruct (truthy (clean_text text)); repeat constructor.
    exact E.
  - apply merge_only_bound; [lia|]. apply recursive_split_bound; assumption.
Qed.

Lemma pre_overlap_trimmed (self : t) (text : str) :
  Forall trimmed (pre_overlap self text).
Proof.
  unfold pre_overlap.
  destruct (len (clean_text text) <=? chunk_size self).
  - destruct (truthy (clean_text text)) eqn:E; [|constructor].
    constructor; [|constructor].
    rewrite clean_text_eq in *.
    destruct (strip_trimmed (sub_whitespace false text)) as [H|H]; [|exact H].
    rewrite H in E. discriminate.
  - apply merge_only_trimmed.
Qed.

(** *** The only whitespace in a chunk is the space *)

Lemma sub_whitespace_plain (b : bool) (s : str) : plain (sub_whitespace b s).
Proof.
  revert b. induction s as [|c s IH]; intros b; simpl; [constructor|].
  destruct (isspace c) eqn:E.
  - destruct b; [apply IH|]. constructor; [reflexivity | apply IH].
  - constructor; [congruence | apply IH].
Qed.

Lemma plain_app (a b : str) : plain (a ++ b) <-> plain a /\ plain b.
Proof. apply Forall_app. Qed.

Lemma strip_plain (s : str) : plain s -> plain (strip s).
Proof.
  intros H. unfold strip.
  destruct (lstrip_split s) as [p [Hs _]].
  destruct (rstrip_split (lstrip s)) as [q [Hl _]].
  rewrite Hs in H. apply plain_app in H. destruct H as [_ H].
  rewrite Hl in H. apply plain_app in H. apply H.
Qed.

Lemma split_from_plain (sep : str) (s : str) :
  forall skip cur,
    plain s -> plain cur -> Forall plain (split_from sep s skip cur).
Proof.
  induction s as [|c s IH]; intros skip cur Hs Hcur; simpl.
  - constructor; [|constructor]. unfold plain. apply Forall_rev, Hcur.
  - inversion Hs as [|? ? Hc Hs']; subst.
    destruct skip as [|k]; [|apply IH; assumption].
    destruct (startswith sep (c :: s)).
    + constructor; [unfold plain; apply Forall_rev, Hcur|].
      apply IH; [assumption | constructor].
    + apply IH; [assumption | constructor; assumption].
Qed.

Lemma recursive_split_plain (self : t) (seps : list str) :
  forall text, plain text -> Forall plain (_recursive_split self text seps).
Proof.
  induction seps as [|sep seps IH]; intros text Ht; simpl.
  - constructor; [exact Ht | constructor].
  - destruct sep as [|c sep].
    + apply Forall_forall. intros p Hp. apply in_map_iff in Hp.
      destruct Hp as [x [<- Hx]]. constructor; [|constructor].
      unfold plain in Ht. rewrite Forall_forall in Ht. auto.
    + apply Forall_forall. intros p Hp. apply in_flat_map in Hp.
      destruct Hp as [piece [Hpiece Hp]].
      assert (Hpl : plain piece).
      { pose proof (split_from_plain (c :: sep) text 0 [] Ht (Forall_nil _)) as HF.
        rewrite Forall_forall in HF. apply HF, Hpiece. }
      destruct (len piece <=? chunk_size self).
      * destruct Hp as [<-|[]]. exact Hpl.
      * pose proof (IH piece Hpl) as HF. rewrite Forall_forall in HF. auto.
Qed.

Lemma merge_only_plain (self : t) (chunks : list str) :
  Forall plain chunks -> Forall plain (merge_only self chunks).
Proof.
  intros H. unfold merge_only.
  assert (Hinv : Forall plain (fst (fold_left (merge_step self) chunks ([], [])))
                 /\ plain (snd (fold_left (merge_step self) chunks ([], [])))).
  { assert (H0 : Forall plain (fst (@nil str, @nil char))
                 /\ plain (snd (@nil str, @nil char)))
      by (split; constructor).
    revert H0. generalize (@nil str, @nil char).
    induction H as [|c chunks Hc _ IH]; intros st Hst; simpl; [exact Hst|].
    apply IH. destruct st as [merged current]. destruct Hst as [Hm Hcur].
    simpl in *. unfold merge_step.
    destruct (truthy (strip c)); simpl; [|split; assumption].
    destruct (len current + len (strip c) + 1 <=? chunk_size self); simpl.
    - split; [assumption|]. apply strip_plain, plain_app. split; [assumption|].
      constructor; [reflexivity | apply strip_plain, Hc].
    - split; [|apply strip_plain, Hc].
      destruct (truthy current); [|assumption].
      apply Forall_app. split; [assumption|]. constructor; [assumption|constructor]. }
  destruct (fold_left (merge_step self) chunks ([], [])) as [merged current].
  destruct Hinv as [Hm Hcur]. simpl in *.
  destruct (truthy current); [|assumption].
  apply Forall_app. split; [assumption|]. constructor; [assumption|constructor].
Qed.

Lemma pre_overlap_plain (self : t) (text : str) :
  Forall plain (pre_overlap self text).
Proof.
  assert (Hc : plain (clean_text text)).
  { rewrite clean_text_eq. apply strip_plain, sub_whitespace_plain. }
  unfold pre_overlap.
  destruct (len (clean_text text) <=? chunk_size self).
  - destruct (truthy (clean_text text)); repeat constructor. exact Hc.
  - apply merge_only_plain, recursive_split_plain, Hc.
Qed.

(** *** One overlapped chunk *)

Lemma all_space_last (q : str) :
  q <> [] -> forallb isspace q = true ->
  exists q' c, q = q' ++ [c] /\ isspace c = true.
Proof.
  intros Hq Hs. destruct (exists_last Hq) as [q' [c Hc]]. subst q.
  exists q', c. split; [reflexivity|].
  rewrite forallb_app in Hs. simpl in Hs.
  apply andb_true_iff in Hs. destruct Hs as [_ Hs].
  rewrite andb_true_r in Hs. exact Hs.
Qed.

Lemma plain_lstrip_id (s : str) : plain s -> ~ In SPACE s -> lstrip s = s.
Proof.
  intros Hp Hn. destruct s as [|c s]; [reflexivity|].
  apply lstrip_id. destruct (isspace c) eqn:E; [|reflexivity].
  inversion Hp as [|? ? Hc _]; subst. exfalso. apply Hn. left.
  apply Hc. exact E.
Qed.

Lemma overlapped_spec (self : t) (prev cur : str) :
  0 < chunk_overlap self -> trimmed prev -> trimmed cur ->
  let tail := slice_from (- chunk_overlap self) prev in
  let o := lstrip (overlap_text self prev) in
  overlapped self prev cur = o ++ SPACE :: cur
  /\ begins_nonspace o
  /\ (exists pre, tail = pre ++ o)
  /\ (In SPACE tail -> exists pre c, prev = pre ++ c :: o /\ isspace c = true)
  /\ (~ In SPACE tail -> o = lstrip tail).
Proof.
  intros Hk [Hpb Hpe] [_ Hce]. cbv zeta.
  destruct (tail_spec (chunk_overlap self) prev Hk) as [pre0 [Hprev Hlen]].
  pose proof (overlap_text_spec self prev) as Hspec. cbv zeta in Hspec.
  remember (slice_from (- chunk_overlap self) prev) as tail eqn:Etail.
  clear Etail.
  assert (Htail : ends_nonspace tail).
  { apply ends_nonspace_suffix with (a := pre0); [rewrite <- Hprev; exact Hpe|].
    intros E. rewrite E in Hlen. destruct Hpb as [c [r [-> _]]].
    unfold len in Hlen. simpl in Hlen. lia. }
  assert (Hgen : forall ot : str,
             ends_nonspace ot ->
             strip (ot ++ [SPACE] ++ cur) = lstrip ot ++ SPACE :: cur
             /\ begins_nonspace (lstrip ot)).
  { intros ot Hot. split; [apply strip_join; assumption|].
    destruct (lstrip_begins ot) as [E|E]; [|exact E].
    exfalso. eapply ends_nonspace_lstrip; eauto. }
  unfold overlapped.
  destruct Hspec as [[Hot Hcase]|[w [Hw [Hwn Hws]]]].
  - rewrite Hot. destruct (Hgen tail Htail) as [H1 H2].
    destruct (lstrip_split tail) as [p [Hp Hps]].
    repeat split; auto.
    + exists p. exact Hp.
    + intros Hin. destruct Hcase as [[r Hr]|Hn]; [|contradiction].
      assert (Hpne : p <> []).
      { intros ->. simpl in Hp. destruct H2 as [c [r' [Hc Hcs]]].
        rewrite Hc in Hp. rewrite Hr in Hp. inversion Hp. subst c.
        rewrite isspace_SPACE in Hcs. discriminate. }
      destruct (all_space_last p Hpne Hps) as [p' [c [-> Hc]]].
      exists (pre0 ++ p'), c. split; [|exact Hc].
      rewrite Hprev at 1. rewrite Hp at 1. rewrite <- !app_assoc. reflexivity.
  - assert (Hote : ends_nonspace (overlap_text self prev)).
    { apply ends_nonspace_suffix with (a := w ++ [SPACE]).
      - rewrite <- app_assoc. simpl. rewrite <- Hw. exact Htail.
      - intros E. rewrite E in Hw. destruct Htail as [r [c [Hr Hc]]].
        rewrite Hr in Hw. apply app_inj_tail in Hw. destruct Hw as [_ ->].
        rewrite isspace_SPACE in Hc. discriminate. }
    destruct (Hgen _ Hote) as [H1 H2].
    destruct (lstrip_split (overlap_text self prev)) as [p [Hp Hps]].
    assert (Hin : In SPACE tail).
    { rewrite Hw. apply in_or_app. right. left. reflexivity. }
    repeat split; auto.
    + exists (w ++ SPACE :: p). rewrite Hw at 1. rewrite Hp at 1.
      rewrite <- app_assoc. reflexivity.
    + intros _.
      assert (Hq : forallb isspace (SPACE :: p) = true)
        by (simpl; rewrite Hps; reflexivity).
      destruct (all_space_last (SPACE :: p) ltac:(discriminate) Hq)
        as [q' [c [Hq' Hc]]].
      exists (pre0 ++ w ++ q'), c. split; [|exact Hc].
      rewrite Hprev at 1. rewrite Hw at 1. rewrite Hp at 1.
      rewrite <- !app_assoc. f_equal. f_equal.
      change (SPACE :: p ++ lstrip (overlap_text self prev))
        with ((SPACE :: p) ++ lstrip (overlap_text self prev)).
      rewrite Hq', <- app_assoc. reflexivity.
    + intros Hn. contradiction.
Qed.

(** [split_text] raises nothing: [_add_overlap] only runs on two chunks or
    more. *)
Lemma split_text_never_raises (self : t) (text : str) :
  exists chunks, split_text self text = Ok chunks.
Proof.
  rewrite split_text_cases.
  destruct ((chunk_overlap self >? 0) && (len (pre_overlap self text) >? 1)) eqn:E;
    [|eauto].
  destruct (pre_overlap self text) as [|c0 rest]; simpl; [|eauto].
  rewrite andb_false_r in E. discriminate.
Qed.

(** The scenario of the specification: the 850 characters of
    [python_is_great] with the default sizes give two chunks, of 495 and of
    352 characters, and the second begins with words of the end of the
    first. *)
Example split_text_scenario :
  exists chunks,
    split_text Examples.default_processor Examples.python_is_great = Ok chunks
    /\ map len chunks = [495; 352]
    /\ map (firstn 32) (tl chunks) = [of_string "Python is great Python is great "].
Proof.
  eexists. split; [vm_compute; reflexivity|]. split; vm_compute; reflexivity.
Qed.

(** *** The claims about the chunker *)

(** C8. A text whose normalised form fits in [chunk_size] gives exactly
    one chunk, the normalised text, or no chunk when that text is empty;
    an input made of whitespace only (the empty input included) gives no
    chunk, and [split_text] raises nothing on it. *)
Theorem split_text_short (self : t) (text : str) :
  (len (clean_text text) <= chunk_size self ->
   split_text self text
   = Ok (match clean_text text with [] => [] | _ :: _ => [clean_text text] end))
  /\ (forallb isspace text = true -> split_text self text = Ok []).
Proof.
  split.
  - intros H. unfold split_text. apply Z.leb_le in H. rewrite H.
    destruct (clean_text text); reflexivity.
  - intros H. unfold split_text. rewrite (clean_text_all_space text H).
    destruct (len (@nil char) <=? chunk_size self); [reflexivity|].
    apply merge_chunks_all_empty, recursive_split_nil.
Qed.

Lemma split_text_short_witness :
  split_text Examples.default_processor (of_string "  hello   world ")
  = Ok [of_string "hello world"]
  /\ split_text Examples.default_processor [SPACE; 9%N; NEWLINE; SPACE] = Ok [].
Proof.
  split.
  - apply (proj1 (split_text_short Examples.default_processor
                    (of_string "  hello   world "))).
    apply Z.leb_le. vm_compute. reflexivity.
  - apply (proj2 (split_text_short Examples.default_processor
                    [SPACE; 9%N; NEWLINE; SPACE])).
    vm_compute. reflexivity.
Defined.

(** C4, as the code has it. With [chunk_size >= 1] and the empty string
    among the separators, [split_text] returns chunks of which the first
    is at most [chunk_size] long, all are at most [chunk_size] long when
    [chunk_overlap <= 0], and all are at most
    [chunk_size + chunk_overlap + 1] long otherwise: the overlap and its
    joining space are added to a chunk after it was sized. *)
Theorem split_text_chunk_bound (self : t) (text : str) :
  1 <= chunk_size self -> In [] (separators self) ->
  exists chunks,
    split_text self text = Ok chunks
    /\ (forall c0, hd_error chunks = Some c0 -> len c0 <= chunk_size self)
    /\ (chunk_overlap self <= 0 ->
        Forall (fun c => len c <= chunk_size self) chunks)
    /\ (0 < chunk_overlap self ->
        Forall (fun c => len c <= chunk_size self + chunk_overlap self + 1) chunks).
Proof.
  intros Hcs Hin. rewrite split_text_cases.
  pose proof (pre_overlap_bound self text Hcs Hin) as Hb.
  assert (Hweak : forall k, 0 <= k ->
            Forall (fun c => len c <= chunk_size self + k) (pre_overlap self text)).
  { intros k Hk. eapply Forall_impl; [|exact Hb]. simpl. intros. lia. }
  destruct ((chunk_overlap self >? 0) && (len (pre_overlap self text) >? 1)) eqn:E.
  - apply andb_true_iff in E. destruct E as [Ek El].
    apply Z.gtb_lt in Ek.
    destruct (pre_overlap self text) as [|c0 rest] eqn:Em; [discriminate|].
    inversion Hb as [|? ? Hc0 Hrest]; subst.
    exists (c0 :: overlap_loop self c0 rest). simpl. repeat split.
    + intros c Hc. inversion Hc. subst. exact Hc0.
    + intros Hk. lia.
    + intros _. constructor; [lia|].
      apply overlap_loop_bound; assumption.
  - exists (pre_overlap self text). repeat split.
    + intros c Hc. destruct (pre_overlap self text); [discriminate|].
      inversion Hc. subst. inversion Hb. assumption.
    + intros _. exact Hb.
    + intros Hk. replace (chunk_size self + chunk_overlap self + 1)
        with (chunk_size self + (chunk_overlap self + 1)) by lia.
      apply Hweak. lia.
Qed.

Lemma split_text_chunk_bound_witness :
  exists chunks,
    split_text Examples.small_processor Examples.two_words = Ok chunks
    /\ (forall c0, hd_error chunks = Some c0 -> len c0 <= 10)
    /\ (5 <= 0 -> Forall (fun c => len c <= 10) chunks)
    /\ (0 < 5 -> Forall (fun c => len c <= 10 + 5 + 1) chunks).
Proof.
  apply (split_text_chunk_bound Examples.small_processor Examples.two_words).
  - vm_compute. discriminate.
  - vm_compute. auto 10.
Defined.

(** C4 fails as stated: with [chunk_size = 10] and [chunk_overlap = 5]
    every piece of the recursive split fits in [chunk_size], and yet the
    second chunk is 16 characters long. *)
Lemma split_text_chunk_exceeds_size :
  split_text Examples.small_processor Examples.two_words
  = Ok [of_string "aaaaaaaaaa"; of_string "aaaaa bbbbbbbbbb"]
  /\ Forall (fun p => len p <= chunk_size Examples.small_processor)
       (_recursive_split Examples.small_processor
          (clean_text Examples.two_words)
          (separators Examples.small_processor))
  /\ ~ Forall (fun c => len c <= chunk_size Examples.small_processor)
         [of_string "aaaaaaaaaa"; of_string "aaaaa bbbbbbbbbb"].
Proof.
  split; [vm_compute; reflexivity|]. split.
  - vm_compute. repeat constructor; discriminate.
  - intros H. inversion H as [|? ? _ H1]; subst.
    inversion H1 as [|? ? H2 _]; subst. vm_compute in H2. apply H2. reflexivity.
Qed.

End Chunker.

(** ** Context assembly *)

Section Context.

Import VectorStore RAGEngine.

Lemma context_loop (documents : list hit) (i : nat) (parts : list str) :
  snd (fold_left context_step documents (i, parts))
  = parts
    ++ map (fun p => of_string "[" ++ str_of_nat (fst p) ++ of_string "] " ++ snd p)
         (combine (seq i (List.length documents)) (map hit_content documents)).
Proof.
  revert i parts. induction documents as [|d documents IH]; intros i parts; simpl.
  - rewrite app_nil_r. reflexivity.
  - unfold context_step at 2. simpl fst. simpl snd. rewrite IH.
    rewrite <- app_assoc. reflexivity.
Qed.

Lemma slice_to_nonneg {A : Type} (n : Z) (s : list A) :
  0 <= n -> slice_to n s = firstn (Z.to_nat n) s.
Proof.
  intros H. unfold slice_to. destruct (n <? 0) eqn:E; [|reflexivity].
  apply Z.ltb_lt in E. lia.
Qed.

(** C6. [_build_context] returns the fixed marker for an empty list;
    otherwise the enumerated list of the chunk texts, whole when it is at
    most [max_context_length] long, and else its first [max_context_length]
    characters followed by the marker ["..."]. The default limit is 2000. *)
Theorem build_context_spec (settings : Settings) (documents : list hit) :
  max_context_length default_settings = 2000
  /\ (documents = [] ->
      _build_context settings documents = of_string "No relevant context found.")
  /\ (documents <> [] ->
      len (enumerated (map hit_content documents)) <= max_context_length settings ->
      _build_context settings documents = enumerated (map hit_content documents))
  /\ (documents <> [] ->
      0 <= max_context_length settings ->
      max_context_length settings < len (enumerated (map hit_content documents)) ->
      _build_context settings documents
      = firstn (Z.to_nat (max_context_length settings))
          (enumerated (map hit_content documents)) ++ of_string "..."
      /\ len (_build_context settings documents) = max_context_length settings + 3).
Proof.
  assert (Hctx : documents <> [] ->
            _build_context settings documents
            = if len (enumerated (map hit_content documents))
                 >? max_context_length settings
              then slice_to (max_context_length settings)
                     (enumerated (map hit_content documents)) ++ of_string "..."
              else enumerated (map hit_content documents)).
  { intros Hne. unfold _build_context.
    destruct documents as [|d documents]; [congruence|].
    cbn [truthy negb]. rewrite context_loop. cbn [app].
    unfold enumerated. rewrite length_map. reflexivity. }
  split; [reflexivity|]. split; [intros ->; reflexivity|]. split.
  - intros Hne Hle. rewrite (Hctx Hne). rewrite Z.gtb_ltb.
    destruct (max_context_length settings <? _) eqn:E; [|reflexivity].
    apply Z.ltb_lt in E. lia.
  - intros Hne Hmax Hlt. rewrite (Hctx Hne). rewrite Z.gtb_ltb.
    apply Z.ltb_lt in Hlt. rewrite Hlt. apply Z.ltb_lt in Hlt.
    rewrite slice_to_nonneg by assumption. split; [reflexivity|].
    rewrite len_app. unfold len in *. rewrite length_firstn.
    change (List.length (of_string "...")) with 3%nat. lia.
Qed.

Lemma build_context_spec_witness :
  _build_context default_settings []
  = of_string "No relevant context found."
  /\ _build_context default_settings
       [Examples.hit_of (of_string "alpha"); Examples.hit_of (of_string "beta")]
     = of_string "[1] alpha" ++ [NEWLINE; NEWLINE] ++ of_string "[2] beta"
  /\ _build_context Examples.small_context
       [Examples.hit_of (of_string "alpha"); Examples.hit_of (of_string "beta")]
     = of_string "[1] alpha" ++ [NEWLINE; NEWLINE] ++ of_string "[..."
  /\ len (_build_context Examples.small_context
            [Examples.hit_of (of_string "alpha"); Examples.hit_of (of_string "beta")])
     = 12 + 3.
Proof.
  split.
  - apply (proj1 (proj2 (build_context_spec default_settings []))). reflexivity.
  - split.
    + apply (proj1 (proj2 (proj2 (build_context_spec default_settings
                 [Examples.hit_of (of_string "alpha");
                  Examples.hit_of (of_string "beta")]))));
        [discriminate | apply Z.leb_le; vm_compute; reflexivity].
    + apply (proj2 (proj2 (proj2 (build_context_spec Examples.small_context
                 [Examples.hit_of (of_string "alpha");
                  Examples.hit_of (of_string "beta")]))));
        [discriminate | apply Z.leb_le; vm_compute; reflexivity
        | apply Z.ltb_lt; vm_compute; reflexivity].
Defined.

End Context.

(** ** The vector store: adding and persisting *)

Section Store.

Import VectorStore.

(** C10. [add_documents] with an empty list of documents returns the
    empty list of ids and leaves the whole store as it was (its documents,
    embeddings, metadata and ids), whatever the other arguments are. *)
Theorem add_documents_empty (uuid4 : nat -> str) (self : t)
  (embeddings : list (list float)) (metadatas : option (list dict))
  (ids : option (list str)) :
  let r := add_documents uuid4 self [] embeddings metadatas ids in
  fst r = Ok []
  /\ snd r = self
  /\ _documents (snd r) = _documents self
  /\ _embeddings (snd r) = _embeddings self
  /\ _metadatas (snd r) = _metadatas self
  /\ _ids (snd r) = _ids self.
Proof.
  intros r. subst r. unfold add_documents. cbn [truthy negb fst snd].
  repeat split.
Qed.

Lemma rectangular_array (embeddings : list (list float)) :
  embeddings <> [] -> rectangular embeddings = true ->
  array embeddings = Ok (Arr2 embeddings).
Proof.
  intros Hne Hr. unfold array. destruct embeddings; [congruence|].
  rewrite Hr. reflexivity.
Qed.

Lemma ragged_array (embeddings : list (list float)) :
  rectangular embeddings = false -> array embeddings = Raise ValueError.
Proof.
  intros Hr. unfold array. destruct embeddings; [discriminate|].
  rewrite Hr. reflexivity.
Qed.

(** C1, as the code has it. [add_documents] checks no dimension itself.
    New vectors of different lengths, or of a length other than that of
    the stored vectors, make NumPy raise [ValueError], which is passed on
    as it is and leaves the store unchanged; vectors of the stored length
    (of any one length for an empty store) are appended and the ids are
    returned. *)
Theorem add_documents_dimensions (uuid4 : nat -> str) (self : t)
  (documents : list str) (embeddings : list (list float))
  (metadatas : option (list dict)) (ids : option (list str)) :
  documents <> [] -> embeddings <> [] ->
  (rectangular embeddings = false ->
   add_documents uuid4 self documents embeddings metadatas ids
   = (Raise ValueError, self))
  /\ (forall rows,
        rectangular embeddings = true ->
        _embeddings self = Some (Arr2 rows) ->
        ncols rows <> ncols embeddings ->
        add_documents uuid4 self documents embeddings metadatas ids
        = (Raise ValueError, self))
  /\ (forall stored,
        rectangular embeddings = true ->
        (_embeddings self = None /\ stored = []
         \/ _embeddings self = Some (Arr2 stored)
            /\ ncols stored = ncols embeddings) ->
        add_documents uuid4 self documents embeddings metadatas ids
        = (Ok (ids_or uuid4 documents ids),
           set_state self (_documents self ++ documents)
             (Some (Arr2 (stored ++ embeddings)))
             (_metadatas self ++ metadatas_or documents metadatas)
             (_ids self ++ ids_or uuid4 documents ids))).
Proof.
  intros Hd He. unfold add_documents.
  destruct documents as [|d documents]; [congruence|]. cbn [truthy negb].
  split; [|split].
  - intros Hr. rewrite (ragged_array _ Hr). reflexivity.
  - intros rows Hr Hs Hn. rewrite (rectangular_array _ He Hr), Hs.
    unfold vstack. simpl. apply Nat.eqb_neq in Hn. rewrite Hn. reflexivity.
  - intros stored Hr [[Hs ->]|[Hs Hn]]; rewrite (rectangular_array _ He Hr), Hs.
    + reflexivity.
    + unfold vstack. simpl. apply Nat.eqb_eq in Hn. rewrite Hn. reflexivity.
Qed.

Lemma add_documents_dimensions_witness :
  add_documents Examples.uuid4 Examples.ab_store [of_string "c"]
    [[1; 0; 0]]%float None None
  = (Raise ValueError, Examples.ab_store)
  /\ fst (add_documents Examples.uuid4 Examples.ab_store [of_string "c"]
            [[1; 1]]%float None None)
     = Ok [of_string "id-0"].
Proof.
  split.
  - apply (proj1 (proj2 (add_documents_dimensions Examples.uuid4 Examples.ab_store
             [of_string "c"] [[1; 0; 0]]%float None None
             ltac:(discriminate) ltac:(discriminate)))
             [[1; 0]; [0; 1]]%float);
      [reflexivity | reflexivity | vm_compute; discriminate].
  - rewrite (proj2 (proj2 (add_documents_dimensions Examples.uuid4 Examples.ab_store
             [of_string "c"] [[1; 1]]%float None None
             ltac:(discriminate) ltac:(discriminate)))
             [[1; 0]; [0; 1]]%float);
      [reflexivity | reflexivity | right; split; reflexivity].
Defined.

(** C1 fails as stated: adding a vector of three components to a store
    of vectors of two raises [ValueError], which is no [VectorStoreError]. *)
Lemma add_documents_mismatch_not_store_error :
  fst (add_documents Examples.uuid4 Examples.ab_store [of_string "c"]
         [[1; 0; 0]]%float None None)
  = Raise ValueError
  /\ forall message,
       fst (add_documents Examples.uuid4 Examples.ab_store [of_string "c"]
              [[1; 0; 0]]%float None None)
       <> Raise (VectorStoreError message).
Proof.
  split; [reflexivity|]. intros message. vm_compute. discriminate.
Qed.

(** *** Persisting and loading *)

Lemma str_eqb_refl (a : str) : str_eqb a a = true.
Proof. unfold str_eqb. destruct (list_eq_dec N.eq_dec a a); congruence. Qed.

Lemma str_eqb_neq (a b : str) : a <> b -> str_eqb a b = false.
Proof. intros H. unfold str_eqb. destruct (list_eq_dec N.eq_dec a b); congruence. Qed.

(** Two names with a common stem and endings of different lengths are
    joined to a directory into different paths. *)
Lemma path_join_differ (a stem e1 e2 : str) :
  List.length e1 <> List.length e2 ->
  startswith [47%N] e1 = false -> startswith [47%N] e2 = false ->
  path_join a (stem ++ e1) <> path_join a (stem ++ e2).
Proof.
  intros Hl H1 H2 H. apply (f_equal (@List.length char)) in H. revert H.
  unfold path_join.
  assert (Hs : startswith [47%N] (stem ++ e1) = startswith [47%N] (stem ++ e2)).
  { destruct stem; simpl app; [congruence | reflexivity]. }
  rewrite <- Hs.
  destruct (startswith [47%N] (stem ++ e1));
    [|destruct (negb (truthy a) || startswith [47%N] (rev a))];
    rewrite !length_app; simpl; lia.
Qed.

Lemma paths_differ (self : t) : _get_metadata_path self <> _get_storage_path self.
Proof.
  unfold _get_metadata_path, _get_storage_path. apply path_join_differ.
  - vm_compute. discriminate.
  - reflexivity.
  - reflexivity.
Qed.

Lemma set_state_id (self : t) :
  set_state self (_documents self) (_embeddings self) (_metadatas self) (_ids self)
  = self.
Proof. destruct self. reflexivity. Qed.

(** *** Writing to the medium *)

Lemma put_same (d : Disk) (p : str) (c : option file) : put d p c p = c.
Proof. cbn [put contents]. rewrite str_eqb_refl. reflexivity. Qed.

Lemma put_other (d : Disk) (p q : str) (c : option file) :
  q <> p -> put d p c q = d q.
Proof. intros H. cbn [put contents]. rewrite str_eqb_neq by exact H. reflexivity. Qed.

Lemma write_other (d : Disk) (p q : str) (f : file) :
  q <> p -> snd (write d p f) q = d q.
Proof.
  intros H. unfold write. destruct (on_write d p); cbn [snd];
    rewrite ?put_other by exact H; reflexivity.
Qed.

(** A write returns when the medium accepts it, and the path then holds
    the file; it raises [OSError] otherwise. *)
Lemma write_cases (d : Disk) (p : str) (f : file) :
  (on_write d p = Accepts /\ write d p f = (Ok tt, put d p (Some f)))
  \/ (on_write d p <> Accepts /\ fst (write d p f) = Raise OSError).
Proof.
  unfold write. destruct (on_write d p); [left | right | right];
    split; first [reflexivity | discriminate].
Qed.

(** *** [persist] *)

(** [persist] touches no path but the two of its collection. *)
Lemma persist_other (self : t) (disk : Disk) (q : str) :
  q <> _get_storage_path self -> q <> _get_metadata_path self ->
  snd (persist self disk) q = disk q.
Proof.
  intros H1 H2. unfold persist.
  destruct (negb (truthy (_documents self))); [reflexivity|].
  pose proof (write_other disk (_get_storage_path self) q
                (NpzFile (match _embeddings self with
                          | Some a => a | None => ArrNone end)
                   (_documents self) (_ids self)) H1) as Hw1.
  destruct (write disk (_get_storage_path self) _) as [[u|e] disk1];
    cbn [snd] in *; [|exact Hw1].
  pose proof (write_other disk1 (_get_metadata_path self) q
                (JsonFile (_metadatas self)) H2) as Hw2.
  destruct (write disk1 (_get_metadata_path self) _) as [[u'|e] disk2];
    cbn [snd] in *; congruence.
Qed.

(** [persist] returns, or raises [VectorStoreError] and nothing else. *)
Lemma persist_outcome (self : t) (disk : Disk) :
  fst (persist self disk) = Ok tt
  \/ fst (persist self disk) = Raise (VectorStoreError "Failed to persist").
Proof.
  unfold persist.
  destruct (negb (truthy (_documents self))); [left; reflexivity|].
  destruct (write disk (_get_storage_path self) _) as [[[]|e] disk1];
    [|right; reflexivity].
  destruct (write disk1 (_get_metadata_path self) _) as [[[]|e] disk2];
    [left | right]; reflexivity.
Qed.

(** With documents to save, [persist] returns exactly when the medium
    accepts the two writes, and the two paths then hold the two files. *)
Lemma persist_ok (self : t) (disk : Disk) :
  _documents self <> [] ->
  (on_write disk (_get_storage_path self) = Accepts
   /\ on_write disk (_get_metadata_path self) = Accepts
   /\ persist self disk
      = (Ok tt,
         put (put disk (_get_storage_path self)
                (Some (NpzFile (match _embeddings self with
                                | Some a => a | None => ArrNone end)
                         (_documents self) (_ids self))))
           (_get_metadata_path self) (Some (JsonFile (_metadatas self)))))
  \/ ((on_write disk (_get_storage_path self) <> Accepts
       \/ on_write disk (_get_metadata_path self) <> Accepts)
      /\ fst (persist self disk) = Raise (VectorStoreError "Failed to persist")).
Proof.
  intros Hd. unfold persist.
  destruct (_documents self) as [|d ds] eqn:Ed; [congruence|].
  cbn [truthy negb].
  destruct (write_cases disk (_get_storage_path self)
              (NpzFile (match _embeddings self with
                        | Some a => a | None => ArrNone end)
                 (d :: ds) (_ids self))) as [[Ha ->]|[Ha Hw]].
  - destruct (write_cases (put disk (_get_storage_path self)
                (Some (NpzFile (match _embeddings self with
                                | Some a => a | None => ArrNone end)
                         (d :: ds) (_ids self))))
                (_get_metadata_path self) (JsonFile (_metadatas self)))
      as [[Hb ->]|[Hb Hw]].
    + left. auto.
    + right. split; [right; exact Hb|].
      destruct (write _ (_get_metadata_path self) _) as [[u|e] disk2];
        [discriminate | reflexivity].
  - right. split; [left; exact Ha|].
    destruct (write disk (_get_storage_path self) _) as [[u|e] disk1];
      [discriminate | reflexivity].
Qed.

(** A store with documents that [persist] has saved comes back from the
    medium as it was. *)
Lemma persist_load (self : t) (a : ndarray) (disk : Disk) :
  _documents self <> [] -> _embeddings self = Some a ->
  fst (persist self disk) = Ok tt ->
  init (collection_name self) (persist_directory self) (snd (persist self disk))
  = self.
Proof.
  intros Hd He Hok.
  destruct (persist_ok self disk Hd) as [[_ [_ Hp]]|[_ Hp]]; [|congruence].
  rewrite Hp. cbn [snd]. unfold init, _load.
  change (_get_storage_path {| collection_name := collection_name self;
             persist_directory := persist_directory self; _documents := [];
             _embeddings := None; _metadatas := []; _ids := [] |})
    with (_get_storage_path self).
  change (_get_metadata_path {| collection_name := collection_name self;
             persist_directory := persist_directory self; _documents := [];
             _embeddings := None; _metadatas := []; _ids := [] |})
    with (_get_metadata_path self).
  rewrite put_other by (intros H; apply (paths_differ self); congruence).
  rewrite !put_same, He. unfold set_state.
  cbn [collection_name persist_directory]. rewrite <- He.
  destruct self; reflexivity.
Qed.

(** A store opened where nothing was persisted is empty. *)
Lemma init_fresh (name dir : str) (disk : Disk) :
  disk (path_join dir (name ++ of_string ".npz")) = None ->
  init name dir disk
  = {| collection_name := name; persist_directory := dir; _documents := [];
       _embeddings := None; _metadatas := []; _ids := [] |}.
Proof.
  intros H. unfold init, _load, _get_storage_path. simpl. rewrite H. reflexivity.
Qed.

Lemma inv_embeddings_init (name dir : str) (disk : Disk) :
  inv_embeddings (init name dir disk).
Proof.
  unfold inv_embeddings, init, _load. simpl.
  destruct (disk _) as [[e d i| |]|]; simpl; try congruence;
    destruct (disk _) as [[| |]|]; simpl; congruence.
Qed.

Lemma inv_embeddings_add (uuid4 : nat -> str) (self : t) (documents : list str)
  (embeddings : list (list float)) (metadatas : option (list dict))
  (ids : option (list str)) :
  inv_embeddings self ->
  inv_embeddings (snd (add_documents uuid4 self documents embeddings metadatas ids)).
Proof.
  intros H. unfold add_documents.
  destruct (negb (truthy documents)); [exact H|].
  destruct (array embeddings); [|exact H].
  destruct (match _embeddings self with None => _ | Some old => _ end);
    [|exact H].
  unfold inv_embeddings. simpl. congruence.
Qed.

Lemma inv_embeddings_delete (self : t) (disk : Disk) :
  inv_embeddings (fst (delete_collection self disk)).
Proof. unfold inv_embeddings. simpl. congruence. Qed.

(** C9. On a medium that holds nothing for the collection, a fresh store
    to which texts with vectors of one length are added and which [persist]
    has then saved comes back, in a new instance over the same location, as
    the very store that was saved: [document_count] is the number of texts
    and the reloaded array holds the vectors that were added, bit for bit.
    [persist] returns when the medium accepts the two writes; when it does
    not return it raises [VectorStoreError]. *)
Theorem persist_reload (uuid4 : nat -> str) (name dir : str) (disk : Disk)
  (documents : list str) (embeddings : list (list float))
  (metadatas : option (list dict)) (ids : option (list str)) :
  disk (path_join dir (name ++ of_string ".npz")) = None ->
  rectangular embeddings = true ->
  let added := add_documents uuid4 (init name dir disk) documents embeddings
                 metadatas ids in
  let saved := persist (snd added) disk in
  let reloaded := init name dir (snd saved) in
  (on_write disk (path_join dir (name ++ of_string ".npz")) = Accepts ->
   on_write disk (path_join dir (name ++ of_string "_meta.json")) = Accepts ->
   fst saved = Ok tt)
  /\ (fst saved = Ok tt ->
      reloaded = snd added
      /\ document_count (get_stats reloaded) = len documents
      /\ _documents reloaded = documents
      /\ (documents <> [] -> embeddings <> [] ->
          fst added = Ok (ids_or uuid4 documents ids)
          /\ _embeddings reloaded = Some (Arr2 embeddings)))
  /\ (forall e, fst saved = Raise e -> exists message, e = VectorStoreError message).
Proof.
  intros Hnone Hr added saved reloaded.
  assert (Hexn : forall e, fst saved = Raise e ->
                           exists message, e = VectorStoreError message).
  { intros e He. destruct (persist_outcome (snd added) disk) as [H|H];
      fold saved in H; rewrite H in He; [discriminate|].
    injection He as <-. eauto. }
  split; [|split; [|exact Hexn]]; clear Hexn; subst reloaded saved added;
    rewrite (init_fresh name dir disk Hnone).
  - intros Hw1 Hw2. destruct documents as [|d documents]; [reflexivity|].
    set (st := snd (add_documents _ _ _ _ _ _)).
    assert (Ha : exists a, array embeddings = Ok a).
    { destruct embeddings as [|e embeddings].
      - exists (Arr1 []). reflexivity.
      - exists (Arr2 (e :: embeddings)).
        apply rectangular_array; [discriminate | exact Hr]. }
    destruct Ha as [a Ha].
    assert (Hst : collection_name st = name /\ persist_directory st = dir
                  /\ _documents st <> []).
    { subst st. unfold add_documents. cbn [truthy negb]. rewrite Ha.
      cbn [_embeddings snd set_state collection_name persist_directory
           _documents app].
      repeat split. discriminate. }
    destruct Hst as [Hn [Hdir Hd]].
    destruct (persist_ok st disk Hd) as [[_ [_ ->]]|[[H|H] _]];
      [reflexivity | |]; exfalso; apply H;
      unfold _get_storage_path, _get_metadata_path; rewrite Hn, Hdir;
      assumption.
  - destruct documents as [|d documents].
    + cbn [add_documents truthy negb snd fst persist _documents].
      rewrite (init_fresh name dir disk Hnone).
      intros _. repeat split; congruence.
    + assert (Ha : exists a, array embeddings = Ok a
                   /\ (embeddings <> [] -> a = Arr2 embeddings)).
      { destruct embeddings as [|e embeddings].
        - exists (Arr1 []). split; [reflexivity | congruence].
        - exists (Arr2 (e :: embeddings)). split; [|reflexivity].
          apply rectangular_array; [discriminate | exact Hr]. }
      destruct Ha as [a [Ha Hrows]].
      unfold add_documents. cbn [truthy negb]. rewrite Ha.
      cbn [_embeddings snd fst _documents _metadatas _ids app].
      set (self1 := set_state _ _ _ _ _).
      intros Hok.
      pose proof (persist_load self1 a disk) as H2.
      change (collection_name self1) with name in H2.
      change (persist_directory self1) with dir in H2.
      rewrite H2; [|discriminate | reflexivity | exact Hok].
      split; [reflexivity|]. split; [reflexivity|]. split; [reflexivity|].
      intros _ He. split; [reflexivity|]. simpl. rewrite (Hrows He). reflexivity.
Qed.

Lemma persist_reload_witness :
  let added := add_documents Examples.uuid4
                 (init (of_string "documents") (of_string "./data/vectorstore")
                    Examples.no_disk)
                 [of_string "a"; of_string "b"] [[1; 0]; [0; 1]]%float None None in
  let saved := persist (snd added) Examples.no_disk in
  let reloaded := init (of_string "documents") (of_string "./data/vectorstore")
                    (snd saved) in
  fst saved = Ok tt
  /\ reloaded = snd added
  /\ document_count (get_stats reloaded) = 2
  /\ _documents reloaded = [of_string "a"; of_string "b"]
  /\ _embeddings reloaded = Some (Arr2 [[1; 0]; [0; 1]]%float).
Proof.
  destruct (persist_reload Examples.uuid4 (of_string "documents")
              (of_string "./data/vectorstore") Examples.no_disk
              [of_string "a"; of_string "b"] [[1; 0]; [0; 1]]%float None None
              eq_refl eq_refl) as [H1 [H2 _]].
  specialize (H1 eq_refl eq_refl).
  destruct (H2 H1) as [H3 [H4 [H5 H6]]].
  destruct H6 as [_ H6]; [discriminate | discriminate |].
  cbv zeta. repeat split; assumption.
Defined.

(** A medium that refuses the metadata file: [persist] raises
    [VectorStoreError] after it has written the arrays, and a new instance
    over the same location finds an array file without metadata and opens
    empty. *)
Example persist_refused :
  let saved := persist Examples.ab_store Examples.no_json_disk in
  fst saved = Raise (VectorStoreError "Failed to persist")
  /\ snd saved (_get_storage_path Examples.ab_store)
     = Some (NpzFile (Arr2 [[1; 0]; [0; 1]]%float)
               [of_string "a"; of_string "b"]
               [of_string "id-0"; of_string "id-1"])
  /\ snd saved (_get_metadata_path Examples.ab_store) = None
  /\ _documents (init (collection_name Examples.ab_store)
                   (persist_directory Examples.ab_store) (snd saved)) = [].
Proof. vm_compute. repeat split; reflexivity. Qed.

End Store.

(** ** The order NumPy sorts floats by *)

Section FloatOrder.

Local Open Scope float_scope.

Lemma npy_lt_spec (a b : float) : npy_lt a b = sf_lt (Prim2SF a) (Prim2SF b).
Proof. unfold npy_lt, sf_lt. rewrite ltb_spec, !eqb_spec. reflexivity. Qed.

Lemma compare_cont_Eq (p q : positive) :
  PosDef.Pos.compare_cont Eq p q = Pos.compare p q.
Proof. reflexivity. Qed.

Lemma sf_lt_key (x y : spec_float) : sf_lt x y = true <-> lex_lt (sf_key x) (sf_key y).
Proof.
  unfold sf_lt, SFltb, SFeqb.
  destruct x as [sx|sx| |sx mx ex], y as [sy|sy| |sy my ey];
    try destruct sx; try destruct sy; cbn [SFcompare sf_key lex_lt orb andb negb];
    rewrite ?compare_cont_Eq, ?Z.compare_refl, ?Pos.compare_refl;
    cbn [orb andb negb];
    try (split; [discriminate | lia]);
    try (split; [lia | reflexivity]).
  - destruct (Z.compare_spec ex ey); destruct (Pos.compare_spec mx my);
      cbn [CompOpp orb]; split; intros; try discriminate; try reflexivity; lia.
  - destruct (Z.compare_spec ex ey); destruct (Pos.compare_spec mx my);
      cbn [CompOpp orb]; split; intros; try discriminate; try reflexivity; lia.
Qed.

Lemma sf_lt_false_key (x y : spec_float) :
  sf_lt x y = false <-> ~ lex_lt (sf_key x) (sf_key y).
Proof.
  rewrite <- sf_lt_key. destruct (sf_lt x y); split; congruence.
Qed.

Lemma lex_lt_asym (a b : Z * Z * Z) : lex_lt a b -> ~ lex_lt b a.
Proof. destruct a as [[a1 a2] a3], b as [[b1 b2] b3]. simpl. lia. Qed.

Lemma lex_lt_negtrans (a b c : Z * Z * Z) :
  ~ lex_lt a b -> ~ lex_lt b c -> ~ lex_lt a c.
Proof.
  destruct a as [[a1 a2] a3], b as [[b1 b2] b3], c as [[c1 c2] c3]. simpl. lia.
Qed.

Lemma npy_lt_asym (a b : float) : npy_lt a b = true -> npy_lt b a = false.
Proof.
  rewrite !npy_lt_spec, sf_lt_key, sf_lt_false_key. apply lex_lt_asym.
Qed.

Lemma npy_lt_negtrans (a b c : float) :
  npy_lt a b = false -> npy_lt b c = false -> npy_lt a c = false.
Proof.
  rewrite !npy_lt_spec, !sf_lt_false_key. apply lex_lt_negtrans.
Qed.

Lemma npy_lt_ltb (a b : float) : npy_lt a b = false -> (a <? b) = false.
Proof. unfold npy_lt. intros H. apply orb_false_iff in H. apply H. Qed.

Lemma SFeqb_key (x y : spec_float) : SFeqb x y = true -> sf_key x = sf_key y.
Proof.
  unfold SFeqb.
  destruct x as [sx|sx| |sx mx ex], y as [sy|sy| |sy my ey];
    try destruct sx; try destruct sy; cbn [SFcompare sf_key];
    rewrite ?compare_cont_Eq; try discriminate; try reflexivity.
  - destruct (Z.compare_spec ex ey); destruct (Pos.compare_spec mx my);
      cbn [CompOpp]; intros; try discriminate; subst; reflexivity.
  - destruct (Z.compare_spec ex ey); destruct (Pos.compare_spec mx my);
      cbn [CompOpp]; intros; try discriminate; subst; reflexivity.
Qed.

Lemma lex_lt_irrefl (a : Z * Z * Z) : ~ lex_lt a a.
Proof. destruct a as [[a1 a2] a3]. simpl. lia. Qed.

(** Equal scores are not ordered by [npy_lt], in either direction. *)
Lemma eqb_npy_lt (a b : float) :
  (a =? b) = true -> npy_lt a b = false /\ npy_lt b a = false.
Proof.
  rewrite eqb_spec. intros H. apply SFeqb_key in H.
  rewrite !npy_lt_spec, !sf_lt_false_key, H. split; apply lex_lt_irrefl.
Qed.

Lemma SFleb_key (x y : spec_float) :
  SFeqb x x = true -> SFeqb y y = true ->
  ~ lex_lt (sf_key x) (sf_key y) -> SFleb y x = true.
Proof.
  unfold SFleb, SFeqb.
  destruct x as [sx|sx| |sx mx ex], y as [sy|sy| |sy my ey];
    try destruct sx; try destruct sy; cbn [SFcompare sf_key lex_lt];
    rewrite ?compare_cont_Eq, ?Z.compare_refl, ?Pos.compare_refl;
    intros Hx Hy H; try reflexivity; try discriminate; try (exfalso; lia).
  - rewrite !compare_cont_Eq.
    destruct (Z.compare_spec ey ex); destruct (Pos.compare_spec my mx);
      cbn [CompOpp]; try reflexivity; exfalso; lia.
  - rewrite !compare_cont_Eq.
    destruct (Z.compare_spec ey ex); destruct (Pos.compare_spec my mx);
      cbn [CompOpp]; try reflexivity; exfalso; lia.
Qed.

(** Of two numbers, the one that is not smaller in the order of [npy_lt]
    is greater or equal. *)
Lemma npy_lt_false_leb (a b : float) :
  is_number a -> is_number b -> npy_lt a b = false -> (b <=? a) = true.
Proof.
  unfold is_number. rewrite !eqb_spec, leb_spec, npy_lt_spec, sf_lt_false_key.
  apply SFleb_key.
Qed.

End FloatOrder.

(** ** Sorting indices *)

Section Argsort.

Local Open Scope nat_scope.

Variable v : list float.

Lemma insert_index_perm (vi : nat) (l : list nat) :
  Permutation (insert_index v vi l) (vi :: l).
Proof.
  induction l as [|k l IH]; simpl; [reflexivity|].
  destruct (npy_lt (nth vi v 0%float) (nth k v 0%float)); [|reflexivity].
  rewrite IH. apply perm_swap.
Qed.

Lemma insert_index_sorted (vi : nat) (l : list nat) :
  StronglySorted (desc v) l -> Forall (fun k => k < vi) l ->
  StronglySorted (desc v) (insert_index v vi l).
Proof.
  induction 1 as [|k l Hs IH Hk]; intros Hlt; simpl.
  - constructor; constructor.
  - inversion Hlt as [|? ? Hkv Hlv]; subst.
    destruct (npy_lt (nth vi v 0%float) (nth k v 0%float)) eqn:E.
    + constructor; [apply IH, Hlv|].
      eapply Permutation_Forall; [symmetry; apply insert_index_perm|].
      constructor; [|exact Hk].
      split; [apply npy_lt_asym, E | congruence].
    + constructor; [constructor; assumption|].
      constructor; [split; [exact E | intros _; exact Hkv]|].
      rewrite Forall_forall in *. intros j Hj. split.
      * destruct (Hk j Hj) as [Hkj _]. eapply npy_lt_negtrans; eauto.
      * intros _. apply Hlv, Hj.
Qed.

Lemma argsort_loop (m a : nat) (acc : list nat) :
  StronglySorted (desc v) acc -> Permutation acc (seq 0 a) ->
  let r := fold_left (fun acc vi => insert_index v vi acc) (seq a m) acc in
  StronglySorted (desc v) r /\ Permutation r (seq 0 (a + m)).
Proof.
  revert a acc. induction m as [|m IH]; intros a acc Hs Hp; simpl.
  - rewrite Nat.add_0_r. auto.
  - replace (a + S m) with (S a + m) by lia. apply IH.
    + apply insert_index_sorted; [exact Hs|].
      eapply Permutation_Forall; [symmetry; exact Hp|].
      apply Forall_forall. intros k Hk. apply in_seq in Hk. lia.
    + rewrite insert_index_perm, seq_S. simpl.
      rewrite Hp. apply Permutation_cons_append.
Qed.

Lemma stable_argsort_rev_sorted : StronglySorted (desc v) (stable_argsort_rev v).
Proof.
  unfold stable_argsort_rev.
  apply (argsort_loop (List.length v) 0 []); constructor.
Qed.

Lemma stable_argsort_rev_perm : Permutation (stable_argsort_rev v) (seq 0 (List.length v)).
Proof.
  unfold stable_argsort_rev.
  apply (argsort_loop (List.length v) 0 []); constructor.
Qed.

Lemma stable_argsort_rev_length : List.length (stable_argsort_rev v) = List.length v.
Proof.
  rewrite (Permutation_length stable_argsort_rev_perm). apply length_seq.
Qed.

Lemma stable_argsort_rev_NoDup : NoDup (stable_argsort_rev v).
Proof.
  eapply Permutation_NoDup; [symmetry; apply stable_argsort_rev_perm | apply seq_NoDup].
Qed.

Lemma stable_argsort_rev_bound : Forall (fun i => i < List.length v) (stable_argsort_rev v).
Proof.
  eapply Permutation_Forall; [symmetry; apply stable_argsort_rev_perm|].
  apply Forall_forall. intros k Hk. apply in_seq in Hk. lia.
Qed.

End Argsort.

Lemma StronglySorted_app_inv {A : Type} (R : A -> A -> Prop) (l1 l2 : list A) :
  StronglySorted R (l1 ++ l2) ->
  StronglySorted R l1 /\ forall x y, In x l1 -> In y l2 -> R x y.
Proof.
  induction l1 as [|a l1 IH]; simpl; intros H.
  - split; [constructor | intros x y []].
  - inversion H as [|? ? Hs Hf]; subst. destruct (IH Hs) as [H1 H2].
    rewrite Forall_app in Hf. destruct Hf as [Hf1 Hf2]. split.
    + constructor; assumption.
    + intros x y [<-|Hx] Hy; [|auto]. rewrite Forall_forall in Hf2. auto.
Qed.

Lemma StronglySorted_impl {A : Type} (R S : A -> A -> Prop) (l : list A) :
  (forall x y, R x y -> S x y) -> StronglySorted R l -> StronglySorted S l.
Proof.
  intros H. induction 1 as [|a l Hs IH Hf]; constructor; [exact IH|].
  eapply Forall_impl; [|exact Hf]. auto.
Qed.

Lemma StronglySorted_app {A : Type} (R : A -> A -> Prop) (l1 l2 : list A) :
  StronglySorted R l1 -> StronglySorted R l2 ->
  (forall x y, In x l1 -> In y l2 -> R x y) ->
  StronglySorted R (l1 ++ l2).
Proof.
  intros H1 H2 H. induction H1 as [|a l1 Hs IH Hf]; simpl; [exact H2|].
  constructor.
  - apply IH. intros x y Hx Hy. apply H; [right; exact Hx | exact Hy].
  - apply Forall_app. split; [exact Hf|].
    apply Forall_forall. intros y Hy. apply H; [left; reflexivity | exact Hy].
Qed.

Lemma StronglySorted_rev {A : Type} (R : A -> A -> Prop) (l : list A) :
  StronglySorted R l -> StronglySorted (fun x y => R y x) (rev l).
Proof.
  induction 1 as [|a l Hs IH Hf]; simpl; [constructor|].
  apply StronglySorted_app; [exact IH | constructor; constructor|].
  intros x y Hx [<-|[]]. rewrite Forall_forall in Hf. apply Hf, in_rev, Hx.
Qed.

Lemma StronglySorted_and {A : Type} (R S : A -> A -> Prop) (l : list A) :
  StronglySorted R l -> StronglySorted S l ->
  StronglySorted (fun x y => R x y /\ S x y) l.
Proof.
  induction 1 as [|a l Hs IH Hf]; intros H; [constructor|].
  inversion H as [|? ? Hs' Hf']; subst. constructor; [apply IH, Hs'|].
  rewrite Forall_forall in *. auto.
Qed.

(** The insertion sort is an [argsort], and it keeps equal keys in index
    order. *)
Lemma stable_argsort_is_argsort : is_argsort stable_argsort.
Proof.
  intros v. unfold stable_argsort. split.
  - rewrite <- Permutation_rev. apply stable_argsort_rev_perm.
  - eapply StronglySorted_impl;
      [|apply StronglySorted_rev, stable_argsort_rev_sorted].
    intros i j [H _]. exact H.
Qed.

Lemma stable_argsort_keeps_index_order : keeps_index_order stable_argsort.
Proof.
  intros v. unfold stable_argsort.
  eapply StronglySorted_impl;
    [|apply StronglySorted_rev, stable_argsort_rev_sorted].
  intros i j [_ H]. exact H.
Qed.

(** *** [np.argsort(v)[::-1]] for any [argsort] *)

Section Ranking.

Local Open Scope nat_scope.

Variable argsort : list float -> list nat.
Hypothesis Hargsort : is_argsort argsort.
Variable v : list float.

Lemma argsort_rev_sorted :
  StronglySorted (fun i j => npy_lt (nth i v 0%float) (nth j v 0%float) = false)
    (rev (argsort v)).
Proof. apply StronglySorted_rev, (Hargsort v). Qed.

Lemma argsort_rev_perm : Permutation (rev (argsort v)) (seq 0 (List.length v)).
Proof. rewrite <- Permutation_rev. apply (Hargsort v). Qed.

Lemma argsort_rev_length : List.length (rev (argsort v)) = List.length v.
Proof.
  rewrite (Permutation_length argsort_rev_perm). apply length_seq.
Qed.

Lemma argsort_rev_NoDup : NoDup (rev (argsort v)).
Proof.
  eapply Permutation_NoDup; [symmetry; apply argsort_rev_perm | apply seq_NoDup].
Qed.

Lemma argsort_rev_bound : Forall (fun i => i < List.length v) (rev (argsort v)).
Proof.
  eapply Permutation_Forall; [symmetry; apply argsort_rev_perm|].
  apply Forall_forall. intros k Hk. apply in_seq in Hk. lia.
Qed.

End Ranking.

(** ** The vector store: searching *)

Section Search.

Import VectorStore.

Local Open Scope nat_scope.

Lemma scores_length (rows : list (list float)) (q : list float) :
  List.length (scores rows q) = List.length rows.
Proof. apply length_map. Qed.

Lemma similarities_consistent (rows : list (list float)) (q : list float) :
  rows <> [] -> List.length q = ncols rows ->
  similarities (Arr2 rows) q = Ok (scores rows q).
Proof.
  intros Hne Hq. unfold similarities, doc_norms, bind, dot.
  assert (Hc : ncols (map (fun r => div_scalar r (norm r)) rows)
               = List.length (div_scalar q (norm q))).
  { destruct rows as [|r rows]; [congruence|]. cbn [map ncols] in *.
    unfold div_scalar. rewrite !length_map. congruence. }
  rewrite Hc, Nat.eqb_refl. unfold scores. rewrite map_map. reflexivity.
Qed.

Lemma hits_consistent (self : t) (sims : list float) (n : nat) (idxs : list nat) :
  List.length (_documents self) = n -> List.length (_metadatas self) = n ->
  List.length (_ids self) = n ->
  Forall (fun i => i < n) idxs ->
  hits self sims idxs = Ok (map (hit_of_index self sims) idxs).
Proof.
  intros Hd Hm Hi. induction 1 as [|idx idxs Hidx _ IH]; simpl; [reflexivity|].
  rewrite IH. unfold hit_at.
  rewrite (nth_error_nth' (_ids self) [] (n := idx)) by lia.
  rewrite (nth_error_nth' (_documents self) [] (n := idx)) by lia.
  rewrite (nth_error_nth' (_metadatas self) [] (n := idx)) by lia.
  reflexivity.
Qed.

Lemma slice_to_incl {A : Type} (k : Z) (l : list A) : incl (slice_to k l) l.
Proof.
  unfold slice_to. intros x Hx.
  destruct (k <? 0)%Z;
    match type of Hx with
    | In _ (firstn ?n _) => rewrite <- (firstn_skipn n l)
    end; apply in_or_app; left; exact Hx.
Qed.

(** On a consistent store [search] succeeds and returns the records at
    the first [top_k] indices of the reversed [argsort] of the scores. *)
Lemma search_consistent (argsort : list float -> list nat) (self : t)
  (rows : list (list float)) (q : list float) (top_k : Z) :
  is_argsort argsort -> consistent self rows -> List.length q = ncols rows ->
  search argsort self q top_k
  = Ok (map (hit_of_index self (scores rows q))
          (slice_to top_k (rev (argsort (scores rows q))))).
Proof.
  intros Ha [He [Hne [Hr [Hd [Hm Hi]]]]] Hq. unfold search. rewrite He.
  assert (Hlen : (len (_documents self) =? 0)%Z = false).
  { apply Z.eqb_neq. unfold len. rewrite Hd. destruct rows; [congruence|].
    simpl. lia. }
  rewrite Hlen, (similarities_consistent rows q Hne Hq). unfold bind, top_indices.
  apply hits_consistent with (n := List.length rows); try assumption.
  apply Forall_forall. intros i Hin. apply slice_to_incl in Hin.
  pose proof (argsort_rev_bound argsort Ha (scores rows q)) as Hb.
  rewrite Forall_forall in Hb. rewrite <- (scores_length rows q). auto.
Qed.

(** The first [k] indices of [np.argsort(s)[::-1]]: they are distinct
    indices of [s], no key is smaller than a later one, and no index left
    out has a greater key than one of them. *)
Lemma ranking_prefix (argsort : list float -> list nat) (s : list float)
  (k : nat) :
  is_argsort argsort ->
  let idxs := firstn k (rev (argsort s)) in
  List.length idxs = Nat.min k (List.length s)
  /\ NoDup idxs
  /\ Forall (fun i => i < List.length s) idxs
  /\ StronglySorted
       (fun i j => npy_lt (nth i s 0%float) (nth j s 0%float) = false) idxs
  /\ (forall i j,
        In i idxs -> j < List.length s -> ~ In j idxs ->
        npy_lt (nth i s 0%float) (nth j s 0%float) = false).
Proof.
  intros Ha idxs. subst idxs.
  pose proof (argsort_rev_sorted argsort Ha s) as Hsorted.
  pose proof (argsort_rev_NoDup argsort Ha s) as Hnd.
  pose proof (argsort_rev_bound argsort Ha s) as Hb.
  pose proof (argsort_rev_perm argsort Ha s) as Hp.
  rewrite <- (firstn_skipn k (rev (argsort s))) in Hsorted, Hnd, Hb, Hp.
  destruct (StronglySorted_app_inv _ _ _ Hsorted) as [Hs1 Hs2].
  split; [rewrite length_firstn, (argsort_rev_length argsort Ha); reflexivity|].
  split; [eapply NoDup_app_remove_r; exact Hnd|].
  split; [apply Forall_app in Hb; apply Hb|].
  split; [exact Hs1|].
  intros i j Hi Hj Hnj.
  assert (Hin : In j (firstn k (rev (argsort s)) ++ skipn k (rev (argsort s)))).
  { eapply Permutation_in; [symmetry; exact Hp|]. apply in_seq. lia. }
  apply in_app_or in Hin. destruct Hin as [Hin|Hin]; [contradiction|].
  apply Hs2; assumption.
Qed.

(** With an [argsort] that keeps equal keys in index order, the later of
    two indices with equal keys comes first in the reversed order. *)
Lemma ranking_ties (argsort : list float -> list nat) (s : list float)
  (k : nat) :
  is_argsort argsort -> keeps_index_order argsort ->
  StronglySorted (ranked s) (firstn k (rev (argsort s))).
Proof.
  intros Ha Hk.
  pose proof (StronglySorted_and _ _ _ (proj2 (Ha s)) (Hk s)) as H.
  apply StronglySorted_rev in H.
  rewrite <- (firstn_skipn k (rev (argsort s))) in H.
  destruct (StronglySorted_app_inv _ _ _ H) as [H1 _].
  eapply StronglySorted_impl; [|exact H1].
  intros i j [Hij Hji]. split; [apply npy_lt_ltb, Hij|].
  intros He. apply Hji. apply (eqb_npy_lt _ _ He).
Qed.

(** A [top_k] that reaches every record returns all of them. *)
Lemma search_all (argsort : list float -> list nat) (self : t)
  (rows : list (list float)) (q : list float) (top_k : Z) :
  is_argsort argsort -> consistent self rows -> List.length q = ncols rows ->
  (Z.of_nat (List.length rows) <= top_k)%Z ->
  search argsort self q top_k
  = Ok (map (hit_of_index self (scores rows q)) (rev (argsort (scores rows q))))
  /\ Permutation (rev (argsort (scores rows q))) (seq 0 (List.length rows)).
Proof.
  intros Ha Hc Hq Hk. rewrite (search_consistent argsort self rows q top_k Ha Hc Hq).
  split.
  - f_equal. f_equal. unfold slice_to.
    destruct (top_k <? 0)%Z eqn:E; [apply Z.ltb_lt in E; lia|].
    apply firstn_all2.
    rewrite (argsort_rev_length argsort Ha), scores_length. lia.
  - rewrite <- (scores_length rows q). apply (argsort_rev_perm argsort Ha).
Qed.

Lemma rectangular_app (a b : list (list float)) :
  rectangular a = true -> rectangular b = true ->
  (a <> [] -> ncols a = ncols b) -> rectangular (a ++ b) = true.
Proof.
  intros Ha Hb Hn. destruct a as [|r a]; [exact Hb|].
  specialize (Hn ltac:(discriminate)). unfold rectangular in *.
  change (ncols ((r :: a) ++ b)) with (ncols (r :: a)).
  rewrite forallb_app, Ha. cbn [andb].
  rewrite forallb_forall in *. intros x Hx. rewrite Hn. apply Hb, Hx.
Qed.

(** [add_documents] with one vector, one metadata and one id per document,
    the vectors of the stored length, turns an empty or a consistent store
    into a consistent one. *)
Lemma add_documents_consistent (uuid4 : nat -> str) (self : t)
  (documents : list str) (embeddings : list (list float))
  (metadatas : option (list dict)) (ids : option (list str))
  (stored : list (list float)) :
  documents <> [] ->
  List.length embeddings = List.length documents ->
  rectangular embeddings = true ->
  List.length (metadatas_or documents metadatas) = List.length documents ->
  List.length (ids_or uuid4 documents ids) = List.length documents ->
  (_embeddings self = None /\ stored = [] /\ _documents self = []
   /\ _metadatas self = [] /\ _ids self = []
   \/ consistent self stored /\ ncols stored = ncols embeddings) ->
  consistent (snd (add_documents uuid4 self documents embeddings metadatas ids))
    (stored ++ embeddings).
Proof.
  intros Hd Hl Hr Hm Hi Hs.
  assert (He : embeddings <> [])
    by (intros ->; destruct documents; [congruence | discriminate]).
  unfold add_documents. destruct documents as [|d documents]; [congruence|].
  cbn [truthy negb]. rewrite (rectangular_array _ He Hr).
  destruct Hs as [[Hn [-> [H1 [H2 H3]]]]|[[Hn [Hne [Hrs [H1 [H2 H3]]]]] Hc]];
    rewrite Hn.
  - cbn [snd app]. unfold consistent. cbn. rewrite H1, H2, H3. cbn [app].
    repeat split; auto; congruence.
  - unfold vstack. cbn [atleast_2d bind]. apply Nat.eqb_eq in Hc. rewrite Hc.
    apply Nat.eqb_eq in Hc.
    cbn [snd]. unfold consistent. cbn. rewrite !length_app.
    repeat split; try congruence.
    + destruct stored; [congruence | discriminate].
    + apply rectangular_app; auto.
Qed.

(** C7. [search] returns the empty list on a collection without records,
    for every [top_k]; on a collection of [n] records a [top_k] of [n] or
    more returns all [n] records, each once, with its score. *)
Theorem search_empty_and_all (argsort : list float -> list nat) (self : t)
  (q : list float) (top_k : Z) :
  (_embeddings self = None \/ _documents self = [] ->
   search argsort self q top_k = Ok [])
  /\ (forall rows,
        is_argsort argsort ->
        consistent self rows -> List.length q = ncols rows ->
        (Z.of_nat (List.length rows) <= top_k)%Z ->
        exists hs,
          search argsort self q top_k = Ok hs
          /\ List.length hs = List.length rows
          /\ Permutation hs
               (map (hit_of_index self (scores rows q))
                  (seq 0 (List.length rows)))).
Proof.
  split.
  - intros [H|H]; unfold search.
    + rewrite H. reflexivity.
    + rewrite H. destruct (_embeddings self); reflexivity.
  - intros rows Ha Hc Hq Hk.
    destruct (search_all argsort self rows q top_k Ha Hc Hq Hk) as [Hs Hp].
    eexists. split; [exact Hs|]. split.
    + rewrite length_map, (Permutation_length Hp). apply length_seq.
    + apply Permutation_map, Hp.
Qed.

(** The scenario of the specification: after
    [add_documents(["a", "b"], [[1, 0], [0, 1]])], [search([1, 0], top_k=1)]
    returns the record of ["a"] with score [1.0]. *)
Example search_scenario :
  search stable_argsort Examples.ab_store [1; 0]%float 1
  = Ok [ {| hit_id := of_string "id-0"; hit_content := of_string "a";
            hit_metadata := []; hit_score := 1%float |} ].
Proof. vm_compute. reflexivity. Qed.

Lemma search_empty_and_all_witness :
  search stable_argsort Examples.fresh_store [1; 0]%float 3 = Ok []
  /\ exists hs,
       search stable_argsort Examples.ab_store [1; 0]%float 3 = Ok hs
       /\ List.length hs = 2
       /\ Permutation hs
            (map (hit_of_index Examples.ab_store
                    (scores [[1; 0]; [0; 1]]%float [1; 0]%float))
               (seq 0 2)).
Proof.
  split.
  - apply (proj1 (search_empty_and_all stable_argsort Examples.fresh_store
                    [1; 0]%float 3)).
    left. reflexivity.
  - apply (proj2 (search_empty_and_all stable_argsort Examples.ab_store
                    [1; 0]%float 3)
             [[1; 0]; [0; 1]]%float).
    + exact stable_argsort_is_argsort.
    + repeat split; try reflexivity. discriminate.
    + reflexivity.
    + simpl. lia.
Defined.

(** A record whose score is NaN comes before every other: in the store of
    the zero vector of ["z"] and the vector [[1, 0]] of ["a"], the one
    result for the query [[1, 0]] is ["z"], whatever [argsort] does with
    equal keys. *)
Lemma search_nan_first (argsort : list float -> list nat) :
  is_argsort argsort ->
  scores [[0; 0]; [1; 0]]%float [1; 0]%float = [nan; 1]%float
  /\ search argsort Examples.zero_store [1; 0]%float 1
     = Ok [ {| hit_id := of_string "id-0"; hit_content := of_string "z";
               hit_metadata := []; hit_score := nan |} ].
Proof.
  intros Ha.
  assert (Es : scores [[0; 0]; [1; 0]]%float [1; 0]%float = [nan; 1]%float)
    by (vm_compute; reflexivity).
  split; [exact Es|].
  rewrite (search_consistent argsort Examples.zero_store
             [[0; 0]; [1; 0]]%float [1; 0]%float 1 Ha);
    [|repeat split; try reflexivity; discriminate | reflexivity].
  rewrite Es. change (slice_to 1 (rev (argsort [nan; 1]%float)))
    with (firstn 1 (rev (argsort [nan; 1]%float))).
  destruct (ranking_prefix argsort [nan; 1]%float 1 Ha) as [Hl [_ [Hb [_ Ho]]]].
  destruct (firstn 1 (rev (argsort [nan; 1]%float))) as [|i [|i' l]];
    try discriminate.
  inversion Hb as [|? ? Hi _]; subst. cbn [List.length] in Hi.
  destruct i as [|[|i]]; [vm_compute; reflexivity | | lia].
  exfalso. specialize (Ho 1 0 (or_introl eq_refl) ltac:(simpl; lia)).
  assert (Hn : ~ In 0 [1]) by (intros [H|[]]; discriminate).
  specialize (Ho Hn). vm_compute in Ho. discriminate.
Qed.

(** C3, as the code has it. On a collection of [n] records, and for
    [top_k >= 0], [search] returns [min(top_k, n)] distinct records in an
    order in which no score is smaller than a later one and no record left
    out scores higher than a returned one, in the order of NumPy, in which
    a NaN score is the greatest; when no score is NaN this is the order of
    the numbers. The order of records with equal scores is that of
    [np.argsort], read backwards: where [argsort] keeps equal keys in index
    order, they come in the reverse of the order in which they were
    added. *)
Theorem search_ranking (argsort : list float -> list nat) (self : t)
  (rows : list (list float)) (q : list float) (top_k : Z) :
  is_argsort argsort ->
  consistent self rows -> List.length q = ncols rows -> (0 <= top_k)%Z ->
  exists idxs,
    search argsort self q top_k
    = Ok (map (hit_of_index self (scores rows q)) idxs)
    /\ List.length idxs = Nat.min (Z.to_nat top_k) (List.length rows)
    /\ NoDup idxs
    /\ Forall (fun i => i < List.length rows) idxs
    /\ StronglySorted
         (fun i j =>
            npy_lt (nth i (scores rows q) 0%float) (nth j (scores rows q) 0%float)
            = false) idxs
    /\ (forall i j,
          In i idxs -> j < List.length rows -> ~ In j idxs ->
          npy_lt (nth i (scores rows q) 0%float) (nth j (scores rows q) 0%float)
          = false)
    /\ (Forall is_number (scores rows q) ->
        StronglySorted
          (fun i j =>
             (nth j (scores rows q) 0 <=? nth i (scores rows q) 0)%float = true)
          idxs
        /\ (forall i j,
              In i idxs -> j < List.length rows -> ~ In j idxs ->
              (nth j (scores rows q) 0 <=? nth i (scores rows q) 0)%float = true))
    /\ (keeps_index_order argsort -> StronglySorted (ranked (scores rows q)) idxs).
Proof.
  intros Ha Hc Hq Hk.
  rewrite (search_consistent argsort self rows q top_k Ha Hc Hq).
  set (s := scores rows q).
  rewrite (slice_to_nonneg top_k _ Hk). set (k := Z.to_nat top_k).
  destruct (ranking_prefix argsort s k Ha) as [Hl [Hnd [Hb [Hs Ho]]]].
  assert (Hls : List.length s = List.length rows) by apply scores_length.
  rewrite Hls in *.
  exists (firstn k (rev (argsort s))). split; [reflexivity|].
  split; [exact Hl|]. split; [exact Hnd|]. split; [exact Hb|].
  split; [exact Hs|]. split; [exact Ho|]. split.
  - intros Hnum.
    assert (Hn : forall i, i < List.length rows -> is_number (nth i s 0%float)).
    { intros i Hi. rewrite Forall_forall in Hnum. apply Hnum, nth_In. lia. }
    rewrite Forall_forall in Hb. split.
    + clear Ho Hl Hnd. induction Hs as [|i l Hs' IH Hf]; constructor.
      * apply IH. intros x Hx. apply Hb. right. exact Hx.
      * rewrite Forall_forall in *. intros j Hj.
        apply npy_lt_false_leb;
          [apply Hn, Hb; left; reflexivity | apply Hn, Hb; right; exact Hj
          | apply Hf, Hj].
    + intros i j Hi Hj Hnj. apply npy_lt_false_leb; [apply Hn, Hb, Hi | apply Hn, Hj|].
      apply Ho; assumption.
  - intros Hstable. apply ranking_ties; assumption.
Qed.

Lemma search_ranking_witness :
  exists idxs,
    search stable_argsort Examples.ab_store [0; 2]%float 2
    = Ok (map (hit_of_index Examples.ab_store
                 (scores [[1; 0]; [0; 1]]%float [0; 2]%float)) idxs)
    /\ idxs = [1; 0]
    /\ scores [[1; 0]; [0; 1]]%float [0; 2]%float = [0; 1]%float.
Proof.
  destruct (search_ranking stable_argsort Examples.ab_store
              [[1; 0]; [0; 1]]%float [0; 2]%float 2)
    as [idxs [Hs [Hl [_ [Hb [_ [_ [Hnum _]]]]]]]].
  - exact stable_argsort_is_argsort.
  - repeat split; try reflexivity. discriminate.
  - reflexivity.
  - lia.
  - assert (Es : scores [[1; 0]; [0; 1]]%float [0; 2]%float = [0; 1]%float)
      by (vm_compute; reflexivity).
    exists idxs. split; [exact Hs|]. split; [|exact Es].
    rewrite Es in Hnum.
    destruct Hnum as [Hsorted _];
      [repeat constructor|].
    destruct idxs as [|i [|j [|? ?]]]; try discriminate.
    inversion Hb as [|? ? Hi Hb']; subst. inversion Hb' as [|? ? Hj _]; subst.
    cbn [List.length] in Hi, Hj.
    inversion Hsorted as [|? ? _ Hf]; subst. inversion Hf as [|? ? Hij _]; subst.
    destruct i as [|[|i]]; [|destruct j as [|[|j]]|]; try lia;
      try reflexivity; vm_compute in Hij; discriminate.
Defined.

(** C3 fails as stated, in two ways. A record with a vector of magnitude
    zero scores NaN, which [np.argsort] puts last and [search] so first:
    the one result for [[1, 0]] is ["z"], and ["a"], which scores [1.0], is
    left out, whatever the order of equal keys. And with an [argsort] that
    keeps equal keys in index order, as the stable sort named by the
    specification does, the two records of a store with the same vector,
    ["a"] added before ["b"], come back as ["b"], ["a"]. *)
Lemma search_order_not_as_claimed :
  (forall argsort, is_argsort argsort ->
     scores [[0; 0]; [1; 0]]%float [1; 0]%float = [nan; 1]%float
     /\ search argsort Examples.zero_store [1; 0]%float 1
        = Ok [ {| hit_id := of_string "id-0"; hit_content := of_string "z";
                  hit_metadata := []; hit_score := nan |} ])
  /\ is_argsort stable_argsort
  /\ keeps_index_order stable_argsort
  /\ _documents Examples.twin_store = [of_string "a"; of_string "b"]
  /\ search stable_argsort Examples.twin_store [1; 0]%float 2
     = Ok [ {| hit_id := of_string "id-1"; hit_content := of_string "b";
               hit_metadata := []; hit_score := 1%float |};
            {| hit_id := of_string "id-0"; hit_content := of_string "a";
               hit_metadata := []; hit_score := 1%float |} ].
Proof.
  split; [exact search_nan_first|].
  split; [exact stable_argsort_is_argsort|].
  split; [exact stable_argsort_keeps_index_order|].
  split; vm_compute; reflexivity.
Qed.

(** *** Vectors of magnitude zero *)















End Search.

(** ** More on the chunker *)

Section ChunkerMore.

Import TextProcessor.

Lemma collapsed_sub_whitespace (b : bool) (s : str) :
  collapsed b (sub_whitespace b s) = true.
Proof.
  revert b. induction s as [|c s IH]; intros b; simpl; [reflexivity|].
  destruct (isspace c) eqn:E.
  - destruct b; [apply IH|]. cbn [collapsed]. rewrite isspace_SPACE, N.eqb_refl.
    simpl. apply IH.
  - cbn [collapsed]. rewrite E. apply IH.
Qed.

Lemma collapsed_fixed (b : bool) (s : str) :
  collapsed b s = true -> sub_whitespace b s = s.
Proof.
  revert b. induction s as [|c s IH]; intros b H; simpl in *; [reflexivity|].
  destruct (isspace c).
  - apply andb_true_iff in H. destruct H as [H Hs].
    apply andb_true_iff in H. destruct H as [Hc Hb].
    apply N.eqb_eq in Hc. subst c. destruct b; [discriminate|].
    rewrite (IH true Hs). reflexivity.
  - rewrite (IH false H). reflexivity.
Qed.

Lemma collapsed_weaken (b : bool) (s : str) :
  collapsed b s = true -> collapsed false s = true.
Proof.
  destruct s as [|c s]; simpl; [reflexivity|].
  destruct (isspace c); [|exact (fun H => H)].
  intros H. apply andb_true_iff in H. destruct H as [H Hs].
  apply andb_true_iff in H. destruct H as [Hc _]. rewrite Hc, Hs. reflexivity.
Qed.

Lemma collapsed_app_r (b : bool) (p s : str) :
  collapsed b (p ++ s) = true -> collapsed false s = true.
Proof.
  revert b. induction p as [|c p IH]; intros b H; simpl in *.
  - eapply collapsed_weaken, H.
  - destruct (isspace c); [|eapply IH, H].
    apply andb_true_iff in H. destruct H as [_ H]. eapply IH, H.
Qed.

Lemma collapsed_app_l (b : bool) (s q : str) :
  collapsed b (s ++ q) = true -> collapsed b s = true.
Proof.
  revert b. induction s as [|c s IH]; intros b H; simpl in *; [reflexivity|].
  destruct (isspace c); [|eapply IH, H].
  apply andb_true_iff in H. destruct H as [H Hs]. rewrite H. simpl. eapply IH, Hs.
Qed.

Lemma collapsed_strip (s : str) :
  collapsed false s = true -> collapsed false (strip s) = true.
Proof.
  intros H. unfold strip.
  destruct (lstrip_split s) as [p [Hs _]].
  destruct (rstrip_split (lstrip s)) as [q [Hl _]].
  rewrite Hs in H. apply collapsed_app_r in H. rewrite Hl in H.
  eapply collapsed_app_l, H.
Qed.

Lemma collapsed_no_double_space (b : bool) (a r : str) :
  collapsed b (a ++ SPACE :: SPACE :: r) = false.
Proof.
  revert b. induction a as [|c a IH]; intros b; simpl.
  - destruct b; reflexivity.
  - destruct (isspace c); [|apply IH]. rewrite IH. apply andb_false_r.
Qed.

Lemma strip_trimmed_id (s : str) : s = [] \/ trimmed s -> strip s = s.
Proof.
  intros [->|[[c [r [Hs Hc]]] He]]; [reflexivity|].
  unfold strip. rewrite Hs, (lstrip_id c r Hc), <- Hs. apply rstrip_ends_id, He.
Qed.

(** X1. [clean_text] returns a normal form: the result is empty or begins
    and ends with a character that is not whitespace, its only whitespace
    are single spaces (no newline, no two spaces in a row), and cleaning it
    again changes nothing. *)
Theorem clean_text_normal_form (text : str) :
  let c := clean_text text in
  (c = [] \/ trimmed c)
  /\ plain c
  /\ ~ In NEWLINE c
  /\ (forall a r, c <> a ++ SPACE :: SPACE :: r)
  /\ clean_text c = c.
Proof.
  intros c. subst c. rewrite clean_text_eq.
  set (w := sub_whitespace false text).
  assert (Hcol : collapsed false (strip w) = true)
    by (apply collapsed_strip, collapsed_sub_whitespace).
  assert (Hplain : plain (strip w)) by (apply strip_plain, sub_whitespace_plain).
  split; [apply strip_trimmed|]. split; [exact Hplain|]. split; [|split].
  - intros Hin. unfold plain in Hplain. rewrite Forall_forall in Hplain.
    specialize (Hplain _ Hin isspace_NEWLINE). discriminate.
  - intros a r E. rewrite E, collapsed_no_double_space in Hcol. discriminate.
  - rewrite clean_text_eq, (collapsed_fixed false _ Hcol).
    apply strip_trimmed_id, strip_trimmed.
Qed.

Lemma overlap_loop_trimmed (self : t) (rest : list str) (prev : str) :
  0 < chunk_overlap self ->
  trimmed prev -> Forall trimmed rest ->
  Forall trimmed (overlap_loop self prev rest).
Proof.
  intros Hk Hp H. revert prev Hp.
  induction H as [|c rest Hc _ IH]; intros prev Hp; simpl; constructor.
  - destruct (overlapped_spec self prev c Hk Hp Hc) as [H1 [[x [o' [Ho Hx]]] _]].
    rewrite H1, Ho. split.
    + exists x, (o' ++ SPACE :: c). auto.
    + destruct Hc as [_ He].
      apply ends_nonspace_app with (a := (x :: o') ++ [SPACE]) in He.
      rewrite <- app_assoc in He. exact He.
  - apply IH, Hc.
Qed.

(** X2. [split_text] raises nothing ([_add_overlap] reads [chunks[0]] of
    two chunks or more only), and no chunk it returns is empty or begins
    or ends with whitespace; without overlap, or with one chunk at most,
    the chunks are those of [pre_overlap]. *)
Theorem split_text_chunks_trimmed (self : t) (text : str) :
  exists chunks,
    split_text self text = Ok chunks
    /\ Forall trimmed chunks
    /\ Forall (fun c => c <> []) chunks
    /\ (chunk_overlap self <= 0 \/ len (pre_overlap self text) <= 1 ->
        chunks = pre_overlap self text).
Proof.
  rewrite split_text_cases.
  pose proof (pre_overlap_trimmed self text) as Ht.
  assert (Hne : forall l, Forall trimmed l -> Forall (fun c : str => c <> []) l).
  { intros l Hl. eapply Forall_impl; [|exact Hl].
    intros c [[x [r [-> _]]] _]. discriminate. }
  destruct ((chunk_overlap self >? 0) && (len (pre_overlap self text) >? 1)) eqn:E.
  - apply andb_true_iff in E. destruct E as [Ek El].
    rewrite Z.gtb_ltb in Ek, El. apply Z.ltb_lt in Ek, El.
    destruct (pre_overlap self text) as [|c0 rest] eqn:Em; [discriminate|].
    inversion Ht as [|? ? Hc0 Hrest]; subst.
    assert (Hall : Forall trimmed (c0 :: overlap_loop self c0 rest))
      by (constructor; [exact Hc0 | apply overlap_loop_trimmed; assumption]).
    exists (c0 :: overlap_loop self c0 rest). simpl _add_overlap.
    split; [reflexivity|]. split; [exact Hall|]. split; [apply Hne, Hall|].
    intros [H|H]; lia.
  - exists (pre_overlap self text). split; [reflexivity|].
    split; [exact Ht|]. split; [apply Hne, Ht | reflexivity].
Qed.

(** *** Splitting on a separator *)

Lemma startswith_app (p s : str) :
  startswith p s = true -> exists r, s = p ++ r.
Proof.
  revert s. induction p as [|a p IH]; intros s H; [exists s; reflexivity|].
  destruct s as [|b s]; [discriminate|]. cbn [startswith] in H.
  apply andb_true_iff in H. destruct H as [Hab H]. apply N.eqb_eq in Hab.
  subst b. destruct (IH s H) as [r ->]. exists r. reflexivity.
Qed.

Lemma split_from_nonempty (sep s : str) (k : nat) (cur : str) :
  split_from sep s k cur <> [].
Proof.
  revert k cur. induction s as [|c s IH]; intros k cur; simpl; [discriminate|].
  destruct k; [|apply IH].
  destruct (startswith sep (c :: s)); [discriminate | apply IH].
Qed.

Lemma join_cons (sep p : str) (ps : list str) :
  ps <> [] -> join sep (p :: ps) = p ++ sep ++ join sep ps.
Proof. destruct ps; [congruence | reflexivity]. Qed.

(** Joining the pieces with the separator gives the text back. *)
Lemma split_from_join (sep s : str) :
  sep <> [] ->
  forall k cur,
    (k <= List.length s)%nat ->
    join sep (split_from sep s k cur) = rev cur ++ skipn k s.
Proof.
  intros Hsep. induction s as [|c s IH]; intros k cur Hk.
  - simpl in Hk. replace k with O by lia. simpl. rewrite app_nil_r. reflexivity.
  - destruct k as [|k]; cbn [split_from].
    + destruct (startswith sep (c :: s)) eqn:E.
      * rewrite join_cons by apply split_from_nonempty.
        destruct (startswith_app _ _ E) as [r Hr].
        destruct sep as [|a sep]; [congruence|]. simpl in Hr.
        injection Hr as <- ->.
        rewrite IH by (simpl; rewrite length_app; lia).
        simpl. rewrite Nat.sub_0_r, skipn_app, skipn_all, Nat.sub_diag.
        reflexivity.
      * rewrite IH by lia. simpl. rewrite <- app_assoc. reflexivity.
    + rewrite IH by (simpl in Hk; lia). reflexivity.
Qed.

Lemma flat_map_fits (self : t) (rest : list str) (pieces : list str) :
  Forall (fun p => len p <= chunk_size self) pieces ->
  flat_map
    (fun split =>
       if len split <=? chunk_size self then [split]
       else _recursive_split self split rest) pieces
  = pieces.
Proof.
  induction 1 as [|p pieces Hp _ IH]; simpl; [reflexivity|].
  apply Z.leb_le in Hp. rewrite Hp, IH. reflexivity.
Qed.

(** X3. When every piece of [text.split(separator)] fits in [chunk_size],
    [_recursive_split] returns exactly these pieces, and joining them with
    the separator gives the text back: nothing but the separators is
    taken out. *)
Theorem recursive_split_one_level (self : t) (text separator : str)
  (remaining_separators : list str) :
  separator <> [] ->
  Forall (fun p => len p <= chunk_size self) (split separator text) ->
  _recursive_split self text (separator :: remaining_separators)
  = split separator text
  /\ join separator
       (_recursive_split self text (separator :: remaining_separators))
     = text.
Proof.
  intros Hsep Hfit.
  assert (E : _recursive_split self text (separator :: remaining_separators)
              = split separator text).
  { cbn [_recursive_split]. destruct separator as [|a sep]; [congruence|].
    apply flat_map_fits, Hfit. }
  rewrite E. split; [reflexivity|].
  unfold split. rewrite (split_from_join separator text Hsep 0 []) by lia.
  reflexivity.
Qed.

Lemma recursive_split_one_level_witness :
  _recursive_split Examples.small_processor Examples.two_words
    ([SPACE] :: [[]])
  = [of_string "aaaaaaaaaa"; of_string "bbbbbbbbbb"]
  /\ join [SPACE]
       (_recursive_split Examples.small_processor Examples.two_words
          ([SPACE] :: [[]]))
     = Examples.two_words.
Proof.
  apply (recursive_split_one_level Examples.small_processor Examples.two_words
           [SPACE] [[]]).
  - discriminate.
  - vm_compute. repeat constructor; discriminate.
Defined.

Lemma recursive_split_chars (self : t) (P : char -> Prop) (seps : list str) :
  forall text,
    Forall P text -> Forall (Forall P) (_recursive_split self text seps).
Proof.
  assert (Hsplit : forall sep s k cur,
            Forall P s -> Forall P cur -> Forall (Forall P) (split_from sep s k cur)).
  { intros sep s. induction s as [|c s IH]; intros k cur Hs Hcur; simpl.
    - constructor; [apply Forall_rev, Hcur | constructor].
    - inversion Hs as [|? ? Hc Hs']; subst.
      destruct k as [|k]; [|apply IH; assumption].
      destruct (startswith sep (c :: s)).
      + constructor; [apply Forall_rev, Hcur|]. apply IH; [assumption | constructor].
      + apply IH; [assumption | constructor; assumption]. }
  induction seps as [|sep seps IH]; intros text Ht; simpl.
  - constructor; [exact Ht | constructor].
  - destruct sep as [|c sep].
    + apply Forall_forall. intros p Hp. apply in_map_iff in Hp.
      destruct Hp as [x [<- Hx]]. constructor; [|constructor].
      rewrite Forall_forall in Ht. auto.
    + apply Forall_forall. intros p Hp. apply in_flat_map in Hp.
      destruct Hp as [piece [Hpiece Hp]].
      assert (Hpl : Forall P piece).
      { pose proof (Hsplit (c :: sep) text O [] Ht (Forall_nil _)) as HF.
        rewrite Forall_forall in HF. apply HF, Hpiece. }
      destruct (len piece <=? chunk_size self).
      * destruct Hp as [<-|[]]. exact Hpl.
      * pose proof (IH piece Hpl) as HF. rewrite Forall_forall in HF. auto.
Qed.

(** X4. With [chunk_size >= 1] and the empty string among the separators,
    every piece [_recursive_split] returns fits in [chunk_size], whatever
    the text; and every character of a piece is a character of the text. *)
Theorem recursive_split_pieces_fit (self : t) (text : str) (seps : list str) :
  1 <= chunk_size self -> In [] seps ->
  Forall (fun p => len p <= chunk_size self /\ incl p text)
    (_recursive_split self text seps).
Proof.
  intros Hcs Hin.
  pose proof (recursive_split_bound self seps Hcs Hin text) as Hb.
  pose proof (recursive_split_chars self (fun c => In c text) seps text
                ltac:(apply Forall_forall; auto)) as Hc.
  rewrite Forall_forall in *. intros p Hp. split; [apply Hb, Hp|].
  intros c Hcp. specialize (Hc p Hp). rewrite Forall_forall in Hc. auto.
Qed.

Lemma recursive_split_pieces_fit_witness :
  Forall (fun p => len p <= 10 /\ incl p Examples.two_words)
    (_recursive_split Examples.small_processor Examples.two_words
       (separators Examples.small_processor)).
Proof.
  apply (recursive_split_pieces_fit Examples.small_processor Examples.two_words
           (separators Examples.small_processor)).
  - vm_compute. discriminate.
  - vm_compute. auto 10.
Defined.

End ChunkerMore.

(** ** Chunk records *)

Section ChunkRecords.

Import VectorStore Chunks.

Lemma str_eqb_eq (a b : str) : str_eqb a b = true <-> a = b.
Proof.
  unfold str_eqb. destruct (list_eq_dec N.eq_dec a b); split; congruence.
Qed.

Lemma dict_get_set_same (d : dict) (k : str) (v : value) :
  dict_get (dict_set d k v) k = Some v.
Proof.
  induction d as [|[k' v'] d IH]; simpl.
  - rewrite str_eqb_refl. reflexivity.
  - destruct (str_eqb k' k) eqn:E; simpl; rewrite E; [reflexivity | exact IH].
Qed.

Lemma dict_get_set_other (d : dict) (k k' : str) (v : value) :
  k <> k' -> dict_get (dict_set d k v) k' = dict_get d k'.
Proof.
  intros Hk. induction d as [|[k0 v0] d IH]; simpl.
  - rewrite str_eqb_neq by exact Hk. reflexivity.
  - destruct (str_eqb k0 k) eqn:E; simpl.
    + apply str_eqb_eq in E. subst k0. rewrite str_eqb_neq by exact Hk.
      reflexivity.
    + rewrite IH. reflexivity.
Qed.

Lemma skipn_cons_nth {A : Type} (l : list A) (n : nat) (x : A) (r : list A) :
  skipn n l = x :: r -> nth_error l n = Some x /\ skipn (S n) l = r.
Proof.
  revert l. induction n as [|n IH]; intros l H.
  - simpl in H. subst l. auto.
  - destruct l as [|a l]; [discriminate|]. simpl in H. apply IH in H. exact H.
Qed.

Lemma split_text_chunks_of (self : TextProcessor.t) (doc : document) :
  TextProcessor.split_text self (content_of doc) = Ok (chunks_of self doc).
Proof.
  unfold chunks_of.
  destruct (split_text_never_raises self (content_of doc)) as [chunks ->].
  reflexivity.
Qed.

Lemma yield_chunks_content (md : dict) (i start : nat) (total : Z)
  (rest : list str) :
  map chunk_content (yield_chunks md i start total rest) = rest.
Proof.
  revert start. induction rest as [|c rest IH]; intros start; simpl;
    [|rewrite IH]; reflexivity.
Qed.

Lemma yield_chunks_tagged (md : dict) (i : nat) (total : Z) (all rest : list str) :
  forall start,
    skipn start all = rest ->
    Forall (fun ch => exists j,
                nth_error all j = Some (chunk_content ch)
                /\ chunk_metadata ch = chunk_metadata_of md i j total)
      (yield_chunks md i start total rest).
Proof.
  induction rest as [|c rest IH]; intros start H; simpl; constructor.
  - exists start. simpl. apply skipn_cons_nth in H. split; [apply H | reflexivity].
  - apply IH. apply skipn_cons_nth in H. apply H.
Qed.

Lemma process_from_spec (self : TextProcessor.t) (all documents : list document) :
  forall doc_idx,
    skipn doc_idx all = documents ->
    exists chunks,
      process_from self doc_idx documents = Ok chunks
      /\ map chunk_content chunks = flat_map (chunks_of self) documents
      /\ Forall (tagged self all) chunks.
Proof.
  induction documents as [|doc documents IH]; intros doc_idx H.
  - exists []. repeat split. constructor.
  - apply skipn_cons_nth in H. destruct H as [Hn Hs].
    destruct (IH (S doc_idx) Hs) as [more [Hm [Hc Ht]]].
    cbn [process_from]. fold (content_of doc). fold (metadata_of doc).
    rewrite split_text_chunks_of. cbn [bind]. rewrite Hm. cbn [bind].
    eexists. split; [reflexivity|]. split.
    + rewrite map_app, yield_chunks_content, Hc. reflexivity.
    + apply Forall_app. split; [|exact Ht].
      eapply Forall_impl;
        [|apply (yield_chunks_tagged (metadata_of doc) doc_idx
                   (len (chunks_of self doc)) (chunks_of self doc)
                   (chunks_of self doc) 0 eq_refl)].
      intros ch [j [Hj Hmd]]. exists doc_idx, j, doc. auto.
Qed.

(** X5. [process_documents] raises nothing and yields, in the order of
    the documents, the chunks [split_text] gives for the content of each;
    a document with no content, or with whitespace only, yields nothing. *)
Theorem process_documents_contents (self : TextProcessor.t)
  (documents : list document) :
  exists chunks,
    process_documents self documents = Ok chunks
    /\ map chunk_content chunks = flat_map (chunks_of self) documents
    /\ (forall doc, forallb isspace (content_of doc) = true ->
                    chunks_of self doc = []).
Proof.
  destruct (process_from_spec self documents documents 0 eq_refl)
    as [chunks [H1 [H2 _]]].
  exists chunks. split; [exact H1|]. split; [exact H2|].
  intros doc Hd. unfold chunks_of. unfold TextProcessor.split_text.
  rewrite (clean_text_all_space _ Hd).
  destruct (len (@nil char) <=? TextProcessor.chunk_size self); [reflexivity|].
  rewrite merge_chunks_all_empty by apply recursive_split_nil. reflexivity.
Qed.

Lemma process_documents_contents_witness :
  exists chunks,
    process_documents Examples.default_processor Examples.two_documents
    = Ok chunks
    /\ map chunk_content chunks = [of_string "hello world"].
Proof.
  destruct (process_documents_contents Examples.default_processor
              Examples.two_documents) as [chunks [H1 [H2 H3]]].
  exists chunks. split; [exact H1|]. rewrite H2.
  cbn [flat_map Examples.two_documents].
  rewrite (H3 {| doc_content := Some [SPACE; NEWLINE]; doc_metadata := None |})
    by reflexivity.
  vm_compute. reflexivity.
Defined.

(** X6. Every chunk [process_documents] yields is chunk [j] of some
    document [i] of the batch and says so in its metadata: [doc_index] is
    [i], [chunk_index] is [j], [total_chunks] is the number of chunks of
    that document, so that [0 <= chunk_index < total_chunks]; every other
    key has the value it has in the metadata of the document. *)
Theorem process_documents_metadata (self : TextProcessor.t)
  (documents : list document) :
  exists chunks,
    process_documents self documents = Ok chunks
    /\ Forall
         (fun ch =>
            exists i j doc,
              nth_error documents i = Some doc
              /\ nth_error (chunks_of self doc) j = Some (chunk_content ch)
              /\ dict_get (chunk_metadata ch) DOC_INDEX = Some (VInt (Z.of_nat i))
              /\ dict_get (chunk_metadata ch) CHUNK_INDEX
                 = Some (VInt (Z.of_nat j))
              /\ dict_get (chunk_metadata ch) TOTAL_CHUNKS
                 = Some (VInt (len (chunks_of self doc)))
              /\ 0 <= Z.of_nat j < len (chunks_of self doc)
              /\ (forall k,
                    k <> DOC_INDEX -> k <> CHUNK_INDEX -> k <> TOTAL_CHUNKS ->
                    dict_get (chunk_metadata ch) k
                    = dict_get (metadata_of doc) k))
         chunks.
Proof.
  destruct (process_from_spec self documents documents 0 eq_refl)
    as [chunks [H1 [_ H3]]].
  exists chunks. split; [exact H1|].
  eapply Forall_impl; [|exact H3].
  intros ch [i [j [doc [Hi [Hj Hmd]]]]]. exists i, j, doc.
  split; [exact Hi|]. split; [exact Hj|]. rewrite Hmd. unfold chunk_metadata_of.
  split.
  { rewrite !dict_get_set_other by (vm_compute; discriminate).
    apply dict_get_set_same. }
  split.
  { rewrite dict_get_set_other by (vm_compute; discriminate).
    apply dict_get_set_same. }
  split; [apply dict_get_set_same|]. split.
  { assert (Hlt : (j < List.length (chunks_of self doc))%nat)
      by (apply nth_error_Some; congruence).
    unfold len. lia. }
  intros k Hk1 Hk2 Hk3.
  rewrite !dict_get_set_other by congruence. reflexivity.
Qed.

End ChunkRecords.

(** ** More on the vector store *)

Section StoreMore.

Import VectorStore.

(** X7. [add_documents] is append-only and all-or-nothing. When it
    returns, the new documents, metadata and ids stand after those already
    stored, which are untouched, and [document_count] has grown by the
    number of new documents; when it raises, the store is as it was. *)
Theorem add_documents_appends (uuid4 : nat -> str) (self : t)
  (documents : list str) (embeddings : list (list float))
  (metadatas : option (list dict)) (ids : option (list str)) :
  match add_documents uuid4 self documents embeddings metadatas ids with
  | (Ok new_ids, self') =>
      (documents = [] /\ new_ids = [] /\ self' = self
       \/ documents <> [] /\ new_ids = ids_or uuid4 documents ids
          /\ _embeddings self' <> None)
      /\ _documents self' = _documents self ++ documents
      /\ (documents <> [] ->
          _metadatas self' = _metadatas self ++ metadatas_or documents metadatas
          /\ _ids self' = _ids self ++ new_ids)
      /\ document_count (get_stats self')
         = document_count (get_stats self) + len documents
      /\ collection_name self' = collection_name self
      /\ persist_directory self' = persist_directory self
  | (Raise _, self') => self' = self
  end.
Proof.
  unfold add_documents. destruct documents as [|d documents].
  - cbn [truthy negb]. split; [left; auto|].
    split; [rewrite app_nil_r; reflexivity|]. split; [congruence|].
    split; [unfold len; simpl; lia|]. split; reflexivity.
  - cbn [truthy negb]. destruct (array embeddings) as [a|e]; [|reflexivity].
    destruct (match _embeddings self with
              | Some old => vstack old a
              | None => Ok a
              end) as [all|e]; [|reflexivity].
    cbn [set_state _documents _metadatas _ids _embeddings collection_name
         persist_directory get_stats document_count].
    split; [right; repeat split; congruence|]. split; [reflexivity|].
    split; [intros _; split; reflexivity|].
    split; [apply len_app|]. split; reflexivity.
Qed.

(** *** Deleting and loading *)


Lemma remove_other (d : Disk) (p q : str) : q <> p -> remove d p q = d q.
Proof. apply put_other. Qed.



(** *** Collections side by side *)

Lemma path_join_rel_inj (a b1 b2 : str) :
  startswith [47%N] b1 = false -> startswith [47%N] b2 = false ->
  path_join a b1 = path_join a b2 -> b1 = b2.
Proof.
  unfold path_join. intros -> ->.
  destruct (negb (truthy a) || startswith [47%N] (rev a)); intros H.
  - eapply app_inv_head, H.
  - apply app_inv_head in H. injection H. auto.
Qed.

Lemma relative_app (name e : str) :
  startswith [47%N] name = false -> startswith [47%N] e = false ->
  startswith [47%N] (name ++ e) = false.
Proof. destruct name; simpl; auto. Qed.

Lemma npz_not_json (n1 n2 : str) :
  n1 ++ of_string ".npz" <> n2 ++ of_string "_meta.json".
Proof.
  intros H. apply (f_equal (@rev char)) in H. rewrite !rev_app_distr in H.
  discriminate.
Qed.

(** The four paths of two collections with different relative names in one
    directory are different. *)
Lemma collections_apart (s1 s2 : t) :
  persist_directory s1 = persist_directory s2 ->
  collection_name s1 <> collection_name s2 ->
  startswith [47%N] (collection_name s1) = false ->
  startswith [47%N] (collection_name s2) = false ->
  _get_storage_path s2 <> _get_storage_path s1
  /\ _get_storage_path s2 <> _get_metadata_path s1
  /\ _get_metadata_path s2 <> _get_storage_path s1
  /\ _get_metadata_path s2 <> _get_metadata_path s1.
Proof.
  intros Hd Hn H1 H2. unfold _get_storage_path, _get_metadata_path. rewrite Hd.
  repeat split; intros H; apply path_join_rel_inj in H;
    try (apply relative_app; [assumption | reflexivity]).
  - apply app_inv_tail in H. congruence.
  - first [eapply npz_not_json, H | symmetry in H; eapply npz_not_json, H].
  - first [eapply npz_not_json, H | symmetry in H; eapply npz_not_json, H].
  - apply app_inv_tail in H. congruence.
Qed.

Lemma init_same_files (name dir : str) (d1 d2 : Disk) :
  d1 (path_join dir (name ++ of_string ".npz"))
  = d2 (path_join dir (name ++ of_string ".npz")) ->
  d1 (path_join dir (name ++ of_string "_meta.json"))
  = d2 (path_join dir (name ++ of_string "_meta.json")) ->
  init name dir d1 = init name dir d2.
Proof.
  intros H1 H2. unfold init, _load, _get_storage_path, _get_metadata_path.
  cbn [collection_name persist_directory]. rewrite H1, H2. reflexivity.
Qed.

(** X10. Users do not see each other's collections: the collections
    [get_rag_engine_for_user] names for two different user ids, kept in one
    directory, have different files, so that persisting or deleting the
    one leaves what a store of the other loads as it was. *)
Theorem user_collections_isolated (dir id1 id2 : str) (self : t) (disk : Disk) :
  id1 <> id2 ->
  collection_name self = Routes.user_collection_name id1 ->
  persist_directory self = dir ->
  init (Routes.user_collection_name id2) dir (snd (persist self disk))
  = init (Routes.user_collection_name id2) dir disk
  /\ init (Routes.user_collection_name id2) dir
       (snd (delete_collection self disk))
     = init (Routes.user_collection_name id2) dir disk.
Proof.
  intros Hid Hn Hd.
  set (other := {| collection_name := Routes.user_collection_name id2;
                   persist_directory := dir; _documents := [];
                   _embeddings := None; _metadatas := []; _ids := [] |}).
  destruct (collections_apart self other) as [A [B [C D]]].
  - exact Hd.
  - rewrite Hn. cbn [other collection_name]. unfold Routes.user_collection_name.
    intros H. apply app_inv_head in H. congruence.
  - rewrite Hn. reflexivity.
  - reflexivity.
  - assert (Hp : forall q, q <> _get_storage_path self ->
                   q <> _get_metadata_path self ->
                   snd (persist self disk) q = disk q)
      by (intros q; apply persist_other).
    assert (Hdel : forall q, q <> _get_storage_path self ->
                     q <> _get_metadata_path self ->
                     snd (delete_collection self disk) q = disk q).
    { intros q Hq1 Hq2. cbn [delete_collection snd].
      rewrite !remove_other by assumption. reflexivity. }
    split; apply init_same_files;
      first [apply (Hp (_get_storage_path other) A B)
            | apply (Hp (_get_metadata_path other) C D)
            | apply (Hdel (_get_storage_path other) A B)
            | apply (Hdel (_get_metadata_path other) C D)].
Qed.

Lemma user_collections_isolated_witness :
  init (Routes.user_collection_name (of_string "u2"))
    (of_string "./data/vectorstore")
    (snd (persist Examples.user_store Examples.no_disk))
  = init (Routes.user_collection_name (of_string "u2"))
      (of_string "./data/vectorstore") Examples.no_disk
  /\ init (Routes.user_collection_name (of_string "u2"))
       (of_string "./data/vectorstore")
       (snd (delete_collection Examples.user_store Examples.no_disk))
     = init (Routes.user_collection_name (of_string "u2"))
         (of_string "./data/vectorstore") Examples.no_disk.
Proof.
  apply (user_collections_isolated (of_string "./data/vectorstore")
           (of_string "u1") (of_string "u2") Examples.user_store
           Examples.no_disk).
  - discriminate.
  - reflexivity.
  - reflexivity.
Defined.

(** *** Edge cases of [search] *)



Lemma hits_index_error (self : t) (sims : list float) (idxs : list nat) :
  (exists idx, In idx idxs /\ hit_at self sims idx = Raise IndexError) ->
  hits self sims idxs = Raise IndexError.
Proof.
  assert (Honly : forall idx e, hit_at self sims idx = Raise e -> e = IndexError).
  { intros idx e. unfold hit_at.
    destruct (nth_error (_ids self) idx), (nth_error (_documents self) idx),
      (nth_error (_metadatas self) idx); congruence. }
  induction idxs as [|i idxs IH]; intros [idx [Hin Hr]]; [destruct Hin|].
  cbn [hits]. destruct (hit_at self sims i) as [h|e] eqn:E.
  - cbn [bind]. destruct Hin as [->|Hin]; [congruence|].
    rewrite IH by eauto. reflexivity.
  - cbn [bind]. rewrite (Honly _ _ E). reflexivity.
Qed.

(** X12. [search] checks neither the query nor the store. On a consistent
    collection a query whose length is not that of the stored vectors makes
    [np.dot] raise [ValueError]. On a store with fewer documents than
    vectors, which [add_documents] builds when it is given more vectors
    than documents, a [top_k] that reaches every vector makes the result
    loop raise [IndexError]. *)
Theorem search_unchecked (argsort : list float -> list nat) (self : t)
  (rows : list (list float)) (q : list float) (top_k : Z) :
  _embeddings self = Some (Arr2 rows) -> _documents self <> [] -> rows <> [] ->
  (List.length q <> ncols rows -> search argsort self q top_k = Raise ValueError)
  /\ (is_argsort argsort ->
      List.length q = ncols rows ->
      (List.length (_documents self) < List.length rows)%nat ->
      len rows <= top_k ->
      search argsort self q top_k = Raise IndexError).
Proof.
  intros He Hd Hr. unfold search. rewrite He.
  assert (Hlen : (len (_documents self) =? 0) = false).
  { apply Z.eqb_neq. unfold len. destruct (_documents self); [congruence|].
    simpl. lia. }
  rewrite Hlen. split.
  - intros Hq. unfold similarities, doc_norms, bind, dot.
    assert (Hc : ncols (map (fun r => div_scalar r (norm r)) rows) = ncols rows).
    { destruct rows as [|r rows]; [congruence|]. cbn [map ncols].
      unfold div_scalar. apply length_map. }
    unfold div_scalar at 2. rewrite Hc, length_map.
    apply Nat.eqb_neq in Hq. rewrite Nat.eqb_sym, Hq. reflexivity.
  - intros Ha Hq Hlt Hk. rewrite (similarities_consistent rows q Hr Hq).
    cbn [bind]. apply hits_index_error.
    exists (List.length (_documents self)). split.
    + unfold top_indices, slice_to.
      destruct (top_k <? 0) eqn:E;
        [apply Z.ltb_lt in E; pose proof (len_nonneg rows); lia|].
      rewrite firstn_all2
        by (rewrite (argsort_rev_length argsort Ha), scores_length;
            unfold len in Hk; lia).
      eapply Permutation_in; [symmetry; apply (argsort_rev_perm argsort Ha)|].
      apply in_seq. rewrite scores_length. lia.
    + unfold hit_at.
      assert (Hn : nth_error (_documents self) (List.length (_documents self))
                   = None) by (apply nth_error_None; lia).
      rewrite Hn. destruct (nth_error (_ids self) _); reflexivity.
Qed.

Lemma search_unchecked_witness :
  search stable_argsort Examples.ab_store [1; 0; 0]%float 3 = Raise ValueError
  /\ search stable_argsort Examples.uneven_store [1; 0]%float 2
     = Raise IndexError.
Proof.
  split.
  - apply (proj1 (search_unchecked stable_argsort Examples.ab_store
                    [[1; 0]; [0; 1]]%float
                    [1; 0; 0]%float 3 eq_refl ltac:(discriminate)
                    ltac:(discriminate))).
    vm_compute. discriminate.
  - apply (proj2 (search_unchecked stable_argsort Examples.uneven_store
                    [[1; 0]; [0; 1]]%float
                    [1; 0]%float 2 eq_refl ltac:(discriminate)
                    ltac:(discriminate))).
    + exact stable_argsort_is_argsort.
    + reflexivity.
    + vm_compute. lia.
    + vm_compute. discriminate.
Defined.

End StoreMore.

(** ** The engine *)

Section Engine.

Import VectorStore Chunks EmbeddingService RAGEngine.

Lemma process_documents_ok (self : TextProcessor.t) (documents : list document) :
  exists chunks,
    process_documents self documents = Ok chunks
    /\ map chunk_content chunks = flat_map (chunks_of self) documents.
Proof.
  destruct (process_from_spec self documents documents 0 eq_refl)
    as [chunks [H1 [H2 _]]]. eauto.
Qed.

Lemma add_documents_frame (uuid4 : nat -> str) (self : VectorStore.t)
  (documents : list str) (embeddings : list (list float))
  (metadatas : option (list dict)) (ids : option (list str)) :
  match add_documents uuid4 self documents embeddings metadatas ids with
  | (Ok _, self') => _documents self' = _documents self ++ documents
  | (Raise _, self') => self' = self
  end.
Proof.
  unfold add_documents. destruct documents as [|d documents].
  - cbn [truthy negb]. rewrite app_nil_r. reflexivity.
  - cbn [truthy negb]. destruct (array embeddings) as [a|e]; [|reflexivity].
    destruct (match _embeddings self with
              | Some old => vstack old a
              | None => Ok a
              end) as [all|e]; reflexivity.
Qed.

(** X13. What [ingest_documents] leaves behind. When it returns, either
    no chunk came out of the documents, the counts are 0 and nothing was
    touched, or [chunk_count] is the number of chunks, [ingested_count] the
    number of documents, the chunk texts stand after the documents already
    stored, and [persist] has saved the store. When it fails before
    [persist], the store and the medium are as they were. When [persist]
    fails, the failure is its [VectorStoreError], and the store in memory
    keeps the new chunk texts that the medium does not hold: nothing is
    rolled back. *)
Theorem ingest_documents_outcomes (uuid4 : nat -> str) (self : RAGEngine.t)
  (vector_store : VectorStore.t) (disk : Disk) (documents : list document)
  (start_time end_time : float) :
  let texts := flat_map (chunks_of (text_processor self)) documents in
  match ingest_documents uuid4 self vector_store disk documents
          start_time end_time with
  | (Failed f, vector_store', disk') =>
      vector_store' = vector_store /\ disk' = disk
      \/ f = Uncaught (VectorStoreError "Failed to persist")
         /\ texts <> []
         /\ _documents vector_store' = _documents vector_store ++ texts
         /\ persist vector_store' disk
            = (Raise (VectorStoreError "Failed to persist"), disk')
  | (Done r, vector_store', disk') =>
      chunk_count r = len texts
      /\ (chunk_count r = 0 /\ ingested_count r = 0
          /\ vector_store' = vector_store /\ disk' = disk
          \/ 0 < chunk_count r /\ ingested_count r = len documents
             /\ _documents vector_store' = _documents vector_store ++ texts
             /\ persist vector_store' disk = (Ok tt, disk'))
  end.
Proof.
  cbv zeta. unfold ingest_documents.
  destruct (process_documents_ok (text_processor self) documents)
    as [chunks [-> Hc]].
  assert (Hlen : len chunks
                 = len (flat_map (chunks_of (text_processor self)) documents)).
  { rewrite <- Hc. unfold len. rewrite length_map. reflexivity. }
  destruct chunks as [|ch chunks]; cbn [truthy negb].
  - split; [rewrite <- Hlen; reflexivity|]. left. auto.
  - destruct (embed_texts (encode self) (map chunk_content (ch :: chunks)))
      as [embeddings|f]; [|left; auto].
    pose proof (add_documents_frame uuid4 vector_store
                  (map chunk_content (ch :: chunks)) embeddings
                  (Some (map chunk_metadata (ch :: chunks))) None) as Hd.
    destruct (add_documents uuid4 vector_store _ embeddings _ None)
      as [[new_ids|e] store'].
    + pose proof (persist_outcome store' disk) as Ho.
      destruct (persist store' disk) as [[[]|e] disk'] eqn:Ep; cbn [fst] in Ho.
      * split; [exact Hlen|]. right. cbn [chunk_count ingested_count].
        split; [unfold len; simpl; lia|]. split; [reflexivity|].
        split; [rewrite Hd, Hc; reflexivity | exact Ep].
      * destruct Ho as [Ho|Ho]; [discriminate|]. injection Ho as ->.
        right. split; [reflexivity|]. rewrite <- Hc.
        split; [discriminate|]. split; [exact Hd | exact Ep].
    + subst store'. left. auto.
Qed.

(** On a medium that refuses the metadata file, ingesting a document fails
    with the [VectorStoreError] of [persist]; the store in memory holds the
    chunk, and a store opened at the same place is empty. *)
Lemma ingest_documents_outcomes_witness :
  exists vector_store' disk',
    ingest_documents Examples.uuid4 Examples.echo_engine Examples.fresh_store
      Examples.no_json_disk Examples.two_documents 1%float 3%float
    = (Failed (Uncaught (VectorStoreError "Failed to persist")),
       vector_store', disk')
    /\ _documents vector_store' = [of_string "hello world"]
    /\ _documents (init (collection_name vector_store')
                     (persist_directory vector_store') disk') = [].
Proof.
  pose proof (ingest_documents_outcomes Examples.uuid4 Examples.echo_engine
                Examples.fresh_store Examples.no_json_disk
                Examples.two_documents 1%float 3%float) as H.
  cbv zeta in H.
  remember (ingest_documents Examples.uuid4 Examples.echo_engine
              Examples.fresh_store Examples.no_json_disk
              Examples.two_documents 1%float 3%float) as r eqn:E.
  vm_compute in E. subst r. cbv beta iota in H.
  destruct H as [[H _]|[_ [_ [Hd _]]]]; [vm_compute in H; discriminate|].
  eexists. eexists. split; [reflexivity|].
  split; [etransitivity; [exact Hd | vm_compute; reflexivity]|].
  vm_compute. reflexivity.
Defined.

Lemma add_documents_ok (uuid4 : nat -> str) (self : VectorStore.t)
  (documents : list str) (embeddings stored : list (list float))
  (metadatas : option (list dict)) (ids : option (list str)) :
  documents <> [] -> embeddings <> [] -> rectangular embeddings = true ->
  (_embeddings self = None /\ stored = []
   \/ _embeddings self = Some (Arr2 stored) /\ ncols stored = ncols embeddings) ->
  add_documents uuid4 self documents embeddings metadatas ids
  = (Ok (ids_or uuid4 documents ids),
     set_state self (_documents self ++ documents)
       (Some (Arr2 (stored ++ embeddings)))
       (_metadatas self ++ metadatas_or documents metadatas)
       (_ids self ++ ids_or uuid4 documents ids)).
Proof.
  intros Hd He Hr Hs. unfold add_documents.
  destruct documents as [|d documents]; [congruence|]. cbn [truthy negb].
  rewrite (rectangular_array _ He Hr).
  destruct Hs as [[Hs ->]|[Hs Hn]]; rewrite Hs; [reflexivity|].
  unfold vstack. simpl. apply Nat.eqb_eq in Hn. rewrite Hn. reflexivity.
Qed.

(** X14. When the documents give at least one chunk, the encoder returns
    one vector per chunk text, all of one length that is the length of the
    stored vectors, and the medium accepts the writes to the two files of
    the collection, [ingest_documents] on an empty or a consistent store
    returns the counts and the elapsed time, leaves a consistent store that
    holds the chunk texts and vectors after the old ones, and has persisted
    it: a store opened at the same place is this store. *)
Theorem ingest_documents_persisted (uuid4 : nat -> str) (self : RAGEngine.t)
  (vector_store : VectorStore.t) (disk : Disk) (documents : list document)
  (start_time end_time : float) (stored embeddings : list (list float)) :
  let texts := flat_map (chunks_of (text_processor self)) documents in
  texts <> [] ->
  encode self texts = Some embeddings ->
  List.length embeddings = List.length texts ->
  rectangular embeddings = true ->
  (_embeddings vector_store = None /\ stored = []
   /\ _documents vector_store = [] /\ _metadatas vector_store = []
   /\ _ids vector_store = []
   \/ consistent vector_store stored /\ ncols stored = ncols embeddings) ->
  on_write disk (_get_storage_path vector_store) = Accepts ->
  on_write disk (_get_metadata_path vector_store) = Accepts ->
  exists vector_store' disk',
    ingest_documents uuid4 self vector_store disk documents start_time end_time
    = (Done {| ingested_count := len documents;
               chunk_count := len texts;
               ingest_time_ms := ((end_time - start_time) * 1000)%float |},
       vector_store', disk')
    /\ consistent vector_store' (stored ++ embeddings)
    /\ _documents vector_store' = _documents vector_store ++ texts
    /\ init (collection_name vector_store) (persist_directory vector_store) disk'
       = vector_store'.
Proof.
  intros texts Ht He Hl Hr Hs Hw1 Hw2. subst texts.
  destruct (process_documents_ok (text_processor self) documents)
    as [chunks [Hp Hc]].
  rewrite <- Hc in *.
  assert (Hne : embeddings <> [])
    by (intros ->; destruct (map chunk_content chunks); [congruence | discriminate]).
  assert (Hsimple : _embeddings vector_store = None /\ stored = []
                    \/ _embeddings vector_store = Some (Arr2 stored)
                       /\ ncols stored = ncols embeddings).
  { destruct Hs as [[H1 [H2 _]]|[[H1 _] H2]]; auto. }
  pose proof (add_documents_ok uuid4 vector_store (map chunk_content chunks)
                embeddings stored (Some (map chunk_metadata chunks)) None
                Ht Hne Hr Hsimple) as Hadd.
  pose proof (add_documents_consistent uuid4 vector_store
                (map chunk_content chunks) embeddings
                (Some (map chunk_metadata chunks)) None stored Ht Hl Hr) as Hcons.
  rewrite Hadd in Hcons. cbn [snd] in Hcons.
  set (store' := set_state vector_store _ _ _ _) in *.
  assert (Hdocs : _documents store' <> []).
  { cbn. intros H. apply app_eq_nil in H. destruct H as [_ H]. congruence. }
  assert (Hp1 : fst (persist store' disk) = Ok tt).
  { destruct (persist_ok store' disk Hdocs) as [[_ [_ ->]]|[[H|H] _]];
      [reflexivity | |]; exfalso; apply H; assumption. }
  pose proof (persist_load store' (Arr2 (stored ++ embeddings)) disk
                Hdocs eq_refl Hp1) as Hp2.
  exists store', (snd (persist store' disk)).
  split; [|split; [|split]].
  - unfold ingest_documents. rewrite Hp.
    destruct chunks as [|ch chunks]; [simpl in Ht; congruence|].
    cbn [truthy negb]. unfold embed_texts. cbn [map truthy negb].
    cbn [map] in He. rewrite He. cbn [map] in Hadd. rewrite Hadd.
    destruct (persist store' disk) as [[u|e] disk'] eqn:Ep;
      [|cbn [fst] in Hp1; discriminate].
    cbn [snd]. unfold len. cbn [List.length]. rewrite length_map. reflexivity.
  - apply Hcons.
    + cbn [metadatas_or]. rewrite !length_map. reflexivity.
    + cbn [ids_or]. rewrite length_map, length_seq. reflexivity.
    + exact Hs.
  - reflexivity.
  - exact Hp2.
Qed.

Lemma ingest_documents_persisted_witness :
  exists vector_store' disk',
    ingest_documents Examples.uuid4 Examples.echo_engine Examples.fresh_store
      Examples.no_disk Examples.two_documents 1%float 3%float
    = (Done {| ingested_count := len Examples.two_documents;
               chunk_count :=
                 len (flat_map (chunks_of Examples.default_processor)
                        Examples.two_documents);
               ingest_time_ms := ((3 - 1) * 1000)%float |},
       vector_store', disk')
    /\ consistent vector_store' ([] ++ [[1; 0]]%float)
    /\ _documents vector_store'
       = _documents Examples.fresh_store
         ++ flat_map (chunks_of Examples.default_processor) Examples.two_documents
    /\ init (collection_name Examples.fresh_store)
         (persist_directory Examples.fresh_store) disk'
       = vector_store'.
Proof.
  apply (ingest_documents_persisted Examples.uuid4 Examples.echo_engine
           Examples.fresh_store Examples.no_disk Examples.two_documents
           1%float 3%float [] [[1; 0]]%float).
  - vm_compute. discriminate.
  - vm_compute. reflexivity.
  - vm_compute. reflexivity.
  - reflexivity.
  - left. repeat split; reflexivity.
  - reflexivity.
  - reflexivity.
Defined.

(** X15. [retrieve] fails with [RetrievalError] only, whatever the encoder
    or the search raise; a [top_k] that is omitted or 0 stands for the
    configured [retrieval_top_k]; and on a store without records it returns
    the empty list once the query is embedded. *)
Theorem retrieve_wraps (argsort : list float -> list nat) (self : RAGEngine.t)
  (vector_store : VectorStore.t) (query : str) (top_k : option Z) :
  (forall f, retrieve argsort self vector_store query top_k = Failed f ->
             exists cause, f = RetrievalError cause)
  /\ retrieve argsort self vector_store query None
     = retrieve argsort self vector_store query (Some (retrieval_top_k (settings self)))
  /\ retrieve argsort self vector_store query (Some 0)
     = retrieve argsort self vector_store query None
  /\ (forall embedding,
        embed_text (encode self) query = Done embedding ->
        _embeddings vector_store = None \/ _documents vector_store = [] ->
        retrieve argsort self vector_store query top_k = Done []).
Proof.
  split; [|split; [|split]].
  - intros f. unfold retrieve.
    destruct (embed_text (encode self) query) as [v|g].
    + destruct (search argsort vector_store v _); intros H; inversion H; eauto.
    + intros H. inversion H. eauto.
  - unfold retrieve, int_or.
    destruct (retrieval_top_k (settings self) =? 0); reflexivity.
  - reflexivity.
  - intros v Hv Hs. unfold retrieve. rewrite Hv. unfold search.
    destruct Hs as [Hs|Hs]; rewrite Hs; [reflexivity|].
    destruct (_embeddings vector_store); reflexivity.
Qed.

Lemma retrieve_wraps_witness :
  retrieve stable_argsort Examples.echo_engine Examples.ab_store (of_string "a")
    (Some 0)
  = retrieve stable_argsort Examples.echo_engine Examples.ab_store (of_string "a") None
  /\ retrieve stable_argsort Examples.echo_engine Examples.fresh_store (of_string "a") None
     = Done [].
Proof.
  split.
  - apply (proj1 (proj2 (proj2 (retrieve_wraps stable_argsort Examples.echo_engine
             Examples.ab_store (of_string "a") None)))).
  - apply (proj2 (proj2 (proj2 (retrieve_wraps stable_argsort Examples.echo_engine
             Examples.fresh_store (of_string "a") None)))
             [1; 0]%float); [reflexivity | left; reflexivity].
Defined.

(** X16. On a store without records, once the question is embedded,
    [query] asks the generator with the system prompt built around the
    marker ["No relevant context found."] and returns its answer with no
    sources; a failure of the generator is passed on as it is. *)
Theorem query_empty_store (argsort : list float -> list nat)
  (self : RAGEngine.t) (vector_store : VectorStore.t)
  (question : str) (top_k : option Z) (start_time end_time : float)
  (embedding : list float) :
  embed_text (encode self) question = Done embedding ->
  _embeddings vector_store = None \/ _documents vector_store = [] ->
  query argsort self vector_store question top_k start_time end_time
  = match generate self question
            (Some (RAG_SYSTEM_PROMPT (of_string "No relevant context found.")))
    with
    | Done response =>
        Done {| answer := response; sources := [];
                query_time_ms := ((end_time - start_time) * 1000)%float |}
    | Failed f => Failed f
    end.
Proof.
  intros Hv Hs. unfold query, retrieve. rewrite Hv. unfold search.
  destruct Hs as [Hs|Hs]; rewrite Hs; [reflexivity|].
  destruct (_embeddings vector_store); reflexivity.
Qed.

Lemma query_empty_store_witness :
  query stable_argsort Examples.echo_engine Examples.fresh_store (of_string "why?") None
    1%float 3%float
  = Done {| answer := of_string "why?"; sources := [];
            query_time_ms := ((3 - 1) * 1000)%float |}.
Proof.
  apply (query_empty_store stable_argsort Examples.echo_engine Examples.fresh_store
           (of_string "why?") None 1%float 3%float [1; 0]%float).
  - reflexivity.
  - left. reflexivity.
Defined.

End Engine.

(** ** Merging keeps the text *)

Section Merge.

Import TextProcessor.

Lemma join_app (sep : str) (l1 l2 : list str) :
  l1 <> [] -> l2 <> [] ->
  join sep (l1 ++ l2) = join sep l1 ++ sep ++ join sep l2.
Proof.
  intros H1 H2. induction l1 as [|a l1 IH]; [congruence|].
  destruct l1 as [|b l1].
  - simpl app. apply join_cons, H2.
  - change ((a :: b :: l1) ++ l2) with (a :: ((b :: l1) ++ l2)).
    rewrite join_cons by discriminate. rewrite IH by discriminate.
    rewrite (join_cons sep a (b :: l1)) by discriminate.
    rewrite <- !app_assoc. reflexivity.
Qed.

Lemma strip_space_cons (x : str) : trimmed x -> strip (SPACE :: x) = x.
Proof.
  intros H. unfold strip. cbn [lstrip]. rewrite isspace_SPACE.
  apply (strip_trimmed_id x). right. exact H.
Qed.

Lemma trimmed_join (a b : str) : trimmed a -> trimmed b -> trimmed (a ++ [SPACE] ++ b).
Proof.
  intros [[c [r [-> Hc]]] _] [_ He]. split.
  - exists c, (r ++ [SPACE] ++ b). auto.
  - apply ends_nonspace_app with (a := (c :: r) ++ [SPACE]) in He.
    rewrite <- app_assoc in He. exact He.
Qed.

Lemma trimmed_truthy (x : str) : trimmed x -> truthy x = true.
Proof. intros [[c [r [-> _]]] _]. reflexivity. Qed.

(** Two lists of chunks that read the same still do with the same chunks
    after them. *)
Lemma join_tail (l1 l2 tail : list str) :
  join [SPACE] l1 = join [SPACE] l2 -> (l1 = [] <-> l2 = []) ->
  join [SPACE] (l1 ++ tail) = join [SPACE] (l2 ++ tail).
Proof.
  intros Hj Hn. destruct tail as [|x tail]; [rewrite !app_nil_r; exact Hj|].
  destruct l1 as [|a l1].
  - rewrite (proj1 Hn eq_refl). reflexivity.
  - destruct l2 as [|b l2]; [destruct Hn as [_ Hn]; discriminate (Hn eq_refl)|].
    rewrite !join_app by discriminate. rewrite Hj. reflexivity.
Qed.

Lemma closed_step (self : t) (st : list str * str) (chunk : str) :
  merge_trim_inv st ->
  join [SPACE] (closed (merge_step self st chunk))
  = join [SPACE]
      (closed st ++ (if truthy (strip chunk) then [strip chunk] else []))
  /\ (closed (merge_step self st chunk) = []
      <-> closed st ++ (if truthy (strip chunk) then [strip chunk] else []) = []).
Proof.
  intros [Hm Hcur]. destruct st as [merged current]. unfold closed, merge_step.
  cbn [fst snd] in *.
  destruct (truthy (strip chunk)) eqn:Et; cbn [negb];
    [|rewrite app_nil_r; split; reflexivity].
  assert (Hchunk : trimmed (strip chunk)).
  { destruct (strip_trimmed chunk) as [E|E]; [|exact E].
    rewrite E in Et. discriminate. }
  assert (Hnil : forall (a : list str) (x : str), a ++ [x] = [] <-> False).
  { intros a x. split; [|tauto]. intros H. apply app_eq_nil in H.
    destruct H; discriminate. }
  destruct (len current + len (strip chunk) + 1 <=? chunk_size self);
    cbn [fst snd].
  - destruct Hcur as [->|Hcur].
    + cbn [app truthy]. rewrite (strip_space_cons _ Hchunk), Et, app_nil_r.
      split; [reflexivity|]. rewrite !Hnil. tauto.
    + rewrite (strip_trimmed_id (current ++ [SPACE] ++ strip chunk))
        by (right; apply trimmed_join; assumption).
      rewrite (trimmed_truthy _ (trimmed_join _ _ Hcur Hchunk)).
      rewrite (trimmed_truthy _ Hcur). rewrite <- app_assoc. cbn [app].
      split.
      * destruct merged as [|m merged]; [reflexivity|].
        rewrite !(join_app [SPACE] (m :: merged)) by discriminate.
        reflexivity.
      * rewrite Hnil. split; [tauto|]. intros H. apply app_eq_nil in H.
        destruct H; discriminate.
  - rewrite Et. destruct (truthy current).
    + rewrite <- app_assoc. split; reflexivity.
    + rewrite app_nil_r. split; reflexivity.
Qed.

Lemma closed_loop (self : t) (chunks : list str) :
  forall st,
    merge_trim_inv st ->
    join [SPACE] (closed (fold_left (merge_step self) chunks st))
    = join [SPACE] (closed st ++ filter truthy (map strip chunks)).
Proof.
  induction chunks as [|c chunks IH]; intros st Hst; simpl.
  - rewrite app_nil_r. reflexivity.
  - rewrite IH by (apply merge_step_trim, Hst).
    destruct (closed_step self st c Hst) as [Hj Hn].
    destruct (truthy (strip c)).
    + change (strip c :: filter truthy (map strip chunks))
        with ([strip c] ++ filter truthy (map strip chunks)).
      rewrite app_assoc. apply join_tail; assumption.
    + rewrite app_nil_r in Hj, Hn. apply join_tail; assumption.
Qed.

(** X17. Merging loses and reorders nothing: read with single spaces
    between them, the chunks [_merge_chunks] builds before the overlap are
    the pieces it was given, stripped, the empty ones left out. *)
Theorem merge_only_keeps_text (self : t) (chunks : list str) :
  join [SPACE] (merge_only self chunks)
  = join [SPACE] (filter truthy (map strip chunks)).
Proof.
  unfold merge_only.
  pose proof (closed_loop self chunks ([], [])
                ltac:(split; simpl; [constructor | left; reflexivity])) as H.
  unfold closed in H at 1.
  destruct (fold_left (merge_step self) chunks ([], [])) as [merged current].
  cbn [fst snd] in H. change (closed ([], [])) with (@nil str) in H.
  cbn [app] in H. rewrite <- H.
  destruct (truthy current); [reflexivity | rewrite app_nil_r; reflexivity].
Qed.

End Merge.

(** ** The overlap *)

Section Overlap.

Import TextProcessor.

(** *** Chunks hold single spaces only *)

Lemma join_factor (sep : str) (l : list str) (p : str) :
  In p l -> exists a c, join sep l = a ++ p ++ c.
Proof.
  induction l as [|x l IH]; intros Hin; [destruct Hin|].
  destruct l as [|y l].
  - destruct Hin as [->|[]]. exists [], []. simpl. rewrite app_nil_r. reflexivity.
  - rewrite join_cons by discriminate. destruct Hin as [->|Hin].
    + exists [], (sep ++ join sep (y :: l)). reflexivity.
    + destruct (IH Hin) as [a [c ->]]. exists (x ++ sep ++ a), c.
      rewrite <- !app_assoc. reflexivity.
Qed.

Lemma collapsed_factor (b : bool) (a m c : str) :
  collapsed b (a ++ m ++ c) = true -> collapsed false m = true.
Proof.
  intros H. apply collapsed_app_r in H. eapply collapsed_app_l, H.
Qed.

Lemma recursive_split_collapsed (self : t) (seps : list str) :
  forall text,
    collapsed false text = true ->
    Forall (fun p => collapsed false p = true) (_recursive_split self text seps).
Proof.
  induction seps as [|sep seps IH]; intros text Ht; simpl.
  - constructor; [exact Ht | constructor].
  - destruct sep as [|c sep].
    + apply Forall_forall. intros p Hp. apply in_map_iff in Hp.
      destruct Hp as [x [<- Hx]]. apply in_split in Hx.
      destruct Hx as [l1 [l2 ->]].
      apply (collapsed_factor false l1 [x] l2 Ht).
    + apply Forall_forall. intros p Hp. apply in_flat_map in Hp.
      destruct Hp as [piece [Hpiece Hp]].
      assert (Hpl : collapsed false piece = true).
      { destruct (join_factor (c :: sep) _ _ Hpiece) as [a [z Hj]].
        unfold split in Hj.
        rewrite (split_from_join (c :: sep) text ltac:(discriminate) 0 [])
          in Hj by lia.
        simpl in Hj. rewrite Hj in Ht. eapply collapsed_factor, Ht. }
      destruct (len piece <=? chunk_size self).
      * destruct Hp as [<-|[]]. exact Hpl.
      * pose proof (IH piece Hpl) as HF. rewrite Forall_forall in HF. auto.
Qed.

Lemma collapsed_true_begins (s : str) :
  collapsed false s = true -> begins_nonspace s -> collapsed true s = true.
Proof.
  intros H [c [r [-> Hc]]]. cbn [collapsed] in *. rewrite Hc in *. exact H.
Qed.

Lemma collapsed_join (r c : str) (x : char) (b : bool) :
  collapsed b (r ++ [x]) = true -> isspace x = false ->
  collapsed true c = true ->
  collapsed b (r ++ x :: SPACE :: c) = true.
Proof.
  revert b. induction r as [|y r IH]; intros b H Hx Hc; cbn [app collapsed] in *.
  - rewrite Hx in *. rewrite isspace_SPACE, N.eqb_refl. cbn [negb andb]. exact Hc.
  - destruct (isspace y).
    + apply andb_true_iff in H. destruct H as [H1 H2]. rewrite H1. cbn [andb].
      apply IH; assumption.
    + apply IH; assumption.
Qed.

Lemma merge_step_collapsed (self : t) (st : list str * str) (chunk : str) :
  merge_trim_inv st ->
  Forall (fun p => collapsed false p = true) (fst st) ->
  collapsed false (snd st) = true ->
  collapsed false chunk = true ->
  Forall (fun p => collapsed false p = true) (fst (merge_step self st chunk))
  /\ collapsed false (snd (merge_step self st chunk)) = true.
Proof.
  intros [_ Hcur] Hm Hc Hchunk. destruct st as [merged current]. simpl in *.
  unfold merge_step.
  destruct (truthy (strip chunk)) eqn:Et; simpl; [|split; assumption].
  assert (Hs : collapsed false (strip chunk) = true) by apply collapsed_strip, Hchunk.
  assert (Htr : trimmed (strip chunk)).
  { destruct (strip_trimmed chunk) as [E|E]; [|exact E].
    rewrite E in Et. discriminate. }
  destruct (len current + len (strip chunk) + 1 <=? chunk_size self); simpl.
  - split; [assumption|]. apply collapsed_strip.
    destruct Hcur as [->|[_ [r [x [-> Hx]]]]].
    + cbn [app collapsed]. rewrite isspace_SPACE, N.eqb_refl. cbn [negb andb].
      apply collapsed_true_begins; [exact Hs | apply Htr].
    + rewrite <- app_assoc. cbn [app]. apply collapsed_join; auto.
      apply collapsed_true_begins; [exact Hs | apply Htr].
  - split; [|exact Hs].
    destruct (truthy current); [|assumption].
    apply Forall_app. split; [assumption|]. constructor; [assumption|constructor].
Qed.

Lemma merge_only_collapsed (self : t) (chunks : list str) :
  Forall (fun p => collapsed false p = true) chunks ->
  Forall (fun p => collapsed false p = true) (merge_only self chunks).
Proof.
  intros H. unfold merge_only.
  assert (Hinv : merge_trim_inv (fold_left (merge_step self) chunks ([], []))
                 /\ Forall (fun p => collapsed false p = true)
                      (fst (fold_left (merge_step self) chunks ([], [])))
                 /\ collapsed false
                      (snd (fold_left (merge_step self) chunks ([], []))) = true).
  { assert (H0 : merge_trim_inv (@nil str, @nil char)
                 /\ Forall (fun p => collapsed false p = true)
                      (fst (@nil str, @nil char))
                 /\ collapsed false (snd (@nil str, @nil char)) = true).
    { split; [split; simpl; [constructor | left; reflexivity]|].
      split; [constructor | reflexivity]. }
    revert H0. generalize (@nil str, @nil char).
    induction H as [|c chunks Hc _ IH]; intros st Hst; simpl; [exact Hst|].
    apply IH. destruct Hst as [Ht [Hm Hcur]].
    split; [apply merge_step_trim, Ht|].
    apply merge_step_collapsed; assumption. }
  destruct (fold_left (merge_step self) chunks ([], [])) as [merged current].
  destruct Hinv as [_ [Hm Hcur]]. simpl in *.
  destruct (truthy current); [|assumption].
  apply Forall_app. split; [assumption|]. constructor; [assumption|constructor].
Qed.

(** The chunks hold single spaces only, before the overlap is added. *)
Lemma pre_overlap_collapsed (self : t) (text : str) :
  Forall (fun p => collapsed false p = true) (pre_overlap self text).
Proof.
  assert (Hc : collapsed false (clean_text text) = true).
  { rewrite clean_text_eq. apply collapsed_strip, collapsed_sub_whitespace. }
  unfold pre_overlap.
  destruct (len (clean_text text) <=? chunk_size self).
  - destruct (truthy (clean_text text)); repeat constructor. exact Hc.
  - apply merge_only_collapsed, recursive_split_collapsed, Hc.
Qed.

Lemma collapsed_true_lstrip (s : str) : collapsed true s = true -> lstrip s = s.
Proof.
  destruct s as [|c s]; [reflexivity|]. cbn [collapsed lstrip].
  destruct (isspace c); [|reflexivity].
  cbn [negb]. rewrite andb_false_r. discriminate.
Qed.

(** In a chunk with single spaces only, what [_add_overlap] carries over
    from a tail that holds a space is the text after the first space of the
    tail. *)
Lemma overlap_first_space (self : t) (prev : str) :
  0 < chunk_overlap self ->
  collapsed false prev = true ->
  let tail := slice_from (- chunk_overlap self) prev in
  In SPACE tail ->
  exists w, tail = w ++ SPACE :: lstrip (overlap_text self prev)
            /\ ~ In SPACE w.
Proof.
  intros Hk Hc tail Hin.
  destruct (tail_spec (chunk_overlap self) prev Hk) as [pre0 [Hprev _]].
  fold tail in Hprev.
  assert (Ht : collapsed false tail = true)
    by (rewrite Hprev in Hc; eapply collapsed_app_r, Hc).
  pose proof (overlap_text_spec self prev) as Hspec. cbv zeta in Hspec.
  fold tail in Hspec.
  destruct Hspec as [[Hot [[r Hr]|Hn]]|[w [Hw [_ Hws]]]]; [| contradiction |].
  - exists []. split; [|intros []]. rewrite Hot, Hr. cbn [lstrip app].
    rewrite isspace_SPACE. rewrite Hr in Ht. cbn [collapsed] in Ht.
    rewrite isspace_SPACE, N.eqb_refl in Ht. cbn [negb andb] in Ht.
    rewrite (collapsed_true_lstrip r Ht). reflexivity.
  - exists w. split; [|exact Hws].
    rewrite Hw in Ht. apply collapsed_app_r in Ht. cbn [collapsed] in Ht.
    rewrite isspace_SPACE, N.eqb_refl in Ht. cbn [negb andb] in Ht.
    rewrite (collapsed_true_lstrip _ Ht). exact Hw.
Qed.

(** C5, as the code has it. With [chunk_overlap > 0], [split_text] keeps
    the number of chunks and the first chunk of [pre_overlap]; every later
    chunk is [o ++ " " ++ cur] where [cur] is its version before the overlap
    and [o], which is not empty and begins with a character that is not
    whitespace, is fixed by the tail [prev[-chunk_overlap:]] of the previous
    chunk before the overlap. When that tail holds a space, [o] is the text
    after the first space of the tail: the word before that space is
    dropped, whole or partial, or nothing but the space when the tail
    begins with it. When the tail holds no space, [o] is the whole tail, a
    partial leading word included. *)
Theorem split_text_overlap (self : t) (text : str) :
  0 < chunk_overlap self ->
  exists chunks,
    split_text self text = Ok chunks
    /\ List.length chunks = List.length (pre_overlap self text)
    /\ hd_error chunks = hd_error (pre_overlap self text)
    /\ forall i prev cur,
        nth_error (pre_overlap self text) i = Some prev ->
        nth_error (pre_overlap self text) (S i) = Some cur ->
        let tail := slice_from (- chunk_overlap self) prev in
        exists o,
          nth_error chunks (S i) = Some (o ++ SPACE :: cur)
          /\ begins_nonspace o
          /\ (exists pre, prev = pre ++ tail)
          /\ len tail = Z.min (chunk_overlap self) (len prev)
          /\ (exists pre, tail = pre ++ o)
          /\ (In SPACE tail ->
              (exists w, tail = w ++ SPACE :: o /\ ~ In SPACE w)
              /\ exists pre, prev = pre ++ SPACE :: o)
          /\ (~ In SPACE tail -> o = tail).
Proof.
  intros Hk. rewrite split_text_cases.
  pose proof (pre_overlap_trimmed self text) as Ht.
  pose proof (pre_overlap_plain self text) as Hp.
  pose proof (pre_overlap_collapsed self text) as Hcl.
  rewrite Forall_forall in Ht, Hp, Hcl.
  destruct ((chunk_overlap self >? 0) && (len (pre_overlap self text) >? 1)) eqn:E.
  - destruct (pre_overlap self text) as [|c0 rest] eqn:Em;
      [rewrite andb_false_r in E; discriminate|].
    exists (c0 :: overlap_loop self c0 rest). simpl _add_overlap.
    split; [reflexivity|]. split; [simpl; rewrite overlap_loop_length; reflexivity|].
    split; [reflexivity|].
    intros i prev cur Hprev Hcur tail.
    assert (Hpin : In prev (c0 :: rest)) by (eapply nth_error_In; eauto).
    assert (Hcin : In cur (c0 :: rest)) by (eapply nth_error_In; eauto).
    destruct (overlapped_spec self prev cur Hk (Ht _ Hpin) (Ht _ Hcin))
      as [H1 [H2 [H3 [H4 H5]]]].
    destruct (tail_spec (chunk_overlap self) prev Hk) as [pre0 [Hpre Hlen]].
    exists (lstrip (overlap_text self prev)).
    split; [rewrite (overlap_loop_nth self rest c0 i prev cur Hprev Hcur), H1;
            reflexivity|].
    split; [exact H2|]. split; [exists pre0; exact Hpre|].
    split; [exact Hlen|]. split; [exact H3|]. split.
    + intros Hin.
      destruct (overlap_first_space self prev Hk (Hcl _ Hpin) Hin) as [w [Hw Hws]].
      split; [exists w; split; [exact Hw | exact Hws]|].
      exists (pre0 ++ w). rewrite <- app_assoc, <- Hw. exact Hpre.
    + intros Hn. rewrite (H5 Hn). apply plain_lstrip_id; [|exact Hn].
      specialize (Hp _ Hpin). rewrite Hpre in Hp. apply plain_app in Hp. apply Hp.
  - exists (pre_overlap self text). split; [reflexivity|].
    split; [reflexivity|]. split; [reflexivity|].
    intros i prev cur Hprev Hcur. exfalso.
    apply andb_false_iff in E. destruct E as [E|E].
    + rewrite Z.gtb_ltb in E. apply Z.ltb_ge in E. lia.
    + assert (Hl : (S i < List.length (pre_overlap self text))%nat)
        by (apply nth_error_Some; congruence).
      unfold len in E. rewrite Z.gtb_ltb in E. apply Z.ltb_ge in E. lia.
Qed.

Lemma split_text_overlap_witness :
  exists chunks o,
    split_text Examples.small_processor Examples.six_words = Ok chunks
    /\ nth_error chunks 1 = Some (o ++ SPACE :: of_string "dd ee ff")
    /\ slice_from (- 5) (of_string "aa bb cc") = of_string "bb cc"
    /\ (exists w, of_string "bb cc" = w ++ SPACE :: o /\ ~ In SPACE w).
Proof.
  destruct (split_text_overlap Examples.small_processor Examples.six_words)
    as [chunks [Hs [_ [_ H]]]]; [vm_compute; reflexivity|].
  destruct (H O (of_string "aa bb cc") (of_string "dd ee ff"))
    as [o [H1 [_ [_ [_ [_ [H2 _]]]]]]];
    [vm_compute; reflexivity | vm_compute; reflexivity |].
  exists chunks, o. split; [exact Hs|]. split; [exact H1|].
  split; [vm_compute; reflexivity|].
  apply H2. vm_compute. auto.
Defined.

(** C5 fails as stated: with [chunk_size = 10] and [chunk_overlap = 5] the
    second chunk begins with ["aaaaa"], the last five characters of the one
    word of the first chunk, and with no word-aligned suffix of it. *)
Lemma split_text_overlap_not_aligned :
  pre_overlap Examples.small_processor Examples.two_words
  = [of_string "aaaaaaaaaa"; of_string "bbbbbbbbbb"]
  /\ split_text Examples.small_processor Examples.two_words
     = Ok [of_string "aaaaaaaaaa"; of_string "aaaaa bbbbbbbbbb"]
  /\ ~ (exists o rest,
          of_string "aaaaa bbbbbbbbbb" = o ++ SPACE :: rest
          /\ word_aligned_suffix o (of_string "aaaaaaaaaa")).
Proof.
  split; [vm_compute; reflexivity|]. split; [vm_compute; reflexivity|].
  intros [o [rest [Hc [pre [Hp Ha]]]]].
  assert (Ho : o = of_string "aaaaa").
  { vm_compute in Hc.
    do 5 (destruct o as [|? o]; simpl in Hc; [discriminate|];
          injection Hc as <- Hc).
    destruct o as [|? o]; [reflexivity|]. simpl in Hc. injection Hc as <- Hc.
    exfalso.
    do 10 (destruct o as [|? o]; simpl in Hc; [discriminate|];
           injection Hc as <- Hc).
    destruct o; discriminate. }
  subst o. vm_compute in Hp.
  do 5 (destruct pre as [|? pre]; simpl in Hp; [discriminate|];
        injection Hp as <- Hp).
  destruct pre as [|? pre]; [|apply (f_equal (@List.length _)) in Hp;
                               simpl in Hp; rewrite length_app in Hp;
                               simpl in Hp; lia].
  destruct Ha as [Ha|[pre' Ha]]; [discriminate|].
  do 4 (destruct pre' as [|? pre']; simpl in Ha; [discriminate|];
        injection Ha as <- Ha).
  destruct pre' as [|? pre']; simpl in Ha; [discriminate|].
  injection Ha as _ Ha. destruct pre'; discriminate.
Qed.

End Overlap.

(** ** Adding, searching and persisting together *)

Section StoreCompose.

Import VectorStore.





(** X19. [persist] changes no path but the two of the collection, whether
    it returns or raises, and nothing at all for a store without documents.
    With documents it returns exactly when the medium accepts the two
    writes, and raises [VectorStoreError] otherwise. When it has returned,
    the store comes back from the medium as it is when it is opened again,
    whatever the medium held before. Persisting once more has the same
    outcome and changes nothing more. *)
Theorem persist_round_trip (self : t) (disk : Disk) :
  inv_embeddings self ->
  let disk' := snd (persist self disk) in
  (forall p, p <> _get_storage_path self -> p <> _get_metadata_path self ->
             disk' p = disk p)
  /\ (_documents self = [] -> persist self disk = (Ok tt, disk))
  /\ (_documents self <> [] ->
      (fst (persist self disk) = Ok tt
       <-> on_write disk (_get_storage_path self) = Accepts
           /\ on_write disk (_get_metadata_path self) = Accepts))
  /\ (fst (persist self disk) = Ok tt
      \/ fst (persist self disk) = Raise (VectorStoreError "Failed to persist"))
  /\ (_documents self <> [] -> fst (persist self disk) = Ok tt ->
      init (collection_name self) (persist_directory self) disk' = self)
  /\ fst (persist self disk') = fst (persist self disk)
  /\ (forall p, snd (persist self disk') p = disk' p).
Proof.
  intros Hinv disk'. subst disk'.
  split; [intros p; apply persist_other|].
  split; [intros H; unfold persist; rewrite H; reflexivity|].
  split.
  { intros Hd. destruct (persist_ok self disk Hd) as [[H1 [H2 ->]]|[H ->]].
    - split; auto.
    - split; [discriminate | intros [H1 H2]; destruct H; contradiction]. }
  split; [apply persist_outcome|].
  split.
  { intros Hd Hok. destruct (_embeddings self) as [a|] eqn:Ea;
      [|exfalso; apply (Hinv Hd), Ea].
    apply (persist_load self a disk Hd Ea Hok). }
  unfold persist. destruct (negb (truthy (_documents self)));
    [split; reflexivity|].
  unfold write. cbn [put on_write fst snd].
  destruct (on_write disk (_get_storage_path self)) eqn:E1;
    cbn [put on_write fst snd];
    repeat (rewrite E1; cbn [put on_write fst snd]);
    try (destruct (on_write disk (_get_metadata_path self)) eqn:E2;
         cbn [put on_write fst snd];
         repeat (first [rewrite E1 | rewrite E2]; cbn [put on_write fst snd]));
    (split; [reflexivity|]); intros p; cbn [put contents];
    destruct (str_eqb p (_get_metadata_path self));
    destruct (str_eqb p (_get_storage_path self)); reflexivity.
Qed.

Lemma persist_round_trip_witness :
  fst (persist Examples.ab_store Examples.no_disk) = Ok tt
  /\ init (collection_name Examples.ab_store)
       (persist_directory Examples.ab_store)
       (snd (persist Examples.ab_store Examples.no_disk))
     = Examples.ab_store
  /\ fst (persist Examples.ab_store Examples.no_json_disk)
     = Raise (VectorStoreError "Failed to persist").
Proof.
  assert (Hinv : inv_embeddings Examples.ab_store) by (intros _; discriminate).
  assert (Hd : _documents Examples.ab_store <> []) by discriminate.
  destruct (persist_round_trip Examples.ab_store Examples.no_disk Hinv)
    as [_ [_ [Hiff [_ [Hload _]]]]].
  destruct (persist_round_trip Examples.ab_store Examples.no_json_disk Hinv)
    as [_ [_ [Hiff' [Hout _]]]].
  assert (Hok : fst (persist Examples.ab_store Examples.no_disk) = Ok tt)
    by (apply (Hiff Hd); split; reflexivity).
  split; [exact Hok|]. split; [exact (Hload Hd Hok)|].
  destruct Hout as [H|H]; [|exact H].
  apply (Hiff' Hd) in H. destruct H as [_ H]. vm_compute in H. discriminate.
Defined.

End StoreCompose.

(** ** Retrieval and generation on a collection *)

Section EngineRank.

Import VectorStore EmbeddingService RAGEngine.

Lemma StronglySorted_map {A B : Type} (R : B -> B -> Prop) (f : A -> B)
  (l : list A) :
  StronglySorted (fun x y => R (f x) (f y)) l -> StronglySorted R (map f l).
Proof.
  induction 1 as [|a l Hs IH Hf]; cbn [map]; constructor; [exact IH|].
  apply Forall_map. exact Hf.
Qed.

(** X20. On a consistent collection of [n] records, once the question is
    embedded as a vector of the stored length, [retrieve] with an effective
    [top_k >= 0] returns [min(top_k, n)] records in which no score is
    smaller than a later one, and [query] hands exactly these records to
    [_build_context] for the system prompt and returns them as [sources],
    in this order. *)
Theorem query_sources_ranked (argsort : list float -> list nat)
  (self : RAGEngine.t) (vector_store : VectorStore.t)
  (rows : list (list float)) (question : str) (top_k : option Z)
  (embedding : list float) (start_time end_time : float) :
  is_argsort argsort ->
  consistent vector_store rows ->
  embed_text (encode self) question = Done embedding ->
  List.length embedding = ncols rows ->
  0 <= int_or top_k (retrieval_top_k (settings self)) ->
  exists hs,
    retrieve argsort self vector_store question top_k = Done hs
    /\ len hs = Z.min (int_or top_k (retrieval_top_k (settings self))) (len rows)
    /\ StronglySorted
         (fun a b => (hit_score a <? hit_score b)%float = false) hs
    /\ Forall (fun h => exists i, (i < List.length rows)%nat
                 /\ hit_content h = nth i (_documents vector_store) []
                 /\ hit_id h = nth i (_ids vector_store) []
                 /\ hit_metadata h = nth i (_metadatas vector_store) []) hs
    /\ query argsort self vector_store question top_k start_time end_time
       = match generate self question
                 (Some (RAG_SYSTEM_PROMPT (_build_context (settings self) hs)))
         with
         | Done response =>
             Done {| answer := response; sources := hs;
                     query_time_ms := ((end_time - start_time) * 1000)%float |}
         | Failed f => Failed f
         end.
Proof.
  intros Ha Hc He Hq Hk.
  set (k := int_or top_k (retrieval_top_k (settings self))) in *.
  set (s := scores rows embedding).
  assert (Hr : retrieve argsort self vector_store question top_k
               = Done (map (hit_of_index vector_store s)
                         (firstn (Z.to_nat k) (rev (argsort s))))).
  { unfold retrieve. rewrite He. fold k.
    rewrite (search_consistent argsort vector_store rows embedding k Ha Hc Hq).
    fold s. rewrite (slice_to_nonneg k _ Hk). reflexivity. }
  destruct (ranking_prefix argsort s (Z.to_nat k) Ha) as [Hl [_ [Hb [Hs _]]]].
  assert (Hls : List.length s = List.length rows) by apply scores_length.
  rewrite Hls in *.
  exists (map (hit_of_index vector_store s)
            (firstn (Z.to_nat k) (rev (argsort s)))).
  split; [exact Hr|]. split.
  { unfold len. rewrite length_map, Hl. lia. }
  split.
  { apply StronglySorted_map. cbn [hit_of_index hit_score].
    eapply StronglySorted_impl; [|exact Hs].
    intros x y Hd. apply npy_lt_ltb, Hd. }
  split.
  { apply Forall_map, Forall_forall. intros i Hi. exists i.
    split; [|cbn [hit_of_index hit_content hit_id hit_metadata]; auto].
    rewrite Forall_forall in Hb. apply Hb, Hi. }
  unfold query. rewrite Hr. reflexivity.
Qed.

Lemma query_sources_ranked_witness :
  exists hs,
    retrieve stable_argsort Examples.echo_engine Examples.ab_store
      (of_string "a") None = Done hs
    /\ len hs = 2
    /\ StronglySorted
         (fun a b => (hit_score a <? hit_score b)%float = false) hs
    /\ Forall (fun h => exists i, (i < 2)%nat
                 /\ hit_content h = nth i (_documents Examples.ab_store) []
                 /\ hit_id h = nth i (_ids Examples.ab_store) []
                 /\ hit_metadata h = nth i (_metadatas Examples.ab_store) []) hs
    /\ query stable_argsort Examples.echo_engine Examples.ab_store
         (of_string "a") None 1%float 3%float
       = match RAGEngine.generate Examples.echo_engine (of_string "a")
                 (Some (RAG_SYSTEM_PROMPT
                          (_build_context (settings Examples.echo_engine) hs)))
         with
         | Done response =>
             Done {| answer := response; sources := hs;
                     query_time_ms := ((3 - 1) * 1000)%float |}
         | Failed f => Failed f
         end.
Proof.
  apply (query_sources_ranked stable_argsort Examples.echo_engine
           Examples.ab_store
           [[1; 0]; [0; 1]]%float (of_string "a") None [1; 0]%float
           1%float 3%float).
  - exact stable_argsort_is_argsort.
  - repeat split; try reflexivity. discriminate.
  - reflexivity.
  - reflexivity.
  - vm_compute. discriminate.
Defined.

End EngineRank.
